(** * flloat: LTLf formulas, their normal forms and the delta function

    A shallow embedding of [flloat/base/Formula.py] and
    [flloat/syntax/ltlf.py].  Python objects become values of inductive
    types, [type(x)] becomes a class tag and a raised exception the
    [Raise] outcome.  The modules the two files import and whose source
    is missing ([flloat.base.Symbol], [flloat.base.Symbols],
    [flloat.base.nnf], [flloat.base.truths], [flloat.base.convertible],
    [flloat.semantics], [flloat.syntax.pl], [flloat.flloat]) are
    parameters of the development or are modelled from the specification,
    each under a comment that says so.  [flloat/base/formulas.py] is a
    later revision of [Formula.py] that [ltlf.py] does not import; only
    its [_popup] is read, to compare it with the one of [Formula.py]. *)

From Stdlib Require Import ZArith String List Bool Lia Permutation.
From stdpp Require Import base tactics option list gmap sets strings.

Set Warnings "-register-all".

Local Open Scope string_scope.
Local Open Scope Z_scope.
Local Open Scope list_scope.

(** ** Outcomes of a Python call *)

Inductive exn : Set :=
| Exception | AssertionError | IndexError | AttributeError | TypeError.

(** [OutOfFuel] is not a Python outcome: it marks a recursion cut short by
    the fuel of the embedding, and is shown never to be the result of the
    total functions defined from the fuelled ones. *)
Inductive outcome (A : Type) : Type :=
| Ok (a : A)
| Raise (e : exn)
| OutOfFuel.

Arguments Ok {A} a.
Arguments Raise {A} e.
Arguments OutOfFuel {A}.

Definition outcome_bind {A B} (f : A -> outcome B) (m : outcome A) : outcome B :=
  match m with
  | Ok a => f a
  | Raise e => Raise e
  | OutOfFuel => OutOfFuel
  end.

#[global] Instance outcome_ret : MRet outcome := fun A a => Ok a.
#[global] Instance outcome_mbind : MBind outcome := fun A B f m => outcome_bind f m.

Definition raises {A} (m : outcome A) : Prop := exists e, m = Raise e.

(** ** Symbols and interpretations *)

(** Modelled from the spec: [flloat.base.Symbol] is missing; a symbol is
    an identifier with value equality. *)
Definition Symbol : Set := string.

(** The members of the enumeration [flloat.base.Symbols] that the two
    files read.  The enumeration itself is not among the sources; the
    string each member stands for is a parameter of the development. *)
Inductive Symbols : Set :=
| NOT | AND | OR | IMPLIES | EQUIVALENCE | WEAK_NEXT | LTLf_LAST.

(** Modelled from the spec: [flloat.semantics.pl] is missing; an
    interpretation is a finite set of symbols considered true, with the two
    dummy constants [PLTrueInterpretation] (all true) and
    [PLFalseInterpretation] (all false). *)
Inductive PLInterpretation : Type :=
| PLInterp (true_propositions : gset Symbol)
| PLTrueInterpretation
| PLFalseInterpretation.

(** [s in i] *)
Definition contains (i : PLInterpretation) (s : Symbol) : bool :=
  match i with
  | PLInterp props => bool_decide (s ∈ props)
  | PLTrueInterpretation => true
  | PLFalseInterpretation => false
  end.

(** ** Atomic propositional formulas *)

(** Modelled from the spec: [flloat.syntax.pl] is missing; its atomic
    formulas are the variants [PLTrue], [PLFalse] and [PLAtomic s]. *)
Inductive PLAtomicFormula : Set :=
| PLAtomic (s : Symbol)
| PLTrue
| PLFalse.

(** Modelled from the spec: standard Boolean evaluation of an atom. *)
Definition PLAtomic_truth (a : PLAtomicFormula) (i : PLInterpretation) : bool :=
  match a with
  | PLAtomic s => contains i s
  | PLTrue => true
  | PLFalse => false
  end.

(** ** LTLf formulas

    The classes of [ltlf.py].  [UnaryOperator] and [BinaryOperator] are the
    two operator bases of [Formula.py]; the class of a node is a tag.  A
    node of a binary class has the attribute [formulas]; on the
    commutative classes [CommutativeBinaryOperator.__init__] adds
    [formulas_set], kept here as the keys of the set in table order (on
    the other classes the attribute does not exist and the field is
    empty). *)

Inductive UnaryClass : Set :=
| C_Not | C_Next | C_WeakNext | C_Eventually | C_Always.

Inductive BinaryClass : Set :=
| C_And | C_Or | C_Implies | C_Equivalence | C_Until | C_Release.

Inductive LTLfFormula : Type :=
| LTLfAtomic (a : PLAtomicFormula)
| LTLfTrue
| LTLfFalse
| UnaryOperator (cls : UnaryClass) (f : LTLfFormula)
| BinaryOperator (cls : BinaryClass) (formulas : list LTLfFormula)
    (formulas_set : list LTLfFormula).

Abbreviation LTLfNot := (UnaryOperator C_Not).
Abbreviation LTLfNext := (UnaryOperator C_Next).
Abbreviation LTLfWeakNext := (UnaryOperator C_WeakNext).
Abbreviation LTLfEventually := (UnaryOperator C_Eventually).
Abbreviation LTLfAlways := (UnaryOperator C_Always).
Abbreviation LTLfAnd := (BinaryOperator C_And).
Abbreviation LTLfOr := (BinaryOperator C_Or).
Abbreviation LTLfImplies := (BinaryOperator C_Implies).
Abbreviation LTLfEquivalence := (BinaryOperator C_Equivalence).
Abbreviation LTLfUntil := (BinaryOperator C_Until).
Abbreviation LTLfRelease := (BinaryOperator C_Release).

#[global] Instance UnaryClass_eq_dec : EqDecision UnaryClass.
Proof. solve_decision. Defined.
#[global] Instance BinaryClass_eq_dec : EqDecision BinaryClass.
Proof. solve_decision. Defined.
#[global] Instance PLAtomicFormula_eq_dec : EqDecision PLAtomicFormula.
Proof. solve_decision. Defined.

(** [type(x)] *)
Inductive PyType : Set :=
| T_LTLfAtomic | T_LTLfTrue | T_LTLfFalse
| T_Unary (cls : UnaryClass)
| T_Binary (cls : BinaryClass).

#[global] Instance PyType_eq_dec : EqDecision PyType.
Proof. solve_decision. Defined.

Definition type_of (x : LTLfFormula) : PyType :=
  match x with
  | LTLfAtomic _ => T_LTLfAtomic
  | LTLfTrue => T_LTLfTrue
  | LTLfFalse => T_LTLfFalse
  | UnaryOperator cls _ => T_Unary cls
  | BinaryOperator cls _ _ => T_Binary cls
  end.

(** [isinstance(x, LTLfAtomic)]: [LTLfTrue] and [LTLfFalse] are subclasses
    of [LTLfAtomic]. *)
Definition isinstance_LTLfAtomic (x : LTLfFormula) : bool :=
  match x with
  | LTLfAtomic _ | LTLfTrue | LTLfFalse => true
  | _ => false
  end.

(** [self.formulas], on a node of a binary class. *)
Definition formulas_of (x : LTLfFormula) : list LTLfFormula :=
  match x with
  | BinaryOperator _ formulas _ => formulas
  | _ => []
  end.

(** [CommutativeBinaryOperator]: the classes deriving from
    [LTLfCommBinaryOperator]. *)
Definition commutative (cls : BinaryClass) : bool :=
  match cls with
  | C_And | C_Or | C_Equivalence => true
  | C_Implies | C_Until | C_Release => false
  end.

(** [self._popup()]: children of the type of [self] are replaced by their
    own popped-up children. *)
Fixpoint _popup (self : LTLfFormula) : list LTLfFormula :=
  match self with
  | BinaryOperator cls formulas _ =>
      flat_map (fun child =>
                  if bool_decide (type_of child = T_Binary cls)
                  then _popup child
                  else [child]) formulas
  | _ => []
  end.

(** [self.formulas[n]] *)
Definition getitem {A} (l : list A) (n : nat) : outcome A :=
  match l !! n with
  | Some x => Ok x
  | None => Raise IndexError
  end.

(** [self.formulas[n:]] *)
Definition slice_from {A} (n : nat) (l : list A) : list A := drop n l.

(** [self.formulas[:n]] *)
Definition slice_to {A} (n : nat) (l : list A) : list A := take n l.

(** ** Propositional formulas, as [_delta] returns them *)

Inductive PLBinaryClass : Set := C_PLAnd | C_PLOr.

(** Modelled from the spec: [flloat.syntax.pl] is missing; a propositional
    formula is one of [PLTrue], [PLFalse], [PLAtomic s], [PLNot f],
    [PLAnd fs] and [PLOr fs], the last two n-ary and flattened.
    [LTLfNext._delta] and [LTLfWeakNext._delta] return the LTLf formula
    [self.f] itself where a propositional formula is expected; [PLofLTLf]
    is that object standing in a propositional position.  The set of
    operands that gives [PLAnd] and [PLOr] their identity plays no part in
    [_delta] and is left out. *)
Inductive PLFormula : Type :=
| PLAtom (a : PLAtomicFormula)
| PLNot (f : PLFormula)
| PLBinaryOperator (cls : PLBinaryClass) (formulas : list PLFormula)
| PLofLTLf (f : LTLfFormula).

Coercion PLAtom : PLAtomicFormula >-> PLFormula.

Abbreviation PLAnd := (PLBinaryOperator C_PLAnd).
Abbreviation PLOr := (PLBinaryOperator C_PLOr).

#[global] Instance PLBinaryClass_eq_dec : EqDecision PLBinaryClass.
Proof. solve_decision. Defined.

Definition PL_is_class (cls : PLBinaryClass) (x : PLFormula) : bool :=
  match x with
  | PLBinaryOperator c _ => bool_decide (c = cls)
  | _ => false
  end.

(** [BinaryOperator._popup] on the propositional classes. *)
Fixpoint PL_popup (self : PLFormula) : list PLFormula :=
  match self with
  | PLBinaryOperator cls formulas =>
      flat_map (fun child =>
                  if PL_is_class cls child then PL_popup child else [child])
               formulas
  | _ => []
  end.

(** Modelled from the spec: the constructor of [PLAnd] and [PLOr] is taken
    to be [BinaryOperator.__init__] of [Formula.py]: it asserts two or
    more operands and flattens nested operators of the same kind. *)
Definition PLBinaryOperator_init (cls : PLBinaryClass) (formulas : list PLFormula)
  : outcome PLFormula :=
  if bool_decide (2 <= length formulas)%nat
  then Ok (PLBinaryOperator cls (PL_popup (PLBinaryOperator cls formulas)))
  else Raise AssertionError.

Abbreviation PLAnd_init := (PLBinaryOperator_init C_PLAnd).
Abbreviation PLOr_init := (PLBinaryOperator_init C_PLOr).

(** [all(g(x) for x in l)] and [any(g(x) for x in l)]: the generator is
    consumed from the left and stops at the first deciding element. *)
Definition py_all {A} (g : A -> outcome bool) : list A -> outcome bool :=
  fix go l :=
    match l with
    | [] => Ok true
    | x :: l' =>
        match g x with
        | Ok true => go l'
        | r => r
        end
    end.

Definition py_any {A} (g : A -> outcome bool) : list A -> outcome bool :=
  fix go l :=
    match l with
    | [] => Ok false
    | x :: l' =>
        match g x with
        | Ok false => go l'
        | r => r
        end
    end.

(** Modelled from the spec: [truth(φ, I)] is standard Boolean evaluation.
    An LTLf formula in a propositional position has no one-argument
    [truth] ([LTLfTruth.truth] takes an interpretation sequence and a
    position), so evaluating it raises [TypeError]. *)
Fixpoint PL_truth (self : PLFormula) (i : PLInterpretation) : outcome bool :=
  match self with
  | PLAtom a => Ok (PLAtomic_truth a i)
  | PLNot f =>
      match PL_truth f i with
      | Ok b => Ok (negb b)
      | r => r
      end
  | PLAnd formulas => py_all (fun f => PL_truth f i) formulas
  | PLOr formulas => py_any (fun f => PL_truth f i) formulas
  | PLofLTLf _ => Raise TypeError
  end.

(** [Formula.__eq__(d, PLFalse())]: the types must be the same, so only a
    [PLFalse] is equal to [PLFalse()]. *)
Definition eq_PLFalse (d : PLFormula) : bool :=
  match d with
  | PLAtom PLFalse => true
  | _ => false
  end.

(** ** An instance of the parameters

    The development is parametric in the strings of [Symbols] and in the
    hash of the interpreter.  The instance below serves to evaluate the
    definitions on concrete inputs: strings hash to their length, so that
    distinct keys collide, a tuple hashes by a polynomial in the hashes of
    its items, and a frozenset by the exclusive or of the hashes of its
    keys. *)

Definition sample_Symbols_value (s : Symbols) : string :=
  match s with
  | NOT => "!"
  | AND => "&"
  | OR => "|"
  | IMPLIES => "->"
  | EQUIVALENCE => "<->"
  | WEAK_NEXT => "WX"
  | LTLf_LAST => "last"
  end.

Definition sample_hash_str (s : string) : Z := Z.of_nat (String.length s).

Definition sample_hash_type (t : PyType) : Z := 7.

Definition sample_hash_PLAtomic (a : PLAtomicFormula) : Z :=
  match a with
  | PLAtomic s => sample_hash_str s
  | PLTrue => 4
  | PLFalse => 5
  end.

Definition sample_hash_tuple (hs : list Z) : Z :=
  fold_left (fun acc h => 31 * acc + h) hs 17.

Definition sample_hash_frozenset (hs : list Z) : Z :=
  fold_right Z.lxor 0 hs.

(** ** The parameters of the development *)

Section Flloat.

(** [Symbols.X.value], for the members of the missing enumeration. *)
Variable Symbols_value : Symbols -> string.

(** The hash of the interpreter on the built-in values that [_members]
    returns: strings, class objects, tuples (a function of the hashes of
    the items, in order) and frozensets (a function of the hashes of the
    keys).  Modelled from the spec: the atoms of the missing
    [flloat.syntax.pl] have value equality and a hash that is a function
    of the value. *)
Variable hash_str : string -> Z.
Variable hash_type : PyType -> Z.
Variable hash_PLAtomic : PLAtomicFormula -> Z.
Variable hash_tuple : list Z -> Z.
Variable hash_frozenset : list Z -> Z.

(** The hash of a frozenset does not depend on the order of its table. *)
Hypothesis hash_frozenset_perm :
  forall hs hs' : list Z, hs ≡ₚ hs' -> hash_frozenset hs = hash_frozenset hs'.

(** [Symbol(Symbols.LTLf_LAST.value)] *)
Definition LAST : Symbol := Symbols_value LTLf_LAST.

(** ** Equality and hash of formulas: [Formula.py] *)

(** [operator_symbol]: ["X"], ["U"], ["F"], ["G"] and ["R"] are set in
    [ltlf.py], the others come from the missing enumeration. *)
Definition unary_operator_symbol (cls : UnaryClass) : string :=
  match cls with
  | C_Not => Symbols_value NOT
  | C_Next => "X"
  | C_WeakNext => Symbols_value WEAK_NEXT
  | C_Eventually => "F"
  | C_Always => "G"
  end.

Definition binary_operator_symbol (cls : BinaryClass) : string :=
  match cls with
  | C_And => Symbols_value AND
  | C_Or => Symbols_value OR
  | C_Implies => Symbols_value IMPLIES
  | C_Equivalence => Symbols_value EQUIVALENCE
  | C_Until => "U"
  | C_Release => "R"
  end.

(** [Formula.__hash__]: [hash(self._members())], where [_members] is
    [(LTLfAtomic, self.a)] on the atoms, [(operator_symbol, f)] on a unary
    node, [(operator_symbol,) + formulas] on a binary node and
    [(operator_symbol, formulas_set)] on a commutative one. *)
Fixpoint Formula_hash (self : LTLfFormula) : Z :=
  match self with
  | LTLfAtomic a => hash_tuple [hash_type T_LTLfAtomic; hash_PLAtomic a]
  | LTLfTrue => hash_tuple [hash_type T_LTLfAtomic; hash_PLAtomic PLTrue]
  | LTLfFalse => hash_tuple [hash_type T_LTLfAtomic; hash_PLAtomic PLFalse]
  | UnaryOperator cls f =>
      hash_tuple [hash_str (unary_operator_symbol cls); Formula_hash f]
  | BinaryOperator cls formulas formulas_set =>
      if commutative cls
      then hash_tuple [hash_str (binary_operator_symbol cls);
                       hash_frozenset (map Formula_hash formulas_set)]
      else hash_tuple (hash_str (binary_operator_symbol cls)
                       :: map Formula_hash formulas)
  end.

(** Equality of two tuples of formulas: the same length and equal items;
    [eq x y] is [x == y] for an item [x] of the left tuple. *)
Definition tuple_eq (eq : LTLfFormula -> LTLfFormula -> bool)
  : list LTLfFormula -> list LTLfFormula -> bool :=
  fix go v w :=
    match v, w with
    | [], [] => true
    | x :: v', y :: w' => eq x y && go v' w'
    | _, _ => false
    end.

(** [key in table]: the table holds a [startkey] of the same hash with
    [startkey == key]; [eq_flip key startkey] is that comparison. *)
Definition set_lookup (hash : LTLfFormula -> Z)
  (eq_flip : LTLfFormula -> LTLfFormula -> bool)
  (table : list LTLfFormula) (key : LTLfFormula) : bool :=
  existsb (fun startkey =>
             bool_decide (hash startkey = hash key) && eq_flip key startkey)
          table.

(** Equality of two frozensets [v == w]: the same size, and every key of
    [v] is in [w]. *)
Definition frozenset_eq (hash : LTLfFormula -> Z)
  (eq_flip : LTLfFormula -> LTLfFormula -> bool)
  (v w : list LTLfFormula) : bool :=
  bool_decide (length v = length w)
  && forallb (set_lookup hash eq_flip w) v.

(** [Formula.__eq__]: [type(other) is type(self)] and the members are
    equal.  The comparison of a set lookup has the key of the right
    operand on its left, so the method is defined together with its
    flipped form: [Formula_eq_flip self other] is [other == self]. *)
Fixpoint Formula_eq (self other : LTLfFormula) {struct self} : bool :=
  match self, other with
  | LTLfAtomic a, LTLfAtomic b => bool_decide (a = b)
  | LTLfTrue, LTLfTrue => true
  | LTLfFalse, LTLfFalse => true
  | UnaryOperator cls f, UnaryOperator cls' f' =>
      bool_decide (cls' = cls)
      && String.eqb (unary_operator_symbol cls) (unary_operator_symbol cls')
      && Formula_eq f f'
  | BinaryOperator cls formulas formulas_set,
    BinaryOperator cls' formulas' formulas_set' =>
      bool_decide (cls' = cls)
      && String.eqb (binary_operator_symbol cls) (binary_operator_symbol cls')
      && (if commutative cls
          then frozenset_eq Formula_hash Formula_eq_flip formulas_set formulas_set'
          else tuple_eq Formula_eq formulas formulas')
  | _, _ => false
  end
with Formula_eq_flip (self other : LTLfFormula) {struct self} : bool :=
  match self, other with
  | LTLfAtomic a, LTLfAtomic b => bool_decide (b = a)
  | LTLfTrue, LTLfTrue => true
  | LTLfFalse, LTLfFalse => true
  | UnaryOperator cls f, UnaryOperator cls' f' =>
      bool_decide (cls = cls')
      && String.eqb (unary_operator_symbol cls') (unary_operator_symbol cls)
      && Formula_eq_flip f f'
  | BinaryOperator cls formulas formulas_set,
    BinaryOperator cls' formulas' formulas_set' =>
      bool_decide (cls = cls')
      && String.eqb (binary_operator_symbol cls') (binary_operator_symbol cls)
      && (if commutative cls'
          then
            (* [formulas_set' == formulas_set]: the keys of [other] are
               looked up in the table of [self] *)
            bool_decide (length formulas_set' = length formulas_set)
            && forallb (fun key =>
                 existsb (fun startkey =>
                   bool_decide (Formula_hash startkey = Formula_hash key)
                   && Formula_eq startkey key) formulas_set)
                 formulas_set'
          else
            (* [formulas' == formulas] *)
            (fix go (v w : list LTLfFormula) : bool :=
               match v, w with
               | [], [] => true
               | x :: v', y :: w' => Formula_eq_flip x y && go v' w'
               | _, _ => false
               end) formulas formulas')
  | _, _ => false
  end.

(** *** Construction *)

(** [key in table], for the table of a set under construction. *)
Definition set_contains (table : list LTLfFormula) (key : LTLfFormula) : bool :=
  set_lookup Formula_hash (fun key startkey => Formula_eq startkey key) table key.

Definition set_add (table : list LTLfFormula) (key : LTLfFormula)
  : list LTLfFormula :=
  if set_contains table key then table else table ++ [key].

(** [frozenset(formulas)]: the keys are inserted from the left. *)
Definition frozenset (formulas : list LTLfFormula) : list LTLfFormula :=
  fold_left set_add formulas [].

(** [BinaryOperator.__init__]: the assertion, then [self.formulas] is the
    popped-up tuple. *)
Definition BinaryOperator_init (cls : BinaryClass) (formulas : list LTLfFormula)
  : outcome LTLfFormula :=
  if bool_decide (2 <= length formulas)%nat
  then Ok (BinaryOperator cls (_popup (BinaryOperator cls formulas [])) [])
  else Raise AssertionError.

(** [CommutativeBinaryOperator.__init__], with [idempotence] left to its
    default [True] as every call of [ltlf.py] does. *)
Definition CommutativeBinaryOperator_init (cls : BinaryClass)
  (formulas : list LTLfFormula) : outcome LTLfFormula :=
  self ← BinaryOperator_init cls formulas;
  Ok (BinaryOperator cls (formulas_of self) (frozenset (formulas_of self))).

(** [cls(formulas)]: the constructor call of a binary class. *)
Definition new (cls : BinaryClass) (formulas : list LTLfFormula)
  : outcome LTLfFormula :=
  if commutative cls
  then CommutativeBinaryOperator_init cls formulas
  else BinaryOperator_init cls formulas.

(** ** Negative normal form *)

(** Modelled from the spec: [flloat.base.convertible] is missing; an
    implication and an equivalence desugar to And/Or/Not.  The desugaring
    taken here is the usual one: [Implies [f1..fn]] is
    [Or [Not f1, .., Not f(n-1), fn]] and [Equivalence fs] is
    [Or [And fs, And [Not f | f in fs]]]. *)
Definition Implies_convert (formulas : list LTLfFormula) : outcome LTLfFormula :=
  new C_Or
    (map (fun f => LTLfNot f) (slice_to (length formulas - 1) formulas)
     ++ slice_from (length formulas - 1) formulas).

Definition Equivalence_convert (formulas : list LTLfFormula) : outcome LTLfFormula :=
  pos ← new C_And formulas;
  neg ← new C_And (map (fun f => LTLfNot f) formulas);
  new C_Or [pos; neg].

(** [self._convert()], for the classes that define it: [LTLfWeakNext],
    [LTLfEventually], [LTLfAlways] and [LTLfRelease] in [ltlf.py], the two
    desugared classes above. *)
Definition _convert (self : LTLfFormula) : outcome LTLfFormula :=
  match self with
  | LTLfWeakNext f => Ok (LTLfNot (LTLfNext (LTLfNot f)))
  | LTLfEventually f => new C_Until [LTLfTrue; f]
  | LTLfAlways f => Ok (LTLfNot (LTLfEventually (LTLfNot f)))
  | LTLfRelease formulas _ =>
      u ← new C_Until (map (fun f => LTLfNot f) formulas);
      Ok (LTLfNot u)
  | LTLfImplies formulas _ => Implies_convert formulas
  | LTLfEquivalence formulas _ => Equivalence_convert formulas
  | _ => Raise AttributeError
  end.

(** [[g(x) for x in l]] *)
Definition comprehension {A B} (g : A -> outcome B) : list A -> outcome (list B) :=
  fix go l :=
    match l with
    | [] => Ok []
    | x :: l' =>
        match g x with
        | Ok y =>
            match go l' with
            | Ok ys => Ok (y :: ys)
            | Raise e => Raise e
            | OutOfFuel => OutOfFuel
            end
        | Raise e => Raise e
        | OutOfFuel => OutOfFuel
        end
    end.

(** The operands of the desugared implication, in normal form:
    [pre] is applied to all but the last, [post] to the last. *)
Definition comprehension_last {A B} (pre post : A -> outcome B)
  : list A -> outcome (list B) :=
  fix go l :=
    match l with
    | [] => Ok []
    | [x] => match post x with
             | Ok y => Ok [y]
             | Raise e => Raise e
             | OutOfFuel => OutOfFuel
             end
    | x :: l' =>
        match pre x with
        | Ok y =>
            match go l' with
            | Ok ys => Ok (y :: ys)
            | Raise e => Raise e
            | OutOfFuel => OutOfFuel
            end
        | Raise e => Raise e
        | OutOfFuel => OutOfFuel
        end
    end.

(** Modelled from the spec: [flloat.base.nnf] is missing; only
    [LTLfAtomic.to_nnf] (return [self]) and [LTLfUntil.to_nnf] (rebuild
    from the operands in normal form) are in [ltlf.py].  The other cases
    follow the rewrite rules of the specification: negation is pushed to
    the atoms through the dual operators ([to_nnf_Not f] is
    [to_nnf(Not f)]), the remaining operators are rebuilt bottom-up, and
    [Implies], [Equivalence], [Eventually] ([Until [True, f]]) and
    [Always] ([Not Eventually Not f]) are expanded to their base form. *)
Fixpoint to_nnf (self : LTLfFormula) : outcome LTLfFormula :=
  match self with
  | LTLfAtomic _ | LTLfTrue | LTLfFalse => Ok self
  | LTLfNot f => to_nnf_Not f
  | LTLfNext f => f' ← to_nnf f; Ok (LTLfNext f')
  | LTLfWeakNext f => f' ← to_nnf f; Ok (LTLfWeakNext f')
  | LTLfEventually f =>
      f' ← to_nnf f; new C_Until [LTLfTrue; f']
  | LTLfAlways f =>
      f' ← to_nnf f; new C_Release [LTLfNot LTLfTrue; f']
  | LTLfAnd formulas _ =>
      fs ← comprehension to_nnf formulas; new C_And fs
  | LTLfOr formulas _ =>
      fs ← comprehension to_nnf formulas; new C_Or fs
  | LTLfUntil formulas _ =>
      fs ← comprehension to_nnf formulas; new C_Until fs
  | LTLfRelease formulas _ =>
      fs ← comprehension to_nnf formulas; new C_Release fs
  | LTLfImplies formulas _ =>
      fs ← comprehension_last to_nnf_Not to_nnf formulas;
      new C_Or fs
  | LTLfEquivalence formulas _ =>
      ps ← comprehension to_nnf formulas;
      pos ← new C_And ps;
      ns ← comprehension to_nnf_Not formulas;
      neg ← new C_And ns;
      new C_Or [pos; neg]
  end
with to_nnf_Not (f : LTLfFormula) : outcome LTLfFormula :=
  match f with
  | LTLfAtomic _ | LTLfTrue | LTLfFalse => Ok (LTLfNot f)
  | LTLfNot g => to_nnf g
  | LTLfNext g => g' ← to_nnf_Not g; Ok (LTLfWeakNext g')
  | LTLfWeakNext g => g' ← to_nnf_Not g; Ok (LTLfNext g')
  | LTLfEventually g =>
      g' ← to_nnf_Not g; new C_Release [LTLfNot LTLfTrue; g']
  | LTLfAlways g =>
      g' ← to_nnf_Not g; new C_Until [LTLfTrue; g']
  | LTLfAnd formulas _ =>
      fs ← comprehension to_nnf_Not formulas; new C_Or fs
  | LTLfOr formulas _ =>
      fs ← comprehension to_nnf_Not formulas; new C_And fs
  | LTLfUntil formulas _ =>
      fs ← comprehension to_nnf_Not formulas; new C_Release fs
  | LTLfRelease formulas _ =>
      fs ← comprehension to_nnf_Not formulas; new C_Until fs
  | LTLfImplies formulas _ =>
      fs ← comprehension_last to_nnf to_nnf_Not formulas;
      new C_And fs
  | LTLfEquivalence formulas _ =>
      ns ← comprehension to_nnf_Not formulas;
      neg ← new C_Or ns;
      ps ← comprehension to_nnf formulas;
      pos ← new C_Or ps;
      new C_And [neg; pos]
  end.

(** ** The delta function *)

(** [cls(self.formulas[1:]) if len(self.formulas) > 2 else
    self.formulas[1]]: the second operand of [Until] and [Release]. *)
Definition second_operand (cls : BinaryClass) (formulas : list LTLfFormula)
  : outcome LTLfFormula :=
  if bool_decide (2 < length formulas)%nat
  then new cls (slice_from 1 formulas)
  else getitem formulas 1.

(** [LTLfAtomic._delta], on the field [a] of the atom. *)
Definition LTLfAtomic_delta (a : PLAtomicFormula) (i : PLInterpretation)
  (epsilon : bool) : PLFormula :=
  if epsilon then PLFalse
  else if PLAtomic_truth a i then PLTrue else PLFalse.

(** The body of [self._delta(i, epsilon)], dispatched on the class of
    [self]; the argument [_delta] stands for the method in its recursive
    calls. *)
Definition _delta_body
  (_delta : LTLfFormula -> PLInterpretation -> bool -> outcome PLFormula)
  (self : LTLfFormula) (i : PLInterpretation) (epsilon : bool)
  : outcome PLFormula :=
  match self with
  | LTLfAtomic a => Ok (LTLfAtomic_delta a i epsilon)
  | LTLfTrue => Ok (LTLfAtomic_delta PLTrue i epsilon)
  | LTLfFalse => Ok (LTLfAtomic_delta PLFalse i epsilon)
  | LTLfNot f =>
      if isinstance_LTLfAtomic f then
        d ← _delta f i epsilon;
        Ok (if eq_PLFalse d then PLAtom PLTrue else PLAtom PLFalse)
      else Raise Exception
  | LTLfAnd formulas _ =>
      ds ← comprehension (fun f => _delta f i epsilon) formulas;
      PLAnd_init ds
  | LTLfOr formulas _ =>
      ds ← comprehension (fun f => _delta f i epsilon) formulas;
      PLOr_init ds
  | LTLfNext f =>
      if epsilon then Ok (PLAtom PLFalse)
      else Ok (if negb (contains i LAST) then PLofLTLf f else PLAtom PLFalse)
  | LTLfWeakNext f =>
      if epsilon then Ok (PLAtom PLTrue)
      else Ok (if negb (contains i LAST) then PLofLTLf f else PLAtom PLTrue)
  | LTLfUntil formulas _ =>
      f1 ← getitem formulas 0;
      f2 ← second_operand C_Until formulas;
      d2 ← _delta f2 i epsilon;
      d1 ← _delta f1 i epsilon;
      dn ← _delta (LTLfNext self) i epsilon;
      a ← PLAnd_init [d1; dn];
      PLOr_init [d2; a]
  | LTLfRelease formulas _ =>
      f1 ← getitem formulas 0;
      f2 ← second_operand C_Release formulas;
      d2 ← _delta f2 i epsilon;
      d1 ← _delta f1 i epsilon;
      dn ← _delta (LTLfNext self) i epsilon;
      o ← PLOr_init [d1; dn];
      PLAnd_init [d2; o]
  | LTLfEventually f =>
      d ← _delta f i epsilon;
      dn ← _delta (LTLfNext self) i epsilon;
      PLOr_init [d; dn]
  | LTLfAlways f =>
      d ← _delta f i epsilon;
      dn ← _delta (LTLfWeakNext self) i epsilon;
      PLAnd_init [d; dn]
  | LTLfImplies _ _ | LTLfEquivalence _ _ =>
      (* Modelled from the spec: the [_delta] of the two desugared
         classes comes from the missing [flloat.base.convertible]; it is
         the [_delta] of the desugared formula. *)
      c ← _convert self;
      _delta c i epsilon
  end.

(** The recursion of the source is on freshly built nodes
    ([LTLfNext(self)], [LTLfUntil(self.formulas[1:])]), so the embedding
    recurses on fuel. *)
Fixpoint _delta_fuel (fuel : nat) (self : LTLfFormula) (i : PLInterpretation)
  (epsilon : bool) {struct fuel} : outcome PLFormula :=
  match fuel with
  | O => OutOfFuel
  | S fuel => _delta_body (_delta_fuel fuel) self i epsilon
  end.

(** *** Fuel that is always enough

    [weight] bounds the depth of the recursion of [_delta] and of [truth]:
    it decreases from a node to its operands, to the node rebuilt from the
    tail of its operands, and to the formula [_convert] desugars it to. *)

Definition unary_weight (cls : UnaryClass) : nat :=
  match cls with
  | C_Not | C_Next => 1
  | C_WeakNext => 4
  | C_Eventually => 3
  | C_Always => 6
  end.

(** The weight of a node of class [cls] is [k] plus [a * weight x + b] for
    each operand [x], where [binary_weight cls = (k, a, b)]. *)
Definition binary_weight (cls : BinaryClass) : nat * nat * nat :=
  match cls with
  | C_And | C_Or | C_Until => (1, 1, 0)
  | C_Release => (3, 1, 1)
  | C_Implies => (2, 1, 1)
  | C_Equivalence => (4, 2, 1)
  end%nat.

Definition operand_weight (cls : BinaryClass) (w : nat) : nat :=
  (binary_weight cls).1.2 * w + (binary_weight cls).2.

Fixpoint weight (self : LTLfFormula) : nat :=
  match self with
  | LTLfAtomic _ | LTLfTrue | LTLfFalse => 1
  | UnaryOperator cls f => unary_weight cls + weight f
  | BinaryOperator cls formulas _ =>
      (binary_weight cls).1.1
      + list_sum (map (fun x => operand_weight cls (weight x)) formulas)
  end%nat.

(** [self._delta(i, epsilon)] *)
Definition _delta (self : LTLfFormula) (i : PLInterpretation) (epsilon : bool)
  : outcome PLFormula :=
  _delta_fuel (weight self) self i epsilon.

(** [LTLfFormula.delta]: normal form, [_delta], and with [epsilon] the
    collapse of the result against [PLFalseInterpretation()]. *)
Definition delta (self : LTLfFormula) (i : PLInterpretation) (epsilon : bool)
  : outcome PLFormula :=
  f ← to_nnf self;
  d ← _delta f i epsilon;
  if epsilon then
    t ← PL_truth d PLFalseInterpretation;
    Ok (if t : bool then PLAtom PLTrue else PLAtom PLFalse)
  else Ok d.

(** ** Truth on a finite trace *)

(** Modelled from the spec: [flloat.semantics.ldlf] is missing; a finite
    trace is a sequence of interpretations, [get(pos)] is its letter at
    [pos] and [last()] the index of its last position. *)
Definition FiniteTrace : Type := list PLInterpretation.

Definition FiniteTrace_get (i : FiniteTrace) (pos : Z) : outcome PLInterpretation :=
  if bool_decide (0 <= pos) then getitem i (Z.to_nat pos) else Raise IndexError.

Definition FiniteTrace_last (i : FiniteTrace) : Z := Z.of_nat (length i) - 1.

(** [range(a, b)] *)
Definition range (a b : Z) : list Z :=
  map (fun k => a + Z.of_nat k) (seq 0 (Z.to_nat (b - a))).

(** [self.truth(i, pos)].  [LTLfAtomic.truth], [LTLfNext.truth],
    [LTLfWeakNext.truth] and [LTLfUntil.truth] are those of [ltlf.py].
    Modelled from the spec: [flloat.base.truths] and
    [flloat.base.convertible] are missing; [Not], [And] and [Or] are
    evaluated as the Boolean connectives, and the classes that define
    [_convert] are evaluated on the formula they convert to. *)
Definition truth_body
  (truth : LTLfFormula -> FiniteTrace -> Z -> outcome bool)
  (self : LTLfFormula) (i : FiniteTrace) (pos : Z) : outcome bool :=
  match self with
  | LTLfAtomic a => l ← FiniteTrace_get i pos; Ok (PLAtomic_truth a l)
  | LTLfTrue => l ← FiniteTrace_get i pos; Ok (PLAtomic_truth PLTrue l)
  | LTLfFalse => l ← FiniteTrace_get i pos; Ok (PLAtomic_truth PLFalse l)
  | LTLfNot f => b ← truth f i pos; Ok (negb b)
  | LTLfAnd formulas _ => py_all (fun f => truth f i pos) formulas
  | LTLfOr formulas _ => py_any (fun f => truth f i pos) formulas
  | LTLfNext f =>
      if bool_decide (pos < FiniteTrace_last i)
      then truth f i (pos + 1)
      else Ok false
  | LTLfUntil formulas _ =>
      f1 ← getitem formulas 0;
      f2 ← second_operand C_Until formulas;
      py_any (fun j =>
                match truth f2 i j with
                | Ok true => py_all (fun k => truth f1 i k) (range pos j)
                | r => r
                end)
             (range pos (FiniteTrace_last i + 1))
  | LTLfWeakNext _ | LTLfEventually _ | LTLfAlways _ | LTLfRelease _ _
  | LTLfImplies _ _ | LTLfEquivalence _ _ =>
      c ← _convert self;
      truth c i pos
  end.

Fixpoint truth_fuel (fuel : nat) (self : LTLfFormula) (i : FiniteTrace) (pos : Z)
  {struct fuel} : outcome bool :=
  match fuel with
  | O => OutOfFuel
  | S fuel => truth_body (truth_fuel fuel) self i pos
  end.

Definition truth (self : LTLfFormula) (i : FiniteTrace) (pos : Z) : outcome bool :=
  truth_fuel (weight self) self i pos.

(** ** The automaton *)

(** The automata and the two builders of the missing [flloat.flloat]. *)
Variable Automaton : Type.
Variable DFAOTF : LTLfFormula -> Automaton.
Variable flloat_to_automaton :
  LTLfFormula -> gset Symbol -> bool -> bool -> Automaton.

(** [LTLfFormula.to_automaton]; [labels] is [None] when the argument is
    left to its default, and [None] has no attribute [union]. *)
Definition to_automaton (self : LTLfFormula) (labels : option (gset Symbol))
  (on_the_fly determinize minimize : bool) : outcome Automaton :=
  if on_the_fly then Ok (DFAOTF self)
  else
    match labels with
    | None => Raise AttributeError
    | Some labels =>
        let new_labels := labels ∪ {[ LAST ]} in
        Ok (flloat_to_automaton self new_labels determinize minimize)
    end.

(** ** Predicates on formulas *)

(** The formulas a program can hold: every node of a binary class was
    built by the constructor of its class from constructed operands. *)
Inductive constructed : LTLfFormula -> Prop :=
| constructed_atomic a : constructed (LTLfAtomic a)
| constructed_true : constructed LTLfTrue
| constructed_false : constructed LTLfFalse
| constructed_unary cls f :
    constructed f -> constructed (UnaryOperator cls f)
| constructed_binary cls formulas self :
    Forall constructed formulas ->
    new cls formulas = Ok self ->
    constructed self.

(** The keys of a set are pairwise different: no key has the hash of an
    earlier one and is equal to it. *)
Definition distinct_keys (table : list LTLfFormula) : Prop :=
  forall (i j : nat) (k1 k2 : LTLfFormula),
    (i < j)%nat -> table !! i = Some k1 -> table !! j = Some k2 ->
    ~ (Formula_hash k1 = Formula_hash k2 /\ Formula_eq k1 k2 = true).

(** The invariant of the constructors: the set of every commutative node
    has pairwise different keys, all of them operands of the node. *)
Inductive valid : LTLfFormula -> Prop :=
| valid_atomic a : valid (LTLfAtomic a)
| valid_true : valid LTLfTrue
| valid_false : valid LTLfFalse
| valid_unary cls f : valid f -> valid (UnaryOperator cls f)
| valid_binary cls formulas formulas_set :
    Forall valid formulas ->
    Forall valid formulas_set ->
    (commutative cls = true -> distinct_keys formulas_set) ->
    valid (BinaryOperator cls formulas formulas_set).

(** What the containers of the interpreter expect of the equality of a
    key [a]: it is reflexive, symmetric and transitive against the valid
    formulas. *)
Record lawful (a : LTLfFormula) : Prop := {
  lawful_refl : Formula_eq a a = true;
  lawful_sym : forall b,
    valid b -> Formula_eq a b = true -> Formula_eq b a = true;
  lawful_sym_r : forall b,
    valid b -> Formula_eq b a = true -> Formula_eq a b = true;
  lawful_trans_l : forall b c,
    valid b -> valid c ->
    Formula_eq a b = true -> Formula_eq b c = true -> Formula_eq a c = true;
  lawful_trans_m : forall b c,
    valid b -> valid c ->
    Formula_eq b a = true -> Formula_eq a c = true -> Formula_eq b c = true;
  lawful_trans_r : forall b c,
    valid b -> valid c ->
    Formula_eq b c = true -> Formula_eq c a = true -> Formula_eq b a = true
}.

(** Every key of [v] is in the table [w]. *)
Definition keys_in (v w : list LTLfFormula) : Prop :=
  forall key, key ∈ v -> set_contains w key = true.

(** Negative normal form: negation on atoms only, and none of the
    operators that [to_nnf] expands. *)
Fixpoint is_nnf (self : LTLfFormula) : bool :=
  match self with
  | LTLfAtomic _ | LTLfTrue | LTLfFalse => true
  | LTLfNot f => isinstance_LTLfAtomic f
  | LTLfNext f | LTLfWeakNext f => is_nnf f
  | LTLfEventually _ | LTLfAlways _ => false
  | BinaryOperator cls formulas _ =>
      match cls with
      | C_And | C_Or | C_Until | C_Release =>
          bool_decide (2 <= length formulas)%nat && forallb is_nnf formulas
      | C_Implies | C_Equivalence => false
      end
  end.

(** Every binary node has two operands or more. *)
Fixpoint binary_arity (self : LTLfFormula) : bool :=
  match self with
  | LTLfAtomic _ | LTLfTrue | LTLfFalse => true
  | UnaryOperator _ f => binary_arity f
  | BinaryOperator _ formulas _ =>
      bool_decide (2 <= length formulas)%nat && forallb binary_arity formulas
  end.

(** A propositional formula over the constants [PLTrue] and [PLFalse]
    only, built with [PLAnd] and [PLOr]. *)
Fixpoint constants_only (d : PLFormula) : bool :=
  match d with
  | PLAtom PLTrue | PLAtom PLFalse => true
  | PLAtom (PLAtomic _) => false
  | PLNot _ => false
  | PLBinaryOperator _ formulas => forallb constants_only formulas
  | PLofLTLf _ => false
  end.

(** ** More of [Formula.py], [formulas.py] and [ltlf.py] *)

(** [list(self.formulas_set)]: a set is iterated in the order of its
    table, a permutation of the keys that the interpreter chooses. *)
Variable table_order : list LTLfFormula -> list LTLfFormula.

Hypothesis table_order_perm :
  forall table : list LTLfFormula, table_order table ≡ₚ table.


(** [BinaryOperator._popup] of [formulas.py]: the operands of the class
    of [self] are replaced by their [formulas], one level deep. *)
Definition _popup_one_level (self : LTLfFormula) : list LTLfFormula :=
  match self with
  | BinaryOperator cls formulas _ =>
      flat_map (fun child =>
                  if bool_decide (type_of child = T_Binary cls)
                  then formulas_of child
                  else [child]) formulas
  | _ => []
  end.

(** [LTLfAtomic.negate], on the field [a] of the atom:
    [LTLfNot(LTLfAtomic(self.a))]. *)
Definition LTLfAtomic_negate (a : PLAtomicFormula) : LTLfFormula :=
  LTLfNot (LTLfAtomic a).

(** [LTLfUntil.negate]: [LTLfRelease([LTLfNot(f) for f in self.formulas])]. *)
Definition LTLfUntil_negate (formulas : list LTLfFormula) : outcome LTLfFormula :=
  new C_Release (map (fun f => LTLfNot f) formulas).

(** No node of the formula is an [LTLfRelease]. *)
Fixpoint Release_free (self : LTLfFormula) : bool :=
  match self with
  | LTLfAtomic _ | LTLfTrue | LTLfFalse => true
  | UnaryOperator _ f => Release_free f
  | BinaryOperator cls formulas _ =>
      negb (bool_decide (cls = C_Release)) && forallb Release_free formulas
  end.

(** [d] has the truth value [b] in every interpretation. *)
Definition PL_value (d : PLFormula) (b : bool) : Prop :=
  forall j : PLInterpretation, PL_truth d j = Ok b.

(** [Ok(not b)] for an outcome [Ok b]: the negation of a truth value that
    may have raised. *)
Definition outcome_negb (m : outcome bool) : outcome bool :=
  b ← m; Ok (negb b).

(** The formulas in normal form without a [Release]: a property that
    binary nodes pass on to their operands. *)
Definition Until_fragment (x : LTLfFormula) : Prop :=
  is_nnf x = true /\ Release_free x = true.

(** [truth] at the last position of [i] and [_delta] on the letter [I]
    agree on [self]. *)
Definition agree_at_last (i : FiniteTrace) (I : PLInterpretation)
  (self : LTLfFormula) : Prop :=
  exists (b : bool) (d : PLFormula),
    truth self i (FiniteTrace_last i) = Ok b /\
    _delta self I false = Ok d /\
    PL_value d b.

(** The formulas [_delta] is written for: every [LTLfNot] is on an atom,
    every binary node is an [And], [Or], [Until] or [Release] of two
    operands or more; the operand of a [Next] or a [WeakNext] is free. *)
Fixpoint delta_defined (self : LTLfFormula) : bool :=
  match self with
  | LTLfAtomic _ | LTLfTrue | LTLfFalse => true
  | LTLfNot f => isinstance_LTLfAtomic f
  | LTLfNext _ | LTLfWeakNext _ => true
  | LTLfEventually f | LTLfAlways f => delta_defined f
  | BinaryOperator cls formulas _ =>
      match cls with
      | C_And | C_Or | C_Until | C_Release =>
          bool_decide (2 <= length formulas)%nat && forallb delta_defined formulas
      | C_Implies | C_Equivalence => false
      end
  end.

(** The truth of a formula that [_delta] returned, with the LTLf formulas
    it holds read by [next]: [LTLfNext._delta] and [LTLfWeakNext._delta]
    return [self.f], to hold at the next position of the trace, and
    [next] gives the truth of such a formula there.  The other cases are
    those of [PL_truth]. *)
Fixpoint PL_truth_next (next : LTLfFormula -> outcome bool) (self : PLFormula)
  (j : PLInterpretation) : outcome bool :=
  match self with
  | PLAtom a => Ok (PLAtomic_truth a j)
  | PLNot f =>
      match PL_truth_next next f j with
      | Ok b => Ok (negb b)
      | r => r
      end
  | PLAnd formulas => py_all (fun f => PL_truth_next next f j) formulas
  | PLOr formulas => py_any (fun f => PL_truth_next next f j) formulas
  | PLofLTLf f => next f
  end.

(** [d] has the truth value [b] in every interpretation, its LTLf formulas
    read by [next]. *)
Definition PL_value_next (next : LTLfFormula -> outcome bool) (d : PLFormula)
  (b : bool) : Prop :=
  forall j : PLInterpretation, PL_truth_next next d j = Ok b.

(** [_delta] on the letter [I] expands [truth] at [pos]: the formula it
    returns, its LTLf formulas read at [pos + 1], has the truth value of
    [self] at [pos]. *)
Definition expands_at (i : FiniteTrace) (pos : Z) (I : PLInterpretation)
  (self : LTLfFormula) : Prop :=
  exists (b : bool) (d : PLFormula),
    truth self i pos = Ok b /\
    _delta self I false = Ok d /\
    PL_value_next (fun g => truth g i (pos + 1)) d b.

(** * Properties *)

(** ** Induction on formulas *)

Lemma LTLfFormula_nested_ind (P : LTLfFormula -> Prop) :
  (forall a, P (LTLfAtomic a)) ->
  P LTLfTrue ->
  P LTLfFalse ->
  (forall cls f, P f -> P (UnaryOperator cls f)) ->
  (forall cls formulas formulas_set,
      Forall P formulas -> Forall P formulas_set ->
      P (BinaryOperator cls formulas formulas_set)) ->
  forall self, P self.
Proof.
  intros Hatom Htrue Hfalse Hun Hbin.
  fix IH 1. intros [a | | | cls f | cls formulas formulas_set].
  - apply Hatom.
  - apply Htrue.
  - apply Hfalse.
  - apply Hun, IH.
  - apply Hbin.
    + induction formulas as [|x l IHl]; constructor; [apply IH | exact IHl].
    + induction formulas_set as [|x l IHl]; constructor; [apply IH | exact IHl].
Qed.

(** ** Outcomes *)

Lemma bind_Ok {A B} (a : A) (k : A -> outcome B) : (Ok a ≫= k) = k a.
Proof. reflexivity. Qed.

Lemma bind_Raise {A B} (e : exn) (k : A -> outcome B) : (Raise e ≫= k) = Raise e.
Proof. reflexivity. Qed.

Lemma bind_OutOfFuel {A B} (k : A -> outcome B) : (OutOfFuel ≫= k) = OutOfFuel.
Proof. reflexivity. Qed.

Lemma comprehension_ext {A B} (g g' : A -> outcome B) (l : list A) :
  Forall (fun x => g x = g' x) l -> comprehension g l = comprehension g' l.
Proof.
  induction 1 as [|x l Hx _ IH]; simpl; [reflexivity|].
  rewrite Hx, IH. reflexivity.
Qed.

Lemma comprehension_length {A B} (g : A -> outcome B) (l : list A) (ys : list B) :
  comprehension g l = Ok ys -> length ys = length l.
Proof.
  revert ys. induction l as [|x l IH]; simpl; intros ys H.
  - injection H as <-. reflexivity.
  - destruct (g x); try discriminate.
    destruct (comprehension g l); try discriminate.
    injection H as <-. simpl. f_equal. apply IH. reflexivity.
Qed.

(** ** The weight bounds the recursion *)

Definition operands_weight (cls : BinaryClass) (l : list LTLfFormula) : nat :=
  list_sum (map (fun x => operand_weight cls (weight x)) l).

Lemma weight_pos self : (1 <= weight self)%nat.
Proof.
  destruct self as [| | |cls f|cls l s]; simpl; try lia.
  - destruct cls; simpl; lia.
  - destruct cls; simpl; lia.
Qed.

Lemma operand_weight_ge cls w : (w <= operand_weight cls w)%nat.
Proof. destruct cls; unfold operand_weight; simpl; lia. Qed.

Lemma operands_weight_app cls l l' :
  operands_weight cls (l ++ l') = (operands_weight cls l + operands_weight cls l')%nat.
Proof. unfold operands_weight. rewrite map_app, list_sum_app. reflexivity. Qed.

Lemma weight_binary cls l s :
  weight (BinaryOperator cls l s) = ((binary_weight cls).1.1 + operands_weight cls l)%nat.
Proof. reflexivity. Qed.

Lemma operands_weight_elem cls l x :
  x ∈ l -> (operand_weight cls (weight x) <= operands_weight cls l)%nat.
Proof.
  induction 1 as [x l|x y l _ IH]; unfold operands_weight in *; simpl; lia.
Qed.

Lemma weight_operand cls l s x :
  x ∈ l -> (weight x < weight (BinaryOperator cls l s))%nat.
Proof.
  intros Hx. rewrite weight_binary.
  pose proof (operands_weight_elem cls l x Hx).
  pose proof (operand_weight_ge cls (weight x)).
  destruct cls; simpl; lia.
Qed.

(** Popping up the operands of a node never adds weight. *)
Lemma popup_weight self cls l s :
  self = BinaryOperator cls l s ->
  (operands_weight cls (_popup self) <= operands_weight cls l)%nat.
Proof.
  revert cls l s.
  induction self as [a| | |c f _|c formulas fs IH _] using LTLfFormula_nested_ind;
    intros cls l s E; try discriminate.
  injection E as -> -> ->. simpl.
  induction IH as [|x l Hx _ IHl]; simpl; [lia|].
  rewrite operands_weight_app.
  assert (operands_weight cls
            (if bool_decide (type_of x = T_Binary cls) then _popup x else [x])
          <= operand_weight cls (weight x))%nat as Hhd.
  { case_bool_decide as Ht.
    - destruct x as [| | | |c' l' s']; try discriminate.
      injection Ht as ->.
      specialize (Hx cls l' s' eq_refl).
      pose proof (operand_weight_ge cls (weight (BinaryOperator cls l' s'))).
      rewrite weight_binary in *. lia.
    - unfold operands_weight. simpl. lia. }
  unfold operands_weight at 3. simpl. fold (operands_weight cls l). lia.
Qed.

Lemma new_inv cls l self :
  new cls l = Ok self ->
  (2 <= length l)%nat /\
  self = BinaryOperator cls (_popup (BinaryOperator cls l []))
           (if commutative cls then frozenset (_popup (BinaryOperator cls l [])) else []).
Proof.
  unfold new, CommutativeBinaryOperator_init, BinaryOperator_init.
  destruct (commutative cls); case_bool_decide; simpl; intros Hs;
    try discriminate; injection Hs as <-; auto.
Qed.

Lemma new_Ok cls l :
  (2 <= length l)%nat ->
  new cls l = Ok (BinaryOperator cls (_popup (BinaryOperator cls l []))
           (if commutative cls then frozenset (_popup (BinaryOperator cls l [])) else [])).
Proof.
  intros H. unfold new, CommutativeBinaryOperator_init, BinaryOperator_init.
  destruct (commutative cls); rewrite bool_decide_true by done; reflexivity.
Qed.

Lemma new_Raise cls l :
  ~ (2 <= length l)%nat -> new cls l = Raise AssertionError.
Proof.
  intros H. unfold new, CommutativeBinaryOperator_init, BinaryOperator_init.
  destruct (commutative cls); rewrite bool_decide_false by done; reflexivity.
Qed.

Lemma new_weight cls l self :
  new cls l = Ok self ->
  (weight self <= (binary_weight cls).1.1 + operands_weight cls l)%nat.
Proof.
  intros [_ ->]%new_inv. rewrite weight_binary.
  pose proof (popup_weight _ cls l [] eq_refl). lia.
Qed.

Lemma operands_weight_map_Not cls l :
  operands_weight cls (map (fun f => LTLfNot f) l)
  = list_sum (map (fun x => operand_weight cls (1 + weight x)) l).
Proof.
  unfold operands_weight. rewrite map_map. reflexivity.
Qed.

Lemma list_sum_le {A} (g g' : A -> nat) (l : list A) :
  (forall x, g x <= g' x)%nat -> (list_sum (map g l) <= list_sum (map g' l))%nat.
Proof.
  intros H. induction l as [|x l IH]; simpl; [lia|]. specialize (H x). lia.
Qed.

Lemma list_sum_eq {A} (g g' : A -> nat) (l : list A) :
  (forall x, g x = g' x) -> list_sum (map g l) = list_sum (map g' l).
Proof.
  intros H. induction l as [|x l IH]; simpl; [lia|]. rewrite H, IH. reflexivity.
Qed.

Lemma list_sum_map_add {A} (g g' : A -> nat) (l : list A) :
  list_sum (map (fun x => g x + g' x)%nat l)
  = (list_sum (map g l) + list_sum (map g' l))%nat.
Proof. induction l as [|x l IH]; simpl; lia. Qed.

(** [_convert] desugars to a formula of smaller weight. *)
Lemma convert_weight self c :
  _convert self = Ok c -> (weight c < weight self)%nat.
Proof.
  destruct self as [a| | |cls f|cls l s]; try discriminate.
  - destruct cls; try discriminate; cbn [_convert].
    + intros H. injection H as <-. simpl. lia.
    + intros H%new_weight. unfold operands_weight, operand_weight in H.
      cbn in H. cbn. lia.
    + intros H. injection H as <-. simpl. lia.
  - destruct cls; try discriminate; cbn [_convert].
    + (* Implies *)
      unfold Implies_convert, slice_to, slice_from. intros H%new_weight.
      rewrite operands_weight_app, operands_weight_map_Not in H.
      rewrite weight_binary.
      assert (operands_weight C_Implies l
              = operands_weight C_Implies (take (length l - 1) l)
                + operands_weight C_Implies (drop (length l - 1) l))%nat as ->.
      { rewrite <- operands_weight_app, take_drop. reflexivity. }
      assert (list_sum (map (fun x => operand_weight C_Or (1 + weight x))
                          (take (length l - 1) l))
              <= operands_weight C_Implies (take (length l - 1) l))%nat.
      { apply list_sum_le. intros x. unfold operand_weight. simpl. lia. }
      assert (operands_weight C_Or (drop (length l - 1) l)
              <= operands_weight C_Implies (drop (length l - 1) l))%nat.
      { apply list_sum_le. intros x. unfold operand_weight. simpl. lia. }
      cbn [binary_weight fst snd] in *. lia.
    + (* Equivalence *)
      unfold Equivalence_convert.
      destruct (new C_And l) as [pos| |] eqn:Hpos; try discriminate.
      rewrite bind_Ok.
      destruct (new C_And (map _ l)) as [neg| |] eqn:Hneg; try discriminate.
      rewrite bind_Ok. intros H%new_weight.
      apply new_weight in Hpos, Hneg.
      rewrite operands_weight_map_Not in Hneg.
      rewrite weight_binary.
      assert (operands_weight C_And l
              + list_sum (map (fun x => operand_weight C_And (1 + weight x)) l)
              <= operands_weight C_Equivalence l)%nat.
      { unfold operands_weight. rewrite <- list_sum_map_add.
        apply list_sum_le. intros x. unfold operand_weight. simpl. lia. }
      assert (operands_weight C_Or [pos; neg] = weight pos + weight neg)%nat as Hpn.
      { unfold operands_weight, operand_weight. simpl. lia. }
      rewrite Hpn in H. cbn [binary_weight fst snd] in *. lia.
    + (* Release *)
      destruct (new C_Until (map _ l)) as [u| |] eqn:Hu; try discriminate.
      rewrite bind_Ok. intros H. injection H as <-.
      apply new_weight in Hu. rewrite operands_weight_map_Not in Hu.
      rewrite weight_binary.
      assert (list_sum (map (fun x => operand_weight C_Until (1 + weight x)) l)
              <= operands_weight C_Release l)%nat.
      { apply list_sum_le. intros x. unfold operand_weight. simpl. lia. }
      cbn [binary_weight fst snd weight unary_weight] in *. lia.
Qed.

(** The node rebuilt from the tail of the operands is lighter. *)
Lemma tail_weight cls x l s f2 :
  new cls (slice_from 1 (x :: l)) = Ok f2 ->
  (weight f2 < weight (BinaryOperator cls (x :: l) s))%nat.
Proof.
  intros H%new_weight. rewrite weight_binary.
  unfold slice_from in H. simpl in H. rewrite drop_0 in H.
  unfold operands_weight at 1. simpl. fold (operands_weight cls l).
  pose proof (operand_weight_ge cls (weight x)).
  pose proof (weight_pos x). lia.
Qed.

Lemma second_operand_weight cls l s f2 :
  second_operand cls l = Ok f2 ->
  (weight f2 < weight (BinaryOperator cls l s))%nat.
Proof.
  unfold second_operand. case_bool_decide as Hlen.
  - destruct l as [|x l]; [simpl in Hlen; lia|]. apply tail_weight.
  - unfold getitem. destruct (l !! 1%nat) as [y|] eqn:Hy; [|discriminate].
    intros H. injection H as <-.
    apply weight_operand. eapply list_elem_of_lookup_2, Hy.
Qed.

Lemma getitem_weight cls l s n x :
  getitem l n = Ok x -> (weight x < weight (BinaryOperator cls l s))%nat.
Proof.
  unfold getitem. destruct (l !! n) as [y|] eqn:Hy; [|discriminate].
  intros H. injection H as <-.
  apply weight_operand. eapply list_elem_of_lookup_2, Hy.
Qed.

(** [LTLfNext(self)._delta] and [LTLfWeakNext(self)._delta] do not recurse. *)
Lemma delta_fuel_Next n f i epsilon :
  _delta_fuel (S n) (LTLfNext f) i epsilon
  = Ok (if epsilon then PLAtom PLFalse
        else if negb (contains i LAST) then PLofLTLf f else PLAtom PLFalse).
Proof. simpl. destruct epsilon; reflexivity. Qed.

Lemma delta_fuel_WeakNext n f i epsilon :
  _delta_fuel (S n) (LTLfWeakNext f) i epsilon
  = Ok (if epsilon then PLAtom PLTrue
        else if negb (contains i LAST) then PLofLTLf f else PLAtom PLTrue).
Proof. simpl. destruct epsilon; reflexivity. Qed.

(** ** The fuel of [_delta] is enough *)

(** The body of [_delta] calls the method on lighter formulas, and on
    [LTLfNext(self)] and [LTLfWeakNext(self)]. *)
Lemma delta_body_ext rec rec' self i epsilon :
  (forall g, (weight g < weight self)%nat -> rec g i epsilon = rec' g i epsilon) ->
  rec (LTLfNext self) i epsilon = rec' (LTLfNext self) i epsilon ->
  rec (LTLfWeakNext self) i epsilon = rec' (LTLfWeakNext self) i epsilon ->
  _delta_body rec self i epsilon = _delta_body rec' self i epsilon.
Proof.
  intros Hlt Hnext Hweak.
  destruct self as [a| | |cls f|cls l s]; try reflexivity.
  - destruct cls; cbn [_delta_body]; try reflexivity.
    + rewrite (Hlt f); [reflexivity|]. simpl. lia.
    + rewrite (Hlt f), Hnext; [reflexivity|]. simpl. lia.
    + rewrite (Hlt f), Hweak; [reflexivity|]. simpl. lia.
  - assert (comprehension (fun f => rec f i epsilon) l
            = comprehension (fun f => rec' f i epsilon) l) as Hl.
    { apply comprehension_ext, Forall_forall. intros x Hx.
      apply Hlt, weight_operand, Hx. }
    assert (forall c, _convert (BinaryOperator cls l s) = Ok c ->
                      rec c i epsilon = rec' c i epsilon) as Hc.
    { intros c Hc. apply Hlt, convert_weight, Hc. }
    destruct cls; cbn [_delta_body]; try (rewrite Hl; reflexivity).
    + destruct (_convert _) as [c| |]; try reflexivity.
      rewrite !bind_Ok. auto.
    + destruct (_convert _) as [c| |]; try reflexivity.
      rewrite !bind_Ok. auto.
    + destruct (getitem l 0) as [f1| |] eqn:H1; try reflexivity.
      rewrite !bind_Ok.
      destruct (second_operand C_Until l) as [f2| |] eqn:H2; try reflexivity.
      rewrite !bind_Ok.
      rewrite (Hlt f2) by (eapply second_operand_weight, H2).
      rewrite (Hlt f1) by (eapply getitem_weight, H1).
      rewrite Hnext. reflexivity.
    + destruct (getitem l 0) as [f1| |] eqn:H1; try reflexivity.
      rewrite !bind_Ok.
      destruct (second_operand C_Release l) as [f2| |] eqn:H2; try reflexivity.
      rewrite !bind_Ok.
      rewrite (Hlt f2) by (eapply second_operand_weight, H2).
      rewrite (Hlt f1) by (eapply getitem_weight, H1).
      rewrite Hnext. reflexivity.
Qed.

Lemma delta_fuel_stable n :
  forall self i epsilon m,
    (weight self <= n)%nat -> (n <= m)%nat ->
    _delta_fuel m self i epsilon = _delta_fuel n self i epsilon.
Proof.
  induction n as [|n IH]; intros self i epsilon m Hw Hm.
  - pose proof (weight_pos self). lia.
  - destruct m as [|m]; [lia|]. cbn [_delta_fuel].
    destruct (decide (n = 0%nat)) as [->|Hn].
    + (* a formula of weight 1 is an atom *)
      destruct self as [a| | |cls f|cls l s]; try reflexivity.
      * pose proof (weight_pos f). destruct cls; simpl in Hw; lia.
      * destruct l as [|x l].
        -- destruct cls; try reflexivity; cbn [_delta_body _convert];
             unfold Implies_convert, Equivalence_convert;
             rewrite ?new_Raise by (simpl; lia); reflexivity.
        -- pose proof (weight_operand cls (x :: l) s x ltac:(left)).
           pose proof (weight_pos x). lia.
    + apply delta_body_ext.
      * intros g Hg. apply IH; lia.
      * destruct m as [|m]; [lia|]. destruct n as [|n]; [lia|].
        rewrite !delta_fuel_Next. reflexivity.
      * destruct m as [|m]; [lia|]. destruct n as [|n]; [lia|].
        rewrite !delta_fuel_WeakNext. reflexivity.
Qed.

(** [_delta] satisfies the equation of the source. *)
Lemma delta_unfold self i epsilon :
  _delta self i epsilon = _delta_body _delta self i epsilon.
Proof.
  unfold _delta at 1.
  rewrite <- (delta_fuel_stable (weight self) self i epsilon (S (weight self)))
    by lia.
  cbn [_delta_fuel]. apply delta_body_ext.
  - intros g Hg. unfold _delta. apply delta_fuel_stable; lia.
  - unfold _delta. simpl weight.
    pose proof (weight_pos self). destruct (weight self); [lia|].
    rewrite !delta_fuel_Next. reflexivity.
  - unfold _delta. simpl weight.
    pose proof (weight_pos self). destruct (weight self); [lia|].
    rewrite !delta_fuel_WeakNext. reflexivity.
Qed.

Lemma comprehension_fuel {A B} (g : A -> outcome B) (l : list A) :
  Forall (fun x => g x <> OutOfFuel) l -> comprehension g l <> OutOfFuel.
Proof.
  induction 1 as [|x l Hx _ IH]; simpl; [discriminate|].
  destruct (g x); try congruence.
  destruct (comprehension g l); congruence.
Qed.

Lemma bind_fuel {A B} (m : outcome A) (k : A -> outcome B) :
  m <> OutOfFuel -> (forall a, m = Ok a -> k a <> OutOfFuel) ->
  (m ≫= k) <> OutOfFuel.
Proof. destruct m; simpl; intros; auto; discriminate. Qed.

Lemma new_fuel cls l : new cls l <> OutOfFuel.
Proof.
  destruct (decide (2 <= length l)%nat).
  - rewrite new_Ok by done. discriminate.
  - rewrite new_Raise by done. discriminate.
Qed.

Lemma PLBinaryOperator_init_fuel cls l : PLBinaryOperator_init cls l <> OutOfFuel.
Proof. unfold PLBinaryOperator_init. case_bool_decide; discriminate. Qed.

Lemma getitem_fuel {A} (l : list A) n : getitem l n <> OutOfFuel.
Proof. unfold getitem. destruct (l !! n); discriminate. Qed.

Lemma second_operand_fuel cls l : second_operand cls l <> OutOfFuel.
Proof.
  unfold second_operand. case_bool_decide; [apply new_fuel | apply getitem_fuel].
Qed.

Lemma convert_fuel self : _convert self <> OutOfFuel.
Proof.
  destruct self as [a| | |cls f|cls l s]; try discriminate.
  - destruct cls; try discriminate; apply new_fuel.
  - destruct cls; try discriminate; cbn [_convert].
    + apply new_fuel.
    + unfold Equivalence_convert.
      apply bind_fuel; [apply new_fuel|]. intros pos _.
      apply bind_fuel; [apply new_fuel|]. intros neg _. apply new_fuel.
    + apply bind_fuel; [apply new_fuel|]. discriminate.
Qed.

(** The recursion of [_delta] never runs out of the fuel it is given. *)
Lemma delta_total self i epsilon : _delta self i epsilon <> OutOfFuel.
Proof.
  remember (weight self) as n eqn:Hn.
  revert self Hn. induction n as [n IH] using lt_wf_ind. intros self ->.
  rewrite delta_unfold.
  assert (forall g, (weight g < weight self)%nat ->
                    _delta g i epsilon <> OutOfFuel) as Hlt.
  { intros g Hg. eapply IH; [exact Hg | reflexivity]. }
  assert (forall g, _delta (LTLfNext g) i epsilon <> OutOfFuel) as Hnext.
  { intros g. unfold _delta. simpl weight. rewrite delta_fuel_Next. discriminate. }
  assert (forall g, _delta (LTLfWeakNext g) i epsilon <> OutOfFuel) as Hweak.
  { intros g. unfold _delta. simpl weight. rewrite delta_fuel_WeakNext. discriminate. }
  destruct self as [a| | |cls f|cls l s]; try discriminate.
  - destruct cls; cbn [_delta_body].
    + destruct (isinstance_LTLfAtomic f); [|discriminate].
      apply bind_fuel; [apply Hlt; simpl; lia | discriminate].
    + destruct epsilon; discriminate.
    + destruct epsilon; discriminate.
    + apply bind_fuel; [apply Hlt; simpl; lia|]. intros d _.
      apply bind_fuel; [apply Hnext|]. intros dn _.
      apply PLBinaryOperator_init_fuel.
    + apply bind_fuel; [apply Hlt; simpl; lia|]. intros d _.
      apply bind_fuel; [apply Hweak|]. intros dn _.
      apply PLBinaryOperator_init_fuel.
  - assert (comprehension (fun f => _delta f i epsilon) l <> OutOfFuel) as Hl.
    { apply comprehension_fuel, Forall_forall. intros x Hx.
      apply Hlt, weight_operand, Hx. }
    destruct cls; cbn [_delta_body].
    + apply bind_fuel; [exact Hl|]. intros ds _. apply PLBinaryOperator_init_fuel.
    + apply bind_fuel; [exact Hl|]. intros ds _. apply PLBinaryOperator_init_fuel.
    + apply bind_fuel; [apply convert_fuel|]. intros c Hc.
      apply Hlt, convert_weight, Hc.
    + apply bind_fuel; [apply convert_fuel|]. intros c Hc.
      apply Hlt, convert_weight, Hc.
    + apply bind_fuel; [apply getitem_fuel|]. intros f1 H1.
      apply bind_fuel; [apply second_operand_fuel|]. intros f2 H2.
      apply bind_fuel; [eapply Hlt, second_operand_weight, H2|]. intros d2 _.
      apply bind_fuel; [eapply Hlt, getitem_weight, H1|]. intros d1 _.
      apply bind_fuel; [apply Hnext|]. intros dn _.
      apply bind_fuel; [apply PLBinaryOperator_init_fuel|]. intros a _.
      apply PLBinaryOperator_init_fuel.
    + apply bind_fuel; [apply getitem_fuel|]. intros f1 H1.
      apply bind_fuel; [apply second_operand_fuel|]. intros f2 H2.
      apply bind_fuel; [eapply Hlt, second_operand_weight, H2|]. intros d2 _.
      apply bind_fuel; [eapply Hlt, getitem_weight, H1|]. intros d1 _.
      apply bind_fuel; [apply Hnext|]. intros dn _.
      apply bind_fuel; [apply PLBinaryOperator_init_fuel|]. intros a _.
      apply PLBinaryOperator_init_fuel.
Qed.

(** ** The fuel of [truth] is enough *)

Lemma py_all_ext {A} (g g' : A -> outcome bool) (l : list A) :
  (forall x, x ∈ l -> g x = g' x) -> py_all g l = py_all g' l.
Proof.
  induction l as [|x l IH]; intros H; simpl; [reflexivity|].
  rewrite (H x) by left. rewrite IH; [reflexivity|].
  intros y Hy. apply H. by right.
Qed.

Lemma py_any_ext {A} (g g' : A -> outcome bool) (l : list A) :
  (forall x, x ∈ l -> g x = g' x) -> py_any g l = py_any g' l.
Proof.
  induction l as [|x l IH]; intros H; simpl; [reflexivity|].
  rewrite (H x) by left. rewrite IH; [reflexivity|].
  intros y Hy. apply H. by right.
Qed.

Lemma py_all_fuel {A} (g : A -> outcome bool) (l : list A) :
  (forall x, x ∈ l -> g x <> OutOfFuel) -> py_all g l <> OutOfFuel.
Proof.
  induction l as [|x l IH]; intros H; simpl; [discriminate|].
  pose proof (H x ltac:(left)) as Hx.
  destruct (g x) as [[|]| |]; try congruence.
  apply IH. intros y Hy. apply H. by right.
Qed.

Lemma py_any_fuel {A} (g : A -> outcome bool) (l : list A) :
  (forall x, x ∈ l -> g x <> OutOfFuel) -> py_any g l <> OutOfFuel.
Proof.
  induction l as [|x l IH]; intros H; simpl; [discriminate|].
  pose proof (H x ltac:(left)) as Hx.
  destruct (g x) as [[|]| |]; try congruence.
  apply IH. intros y Hy. apply H. by right.
Qed.

(** The body of [truth] calls the method on lighter formulas only. *)
Lemma truth_body_ext rec rec' self i pos :
  (forall g i' pos', (weight g < weight self)%nat ->
                     rec g i' pos' = rec' g i' pos') ->
  truth_body rec self i pos = truth_body rec' self i pos.
Proof.
  intros Hlt.
  assert (forall c, _convert self = Ok c ->
                    rec c i pos = rec' c i pos) as Hc.
  { intros c Hc. apply Hlt, convert_weight, Hc. }
  assert ((c ← _convert self; rec c i pos) = (c ← _convert self; rec' c i pos))
    as Hconv.
  { destruct (_convert self) as [c| |]; try reflexivity. rewrite !bind_Ok. auto. }
  destruct self as [a| | |cls f|cls l s]; try reflexivity.
  - destruct cls; cbn [truth_body]; try exact Hconv.
    + rewrite Hlt; [reflexivity | simpl; lia].
    + rewrite Hlt; [reflexivity | simpl; lia].
  - destruct cls; cbn [truth_body]; try exact Hconv.
    + apply py_all_ext. intros x Hx. apply Hlt, weight_operand, Hx.
    + apply py_any_ext. intros x Hx. apply Hlt, weight_operand, Hx.
    + destruct (getitem l 0) as [f1| |] eqn:H1; try reflexivity.
      rewrite !bind_Ok.
      destruct (second_operand C_Until l) as [f2| |] eqn:H2; try reflexivity.
      rewrite !bind_Ok. apply py_any_ext. intros j _.
      rewrite (Hlt f2) by (eapply second_operand_weight, H2).
      destruct (rec' f2 i j) as [[|]| |]; try reflexivity.
      apply py_all_ext. intros k _. apply Hlt. eapply getitem_weight, H1.
Qed.

Lemma truth_fuel_stable n :
  forall self i pos m,
    (weight self <= n)%nat -> (n <= m)%nat ->
    truth_fuel m self i pos = truth_fuel n self i pos.
Proof.
  induction n as [|n IH]; intros self i pos m Hw Hm.
  - pose proof (weight_pos self). lia.
  - destruct m as [|m]; [lia|]. cbn [truth_fuel].
    apply truth_body_ext. intros g i' pos' Hg. apply IH; lia.
Qed.

(** [truth] satisfies the equation of the source. *)
Lemma truth_unfold self i pos :
  truth self i pos = truth_body truth self i pos.
Proof.
  unfold truth at 1. pose proof (weight_pos self) as Hpos.
  destruct (weight self) as [|n] eqn:Hw; [lia|]. cbn [truth_fuel].
  apply truth_body_ext. intros g i' pos' Hg.
  unfold truth. apply truth_fuel_stable; lia.
Qed.

Lemma FiniteTrace_get_fuel i pos : FiniteTrace_get i pos <> OutOfFuel.
Proof. unfold FiniteTrace_get. case_bool_decide; [apply getitem_fuel | discriminate]. Qed.

(** The recursion of [truth] never runs out of the fuel it is given. *)
Lemma truth_total self : forall i pos, truth self i pos <> OutOfFuel.
Proof.
  remember (weight self) as n eqn:Hn.
  revert self Hn. induction n as [n IH] using lt_wf_ind. intros self -> i pos.
  rewrite truth_unfold.
  assert (forall g i' pos', (weight g < weight self)%nat ->
                            truth g i' pos' <> OutOfFuel) as Hlt.
  { intros g i' pos' Hg. eapply IH; [exact Hg | reflexivity]. }
  assert ((c ← _convert self; truth c i pos) <> OutOfFuel) as Hconv.
  { apply bind_fuel; [apply convert_fuel|]. intros c Hc.
    apply Hlt, convert_weight, Hc. }
  destruct self as [a| | |cls f|cls l s].
  - cbn [truth_body]. apply bind_fuel; [apply FiniteTrace_get_fuel | discriminate].
  - cbn [truth_body]. apply bind_fuel; [apply FiniteTrace_get_fuel | discriminate].
  - cbn [truth_body]. apply bind_fuel; [apply FiniteTrace_get_fuel | discriminate].
  - destruct cls; cbn [truth_body]; try exact Hconv.
    + apply bind_fuel; [apply Hlt; simpl; lia | discriminate].
    + case_bool_decide; [apply Hlt; simpl; lia | discriminate].
  - destruct cls; cbn [truth_body]; try exact Hconv.
    + apply py_all_fuel. intros x Hx. apply Hlt, weight_operand, Hx.
    + apply py_any_fuel. intros x Hx. apply Hlt, weight_operand, Hx.
    + apply bind_fuel; [apply getitem_fuel|]. intros f1 H1.
      apply bind_fuel; [apply second_operand_fuel|]. intros f2 H2.
      apply py_any_fuel. intros j _.
      pose proof (Hlt f2 i j (second_operand_weight _ _ s _ H2)) as Hf2.
      destruct (truth f2 i j) as [[|]| |]; try congruence.
      apply py_all_fuel. intros k _. apply Hlt. eapply getitem_weight, H1.
Qed.

(** ** The claims on [_delta] and [delta] *)

(** C1 (the code at the input where it departs from the claim): with
    [labels] left to its default [None] and [on_the_fly=False],
    [to_automaton] raises [AttributeError]: no automaton over
    [find_labels(self) ∪ {LAST}] is built. *)
Theorem to_automaton_default_labels_raises self determinize minimize :
  to_automaton self None false determinize minimize = Raise AttributeError.
Proof. reflexivity. Qed.

(** C2 (as amended): for every interpretation, [delta] of [LTLfTrue] with
    [epsilon=True] returns [PLFalse]: [LTLfTrue] is an [LTLfAtomic] and
    inherits its [_delta], which is [PLFalse] at the end of the trace;
    with [epsilon=False] it returns [PLTrue]. *)
Theorem delta_LTLfTrue_epsilon i :
  delta LTLfTrue i true = Ok (PLAtom PLFalse)
  /\ delta LTLfTrue i false = Ok (PLAtom PLTrue).
Proof. split; reflexivity. Qed.

(** C3, where the code departs from the claim: for every symbol and
    interpretation, [delta] of [Not(Atomic a)] with [epsilon=True] returns
    [PLTrue], not [PLFalse].  At the end of the trace the atomic operand
    gives [PLFalse]; [LTLfNot._delta] has no case for [epsilon], as
    [LTLfAtomic._delta] and [LTLfNext._delta] have, and returns the
    complement. *)
Theorem delta_Not_Atomic_epsilon (a : Symbol) i :
  _delta (LTLfAtomic (PLAtomic a)) i true = Ok (PLAtom PLFalse)
  /\ _delta (LTLfNot (LTLfAtomic (PLAtomic a))) i true = Ok (PLAtom PLTrue)
  /\ delta (LTLfNot (LTLfAtomic (PLAtomic a))) i true = Ok (PLAtom PLTrue).
Proof. repeat split; reflexivity. Qed.

(** C5: with [epsilon=False], [_delta] of [Next f] is [f] when [LAST] is
    not in the interpretation and [PLFalse] otherwise, and [_delta] of
    [WeakNext f] is [f] when [LAST] is not in the interpretation and
    [PLTrue] otherwise; with [epsilon=True] they are [PLFalse] and
    [PLTrue]. *)
Theorem delta_Next_WeakNext f i :
  _delta (LTLfNext f) i false
  = Ok (if contains i LAST then PLAtom PLFalse else PLofLTLf f)
  /\ _delta (LTLfWeakNext f) i false
     = Ok (if contains i LAST then PLAtom PLTrue else PLofLTLf f)
  /\ _delta (LTLfNext f) i true = Ok (PLAtom PLFalse)
  /\ _delta (LTLfWeakNext f) i true = Ok (PLAtom PLTrue).
Proof.
  rewrite !delta_unfold. cbn [_delta_body].
  destruct (contains i LAST); repeat split; reflexivity.
Qed.

(** C7: [_delta] on an [LTLfNot] node raises exactly when the operand is
    not an instance of [LTLfAtomic]; when it is one, [_delta] returns
    [PLTrue] or [PLFalse]. *)
Theorem delta_Not_raises f i epsilon :
  (raises (_delta (LTLfNot f) i epsilon) <-> isinstance_LTLfAtomic f = false)
  /\ (isinstance_LTLfAtomic f = true ->
      _delta (LTLfNot f) i epsilon = Ok (PLAtom PLTrue)
      \/ _delta (LTLfNot f) i epsilon = Ok (PLAtom PLFalse)).
Proof.
  rewrite delta_unfold. cbn [_delta_body].
  destruct (isinstance_LTLfAtomic f) eqn:Hf.
  - assert (exists d, _delta f i epsilon = Ok (PLAtom d)) as [d Hd].
    { rewrite delta_unfold.
      destruct f; try discriminate; cbn [_delta_body]; unfold LTLfAtomic_delta;
        destruct epsilon; try (destruct (PLAtomic_truth _ i)); eauto. }
    rewrite Hd, bind_Ok. split.
    + split; [|discriminate]. intros [e He]. destruct (eq_PLFalse d); discriminate.
    + intros _. destruct (eq_PLFalse d); auto.
  - split; [|discriminate]. split; [reflexivity|]. intros _. eexists. reflexivity.
Qed.

(** C8: [WeakNext(a)] is true at position 0 of the one-letter trace
    [[{a}]]; the truth of [WeakNext f] is that of [Not(Next(Not f))], and
    [Next f] is true at [pos] only when [pos] is before the last position,
    where it is the truth of [f] at [pos + 1]. *)
Theorem truth_WeakNext_last (a : Symbol) :
  truth (LTLfWeakNext (LTLfAtomic (PLAtomic a))) [PLInterp {[ a ]}] 0 = Ok true
  /\ (forall f i pos,
        truth (LTLfWeakNext f) i pos
        = truth (LTLfNot (LTLfNext (LTLfNot f))) i pos)
  /\ (forall f i pos,
        truth (LTLfNext f) i pos
        = if bool_decide (pos < FiniteTrace_last i)
          then truth f i (pos + 1)
          else Ok false).
Proof.
  split; [reflexivity|]. split; reflexivity.
Qed.

(** ** Normal forms and the collapse at the end of the trace *)

Lemma PLFormula_nested_ind (P : PLFormula -> Prop) :
  (forall a, P (PLAtom a)) ->
  (forall f, P f -> P (PLNot f)) ->
  (forall cls formulas, Forall P formulas -> P (PLBinaryOperator cls formulas)) ->
  (forall f, P (PLofLTLf f)) ->
  forall d, P d.
Proof.
  intros Hatom Hnot Hbin Hltlf.
  fix IH 1. intros [a | f | cls formulas | f].
  - apply Hatom.
  - apply Hnot, IH.
  - apply Hbin.
    induction formulas as [|x l IHl]; constructor; [apply IH | exact IHl].
  - apply Hltlf.
Qed.

(** Popping up keeps a property of the operands that binary nodes pass
    on to theirs, and does not shorten the tuple. *)
Lemma popup_closed (Q : LTLfFormula -> Prop) :
  (forall c l s, Q (BinaryOperator c l s) -> (2 <= length l)%nat /\ Forall Q l) ->
  forall self cls l s,
    self = BinaryOperator cls l s -> Forall Q l ->
    Forall Q (_popup self) /\ (length l <= length (_popup self))%nat.
Proof.
  intros HQ self.
  induction self as [a| | |c f _|c formulas fs IH _] using LTLfFormula_nested_ind;
    intros cls l s E Hl; try discriminate.
  injection E as -> -> ->. simpl.
  induction IH as [|x l Hx _ IHl]; simpl; [split; [constructor | lia]|].
  apply Forall_cons in Hl as [Qx Hl]. destruct (IHl Hl) as [IH1 IH2].
  assert (Forall Q (if bool_decide (type_of x = T_Binary cls) then _popup x else [x])
          /\ (1 <= length (if bool_decide (type_of x = T_Binary cls)
                           then _popup x else [x]))%nat) as [Hx1 Hx2].
  { case_bool_decide as Ht.
    - destruct x as [| | | |c' l' s']; try discriminate.
      destruct (HQ _ _ _ Qx) as [Hlen Hl'].
      destruct (Hx c' l' s' eq_refl Hl') as [H1 H2]. split; [exact H1 | lia].
    - split; [by constructor | simpl; lia]. }
  split.
  - apply Forall_app. split; assumption.
  - rewrite length_app. lia.
Qed.

Lemma forallb_true_Forall {A} (p : A -> bool) (l : list A) :
  forallb p l = true <-> Forall (fun x => p x = true) l.
Proof.
  induction l as [|x l IH]; simpl.
  - split; [constructor | reflexivity].
  - rewrite andb_true_iff, Forall_cons, IH. reflexivity.
Qed.

Lemma is_nnf_binary c l s :
  is_nnf (BinaryOperator c l s) = true ->
  (2 <= length l)%nat /\ Forall (fun x => is_nnf x = true) l.
Proof.
  destruct c; simpl; try discriminate;
    intros [Hlen Hl%forallb_true_Forall]%andb_prop;
    apply bool_decide_eq_true in Hlen; split; assumption.
Qed.

Lemma binary_arity_binary c l s :
  binary_arity (BinaryOperator c l s) = true ->
  (2 <= length l)%nat /\ Forall (fun x => binary_arity x = true) l.
Proof.
  simpl. intros [Hlen Hl%forallb_true_Forall]%andb_prop.
  apply bool_decide_eq_true in Hlen. split; assumption.
Qed.

(** A constructed formula has two operands or more at every binary node. *)
Lemma constructed_binary_arity :
  forall self, constructed self -> binary_arity self = true.
Proof.
  fix IH 2. intros self H. destruct H as [a| | |cls f Hf|cls formulas self Hl Hnew].
  - reflexivity.
  - reflexivity.
  - reflexivity.
  - simpl. apply IH, Hf.
  - assert (Forall (fun x => binary_arity x = true) formulas) as Hl'.
    { clear Hnew. induction Hl as [|x l Hx _ IHl]; [constructor|].
      constructor; [apply IH, Hx | exact IHl]. }
    apply new_inv in Hnew as [Hlen ->].
    destruct (popup_closed (fun x => binary_arity x = true) binary_arity_binary
                _ cls formulas [] eq_refl Hl') as [H1 H2].
    simpl binary_arity. apply andb_true_intro. split.
    + apply bool_decide_eq_true. simpl in H2. lia.
    + apply forallb_true_Forall. exact H1.
Qed.

(** The node built from operands in normal form is in normal form. *)
Lemma new_is_nnf cls l :
  match cls with C_Implies | C_Equivalence => False | _ => True end ->
  (2 <= length l)%nat -> Forall (fun x => is_nnf x = true) l ->
  exists g, new cls l = Ok g /\ is_nnf g = true.
Proof.
  intros Hcls Hlen Hl. rewrite new_Ok by exact Hlen. eexists. split; [reflexivity|].
  destruct (popup_closed (fun x => is_nnf x = true) is_nnf_binary
              _ cls l [] eq_refl Hl) as [H1 H2].
  destruct cls; try contradiction; cbn [is_nnf];
    (apply andb_true_intro; split;
     [apply bool_decide_eq_true; lia | apply forallb_true_Forall; exact H1]).
Qed.

Lemma comprehension_Ok {A B} (g : A -> outcome B) (Q : B -> Prop) (l : list A) :
  Forall (fun x => exists y, g x = Ok y /\ Q y) l ->
  exists ys, comprehension g l = Ok ys /\ Forall Q ys /\ length ys = length l.
Proof.
  induction 1 as [|x l (y & Hy & Qy) _ (ys & Hys & Qys & Hlen)]; simpl.
  - exists []. repeat split. constructor.
  - rewrite Hy, Hys. exists (y :: ys). repeat split; [by constructor | simpl; lia].
Qed.

Lemma comprehension_last_Ok {A B} (pre post : A -> outcome B) (Q : B -> Prop)
  (l : list A) :
  Forall (fun x => (exists y, pre x = Ok y /\ Q y)
                   /\ (exists y, post x = Ok y /\ Q y)) l ->
  exists ys, comprehension_last pre post l = Ok ys
             /\ Forall Q ys /\ length ys = length l.
Proof.
  induction 1 as [|x l [(y & Hy & Qy) (z & Hz & Qz)] Hl (ys & Hys & Qys & Hlen)].
  - exists []. repeat split. constructor.
  - destruct l as [|x' l].
    + simpl. rewrite Hz. exists [z]. repeat split. by constructor.
    + cbn [comprehension_last] in *. rewrite Hy, Hys.
      exists (y :: ys). repeat split; [by constructor | simpl in *; lia].
Qed.

(** [to_nnf] and [to_nnf_Not] return, and return a formula in normal
    form. *)
Lemma to_nnf_is_nnf self :
  binary_arity self = true ->
  (exists f, to_nnf self = Ok f /\ is_nnf f = true)
  /\ (exists f, to_nnf_Not self = Ok f /\ is_nnf f = true).
Proof.
  induction self as [a| | |cls f IHf|cls l s IHl _] using LTLfFormula_nested_ind;
    intros Harity.
  - split; eexists; split; reflexivity.
  - split; eexists; split; reflexivity.
  - split; eexists; split; reflexivity.
  - destruct (IHf Harity) as [(p & Hp & Np) (q & Hq & Nq)].
    destruct cls; cbn [to_nnf to_nnf_Not]; rewrite ?Hp, ?Hq, ?bind_Ok.
    + split; eauto.
    + split; eexists; (split; [reflexivity|]); assumption.
    + split; eexists; (split; [reflexivity|]); assumption.
    + split; apply new_is_nnf; simpl; auto.
    + split; apply new_is_nnf; simpl; auto.
  - apply binary_arity_binary in Harity as [Hlen Hl].
    assert (Forall (fun x =>
              (exists f, to_nnf x = Ok f /\ is_nnf f = true)
              /\ (exists f, to_nnf_Not x = Ok f /\ is_nnf f = true)) l) as H.
    { rewrite Forall_forall in IHl, Hl |- *. intros x Hx. apply IHl; auto. }
    assert (Forall (fun x => exists f, to_nnf x = Ok f /\ is_nnf f = true) l) as Hpos.
    { eapply Forall_impl; [exact H|]. intros x [Hx _]. exact Hx. }
    assert (Forall (fun x => exists f, to_nnf_Not x = Ok f /\ is_nnf f = true) l) as Hneg.
    { eapply Forall_impl; [exact H|]. intros x [_ Hx]. exact Hx. }
    assert (Forall (fun x =>
              (exists f, to_nnf_Not x = Ok f /\ is_nnf f = true)
              /\ (exists f, to_nnf x = Ok f /\ is_nnf f = true)) l) as H'.
    { eapply Forall_impl; [exact H|]. intros x [Hx Hx']. split; assumption. }
    destruct (comprehension_Ok to_nnf _ l Hpos) as (ps & Hps & Nps & Lps).
    destruct (comprehension_Ok to_nnf_Not _ l Hneg) as (ns & Hns & Nns & Lns).
    destruct (comprehension_last_Ok to_nnf_Not to_nnf _ l H') as (qs & Hqs & Nqs & Lqs).
    destruct (comprehension_last_Ok to_nnf to_nnf_Not _ l H) as (js & Hjs & Njs & Ljs).
    destruct cls; cbn [to_nnf to_nnf_Not];
      rewrite ?Hps, ?Hns, ?Hqs, ?Hjs, ?bind_Ok;
      try (split; apply new_is_nnf; simpl; auto; lia).
    (* Equivalence *)
    destruct (new_is_nnf C_And ps I ltac:(lia) Nps) as (pa & Hpa & Npa).
    destruct (new_is_nnf C_And ns I ltac:(lia) Nns) as (na & Hna & Nna).
    destruct (new_is_nnf C_Or ps I ltac:(lia) Nps) as (po & Hpo & Npo).
    destruct (new_is_nnf C_Or ns I ltac:(lia) Nns) as (no & Hno & Nno).
    split.
    + rewrite Hpa, !bind_Ok, Hna, !bind_Ok. apply new_is_nnf; simpl; auto.
    + rewrite Hno, !bind_Ok, Hpo, !bind_Ok. apply new_is_nnf; simpl; auto.
Qed.

(** Popping up keeps the operands constant. *)
Lemma PL_popup_constants d cls l :
  d = PLBinaryOperator cls l ->
  Forall (fun x => constants_only x = true) l ->
  Forall (fun x => constants_only x = true) (PL_popup d).
Proof.
  revert cls l.
  induction d as [a|f _|c formulas IH|f] using PLFormula_nested_ind;
    intros cls l E Hl; try discriminate.
  injection E as -> ->. simpl.
  induction IH as [|x l Hx _ IHl]; simpl; [constructor|].
  apply Forall_cons in Hl as [Cx Hl]. apply Forall_app. split; [|auto].
  destruct (PL_is_class cls x) eqn:Hc.
  - destruct x as [| |c' l'|]; try discriminate.
    apply (Hx c' l' eq_refl). simpl in Cx. apply forallb_true_Forall, Cx.
  - by constructor.
Qed.

Lemma PLBinaryOperator_init_constants cls l :
  (2 <= length l)%nat -> Forall (fun x => constants_only x = true) l ->
  exists d, PLBinaryOperator_init cls l = Ok d /\ constants_only d = true.
Proof.
  intros Hlen Hl. unfold PLBinaryOperator_init.
  rewrite bool_decide_true by exact Hlen. eexists. split; [reflexivity|].
  cbn [constants_only]. apply forallb_true_Forall.
  eapply PL_popup_constants; [reflexivity | exact Hl].
Qed.

(** At the end of the trace, [_delta] of a formula in normal form returns
    a formula over the two constants. *)
Lemma delta_epsilon_constants i n :
  forall f, (weight f <= n)%nat -> is_nnf f = true ->
            exists d, _delta f i true = Ok d /\ constants_only d = true.
Proof.
  induction n as [|n IH]; intros f Hw Hf.
  { pose proof (weight_pos f). lia. }
  assert (forall g, (weight g < weight f)%nat -> is_nnf g = true ->
                    exists d, _delta g i true = Ok d /\ constants_only d = true)
    as Hlt.
  { intros g Hg. apply IH. lia. }
  assert (forall g, _delta (LTLfNext g) i true = Ok (PLAtom PLFalse)) as Hnext.
  { intros g. rewrite delta_unfold. reflexivity. }
  rewrite delta_unfold.
  destruct f as [a| | |cls f|cls l s].
  - eexists. split; reflexivity.
  - eexists. split; reflexivity.
  - eexists. split; reflexivity.
  - destruct cls; try discriminate; cbn [_delta_body].
    + simpl in Hf. rewrite Hf.
      assert (_delta f i true = Ok (PLAtom PLFalse)) as ->.
      { rewrite delta_unfold. destruct f; try discriminate; reflexivity. }
      eexists. split; reflexivity.
    + eexists. split; reflexivity.
    + eexists. split; reflexivity.
  - pose proof (is_nnf_binary _ _ _ Hf) as [Hlen Hl].
    assert (exists ds, comprehension (fun f => _delta f i true) l = Ok ds
                       /\ Forall (fun x => constants_only x = true) ds
                       /\ length ds = length l) as (ds & Hds & Cds & Lds).
    { apply comprehension_Ok. rewrite Forall_forall in Hl |- *. intros x Hx.
      apply Hlt; [apply weight_operand, Hx | apply Hl, Hx]. }
    assert (forall c,
               match c with C_Implies | C_Equivalence => False | _ => True end ->
               exists f1 f2,
                 getitem l 0 = Ok f1 /\ second_operand c l = Ok f2
                 /\ is_nnf f1 = true /\ is_nnf f2 = true) as Hops.
    { intros c Hc. destruct l as [|f1 [|f2 l]]; try (simpl in Hlen; lia).
      exists f1. apply Forall_cons in Hl as [N1 Hl].
      unfold second_operand, getitem, slice_from. case_bool_decide as H2.
      - destruct (new_is_nnf c (f2 :: l) Hc ltac:(simpl in *; lia) Hl)
          as (g & Hg & Ng).
        exists g. simpl. auto.
      - exists f2. apply Forall_cons in Hl as [N2 _]. simpl. auto. }
    destruct cls; try discriminate; cbn [_delta_body].
    + rewrite Hds, bind_Ok. apply PLBinaryOperator_init_constants; [lia | exact Cds].
    + rewrite Hds, bind_Ok. apply PLBinaryOperator_init_constants; [lia | exact Cds].
    + destruct (Hops C_Until I) as (f1 & f2 & H1 & H2 & N1 & N2).
      destruct (Hlt f2 (second_operand_weight _ _ s _ H2) N2) as (d2 & Hd2 & C2).
      destruct (Hlt f1 (getitem_weight C_Until _ s _ _ H1) N1) as (d1 & Hd1 & C1).
      rewrite H1, bind_Ok, H2, bind_Ok, Hd2, bind_Ok, Hd1, bind_Ok, Hnext, bind_Ok.
      destruct (PLBinaryOperator_init_constants C_PLAnd [d1; PLAtom PLFalse])
        as (a & Ha & Ca); [simpl; lia | repeat constructor; assumption |].
      rewrite Ha, bind_Ok.
      apply PLBinaryOperator_init_constants;
        [simpl; lia | repeat constructor; assumption].
    + destruct (Hops C_Release I) as (f1 & f2 & H1 & H2 & N1 & N2).
      destruct (Hlt f2 (second_operand_weight _ _ s _ H2) N2) as (d2 & Hd2 & C2).
      destruct (Hlt f1 (getitem_weight C_Release _ s _ _ H1) N1) as (d1 & Hd1 & C1).
      rewrite H1, bind_Ok, H2, bind_Ok, Hd2, bind_Ok, Hd1, bind_Ok, Hnext, bind_Ok.
      destruct (PLBinaryOperator_init_constants C_PLOr [d1; PLAtom PLFalse])
        as (a & Ha & Ca); [simpl; lia | repeat constructor; assumption |].
      rewrite Ha, bind_Ok.
      apply PLBinaryOperator_init_constants;
        [simpl; lia | repeat constructor; assumption].
Qed.

(** A formula over the two constants has the same truth in every
    interpretation. *)
Lemma PL_truth_constants d :
  constants_only d = true -> exists b, forall j, PL_truth d j = Ok b.
Proof.
  induction d as [a|f _|cls l IH|f] using PLFormula_nested_ind;
    intros Hd; try discriminate.
  - destruct a; try discriminate; [exists true | exists false]; intros j; reflexivity.
  - simpl in Hd. apply forallb_true_Forall in Hd.
    assert (Forall (fun x => exists b, forall j, PL_truth x j = Ok b) l) as H.
    { rewrite Forall_forall in IH, Hd |- *. intros x Hx. apply IH; auto. }
    clear IH Hd. destruct cls; cbn [PL_truth].
    + induction H as [|x l [b Hb] _ [bs Hbs]]; simpl.
      * exists true. reflexivity.
      * destruct b.
        -- exists bs. intros j. rewrite Hb. apply Hbs.
        -- exists false. intros j. rewrite Hb. reflexivity.
    + induction H as [|x l [b Hb] _ [bs Hbs]]; simpl.
      * exists false. reflexivity.
      * destruct b.
        -- exists true. intros j. rewrite Hb. reflexivity.
        -- exists bs. intros j. rewrite Hb. apply Hbs.
Qed.

(** C4: on every constructed formula and interpretation, [delta] with
    [epsilon=True] returns [PLTrue] or [PLFalse]; it is the truth of the
    formula [_delta] returns on the normal form, and that truth is the
    same in every interpretation, [PLFalseInterpretation] among them. *)
Theorem delta_epsilon_collapses self i :
  constructed self ->
  exists b : bool,
    delta self i true = Ok (if b then PLAtom PLTrue else PLAtom PLFalse)
    /\ exists f d,
         to_nnf self = Ok f
         /\ _delta f i true = Ok d
         /\ forall j, PL_truth d j = Ok b.
Proof.
  intros Hself%constructed_binary_arity.
  destruct (to_nnf_is_nnf self Hself) as [(f & Hf & Nf) _].
  destruct (delta_epsilon_constants i (weight f) f ltac:(lia) Nf) as (d & Hd & Cd).
  destruct (PL_truth_constants d Cd) as [b Hb].
  exists b. split.
  - unfold delta. rewrite Hf, bind_Ok, Hd, bind_Ok, Hb. reflexivity.
  - exists f, d. auto.
Qed.

(** ** Equality and hash *)

Lemma tuple_eq_ext (eq eq' : LTLfFormula -> LTLfFormula -> bool) v w :
  Forall (fun x => forall y, eq x y = eq' x y) v ->
  tuple_eq eq v w = tuple_eq eq' v w.
Proof.
  intros H. revert w. induction H as [|x v Hx _ IH]; intros [|y w]; simpl; auto.
  rewrite Hx, IH. reflexivity.
Qed.

Lemma tuple_eq_flip (eq : LTLfFormula -> LTLfFormula -> bool) v w :
  tuple_eq (fun x y => eq y x) v w = tuple_eq eq w v.
Proof.
  revert w. induction v as [|x v IH]; intros [|y w]; simpl; auto.
  rewrite IH. reflexivity.
Qed.

Lemma tuple_eq_Forall2 (eq : LTLfFormula -> LTLfFormula -> bool) v w :
  tuple_eq eq v w = true <-> Forall2 (fun x y => eq x y = true) v w.
Proof.
  revert w. induction v as [|x v IH]; intros [|y w]; simpl.
  - split; [constructor | reflexivity].
  - split; [discriminate | inversion 1].
  - split; [discriminate | inversion 1].
  - rewrite andb_true_iff, IH. split.
    + intros [H1 H2]. by constructor.
    + inversion 1; subst. auto.
Qed.

Lemma set_lookup_ext hash (eq eq' : LTLfFormula -> LTLfFormula -> bool) table key :
  Forall (fun startkey => eq key startkey = eq' key startkey) table ->
  set_lookup hash eq table key = set_lookup hash eq' table key.
Proof.
  unfold set_lookup. induction 1 as [|x l Hx _ IH]; simpl; [reflexivity|].
  rewrite Hx, IH. reflexivity.
Qed.

Lemma forallb_ext_Forall {A} (p q : A -> bool) (l : list A) :
  Forall (fun x => p x = q x) l -> forallb p l = forallb q l.
Proof.
  induction 1 as [|x l Hx _ IH]; simpl; [reflexivity|]. rewrite Hx, IH. reflexivity.
Qed.

(** [Formula_eq_flip] is [Formula_eq] with its operands exchanged. *)
Lemma Formula_eq_flip_spec self :
  forall other,
    Formula_eq_flip self other = Formula_eq other self
    /\ Formula_eq self other = Formula_eq_flip other self.
Proof.
  induction self as [a| | |cls f IHf|cls l s IHl IHs] using LTLfFormula_nested_ind;
    intros other.
  - destruct other; split; reflexivity.
  - destruct other; split; reflexivity.
  - destruct other; split; reflexivity.
  - destruct other as [| | |cls' f'|]; try (split; reflexivity).
    cbn [Formula_eq Formula_eq_flip].
    destruct (IHf f') as [-> ->]. split; reflexivity.
  - destruct other as [| | | |cls' l' s']; try (split; reflexivity).
    cbn [Formula_eq Formula_eq_flip]. split.
    + f_equal. destruct (commutative cls').
      * unfold frozenset_eq. f_equal. apply forallb_ext_Forall, Forall_forall.
        intros key _. unfold set_lookup.
        induction IHs as [|x s Hx _ IH]; simpl; [reflexivity|].
        rewrite IH. destruct (Hx key) as [_ ->]. reflexivity.
      * rewrite <- tuple_eq_flip.
        change (tuple_eq Formula_eq_flip l l'
                = tuple_eq (fun x y => Formula_eq y x) l l').
        apply tuple_eq_ext. eapply Forall_impl; [exact IHl|].
        intros x Hx y. apply Hx.
    + f_equal. destruct (commutative cls).
      * unfold frozenset_eq. f_equal. apply forallb_ext_Forall.
        eapply Forall_impl; [exact IHs|]. intros key Hkey. unfold set_lookup.
        induction s' as [|x s' IH]; simpl; [reflexivity|].
        rewrite IH. destruct (Hkey x) as [-> _]. reflexivity.
      * transitivity (tuple_eq (fun x y => Formula_eq_flip y x) l l').
        -- apply tuple_eq_ext. eapply Forall_impl; [exact IHl|].
           intros x Hx y. apply Hx.
        -- rewrite tuple_eq_flip. reflexivity.
Qed.

(** The equation of [Formula.__eq__] on two binary nodes. *)
Lemma Formula_eq_binary cls l s cls' l' s' :
  Formula_eq (BinaryOperator cls l s) (BinaryOperator cls' l' s')
  = bool_decide (cls' = cls)
    && String.eqb (binary_operator_symbol cls) (binary_operator_symbol cls')
    && (if commutative cls
        then bool_decide (length s = length s') && forallb (set_contains s') s
        else tuple_eq Formula_eq l l').
Proof.
  cbn [Formula_eq]. f_equal. destruct (commutative cls); [|reflexivity].
  unfold frozenset_eq. f_equal. apply forallb_ext_Forall, Forall_forall.
  intros key _. unfold set_contains. apply set_lookup_ext, Forall_forall.
  intros startkey _. apply Formula_eq_flip_spec.
Qed.

Lemma set_contains_true table key :
  set_contains table key = true <->
  exists startkey, startkey ∈ table
                   /\ Formula_hash startkey = Formula_hash key
                   /\ Formula_eq startkey key = true.
Proof.
  unfold set_contains, set_lookup. rewrite existsb_exists. split.
  - intros (x & Hx & [Hh He]%andb_prop). exists x.
    apply bool_decide_eq_true in Hh. rewrite list_elem_of_In. auto.
  - intros (x & Hx & Hh & He). exists x. rewrite <- list_elem_of_In.
    split; [exact Hx|]. rewrite He, bool_decide_true by exact Hh. reflexivity.
Qed.

(** Two commutative nodes are equal when they are of the same class, their
    sets have the same size and every key of the left one is in the right
    one; two other binary nodes when their operands are equal in order. *)
Lemma Formula_eq_binary_true cls l s cls' l' s' :
  Formula_eq (BinaryOperator cls l s) (BinaryOperator cls' l' s') = true <->
  cls' = cls
  /\ (if commutative cls
      then length s = length s'
           /\ forall key, key ∈ s -> set_contains s' key = true
      else Forall2 (fun x y => Formula_eq x y = true) l l').
Proof.
  rewrite Formula_eq_binary, !andb_true_iff, bool_decide_eq_true. split.
  - intros [[-> _] H]. split; [reflexivity|].
    destruct (commutative cls).
    + apply andb_prop in H as [H1%bool_decide_eq_true H2%forallb_true_Forall].
      split; [exact H1|]. rewrite Forall_forall in H2. exact H2.
    + apply tuple_eq_Forall2, H.
  - intros [-> H]. split; [split; [reflexivity | apply String.eqb_refl]|].
    destruct (commutative cls).
    + destruct H as [H1 H2]. apply andb_true_intro. split.
      * apply bool_decide_eq_true, H1.
      * apply forallb_true_Forall, Forall_forall, H2.
    + apply tuple_eq_Forall2, H.
Qed.

Lemma Formula_eq_unary_true cls f cls' f' :
  Formula_eq (UnaryOperator cls f) (UnaryOperator cls' f') = true <->
  cls' = cls /\ Formula_eq f f' = true.
Proof.
  cbn [Formula_eq]. rewrite !andb_true_iff, bool_decide_eq_true. split.
  - intros [[-> _] H]. auto.
  - intros [-> H]. split; [split; [reflexivity | apply String.eqb_refl] | exact H].
Qed.

(** *** Matching the keys of two sets *)

(** A relation that is total from [l] to [l'] and sends no two positions
    of [l] to the same element pairs [l] with a sub-multiset of [l']. *)
Lemma matching {A B} (R : A -> B -> Prop) (l : list A) :
  forall l' : list B,
    (forall a, a ∈ l -> exists b, b ∈ l' /\ R a b) ->
    (forall (i j : nat) a1 a2 b,
        (i < j)%nat -> l !! i = Some a1 -> l !! j = Some a2 ->
        R a1 b -> R a2 b -> False) ->
    exists l'', l'' ⊆+ l' /\ Forall2 R l l''.
Proof.
  induction l as [|a t IH]; intros l' Htot Hinj.
  - exists []. split; [apply submseteq_nil_l | constructor].
  - destruct (Htot a) as (b & Hb & Rab); [left|].
    apply elem_of_Permutation in Hb as [t' Ht'].
    destruct (IH t') as (t'' & Hsub & Hall).
    + intros a2 Ha2. destruct (Htot a2) as (b2 & Hb2 & Rab2); [by right|].
      rewrite Ht' in Hb2. apply elem_of_cons in Hb2 as [->|Hb2]; [|eauto].
      apply list_elem_of_lookup_1 in Ha2 as [j Hj].
      exfalso. apply (Hinj 0%nat (S j) a a2 b); auto. lia.
    + intros i j a1 a2 b' Hij H1 H2. apply (Hinj (S i) (S j)); auto. lia.
    + exists (b :: t''). split; [|by constructor].
      rewrite Ht'. by apply submseteq_skip.
Qed.

(** With tables of the same size the pairing is onto. *)
Lemma matching_perm {A B} (R : A -> B -> Prop) (l : list A) (l' : list B) :
  length l = length l' ->
  (forall a, a ∈ l -> exists b, b ∈ l' /\ R a b) ->
  (forall (i j : nat) a1 a2 b,
      (i < j)%nat -> l !! i = Some a1 -> l !! j = Some a2 ->
      R a1 b -> R a2 b -> False) ->
  exists l'', l'' ≡ₚ l' /\ Forall2 R l l''.
Proof.
  intros Hlen Htot Hinj.
  destruct (matching R l l' Htot Hinj) as (l'' & Hsub & Hall).
  exists l''. split; [|exact Hall].
  apply submseteq_length_Permutation; [exact Hsub|].
  apply Forall2_length in Hall. lia.
Qed.

Lemma matching_length {A B} (R : A -> B -> Prop) (l : list A) (l' : list B) :
  (forall a, a ∈ l -> exists b, b ∈ l' /\ R a b) ->
  (forall (i j : nat) a1 a2 b,
      (i < j)%nat -> l !! i = Some a1 -> l !! j = Some a2 ->
      R a1 b -> R a2 b -> False) ->
  (length l <= length l')%nat.
Proof.
  intros Htot Hinj.
  destruct (matching R l l' Htot Hinj) as (l'' & Hsub & Hall).
  apply Forall2_length in Hall. apply submseteq_length in Hsub. lia.
Qed.

Lemma Forall2_onto {A B} (R : A -> B -> Prop) (l : list A) (l' : list B) b :
  Forall2 R l l' -> b ∈ l' -> exists a, a ∈ l /\ R a b.
Proof.
  induction 1 as [|x y l l' Hxy _ IH]; intros Hb.
  - by apply elem_of_nil in Hb.
  - apply elem_of_cons in Hb as [->|Hb].
    + exists x. split; [left | exact Hxy].
    + destruct (IH Hb) as (a & Ha & Rab). exists a. split; [by right | exact Rab].
Qed.

(** *** The table [frozenset] builds *)

Lemma set_add_elem table key x :
  x ∈ set_add table key -> x ∈ table \/ x = key.
Proof.
  unfold set_add. destruct (set_contains table key); [auto|].
  rewrite elem_of_app, list_elem_of_singleton. auto.
Qed.

Lemma set_add_mono table key x : x ∈ table -> x ∈ set_add table key.
Proof.
  unfold set_add. destruct (set_contains table key); [auto|].
  rewrite elem_of_app. auto.
Qed.

Lemma fold_set_add_elem l : forall table x,
    x ∈ fold_left set_add l table -> x ∈ table \/ x ∈ l.
Proof.
  induction l as [|key l IH]; simpl; intros table x Hx; [auto|].
  apply IH in Hx as [Hx|Hx]; [|right; by right].
  apply set_add_elem in Hx as [Hx| ->]; [auto | right; left].
Qed.

(** The keys of [frozenset(formulas)] are among [formulas]. *)
Lemma frozenset_elem l x : x ∈ frozenset l -> x ∈ l.
Proof.
  intros [Hx|Hx]%fold_set_add_elem; [|exact Hx]. by apply elem_of_nil in Hx.
Qed.

Lemma fold_set_add_mono l : forall table x,
    x ∈ table -> x ∈ fold_left set_add l table.
Proof.
  induction l as [|key l IH]; simpl; intros table x Hx; [exact Hx|].
  apply IH, set_add_mono, Hx.
Qed.

Lemma set_add_distinct table key :
  distinct_keys table -> distinct_keys (set_add table key).
Proof.
  intros Hd. unfold set_add.
  destruct (set_contains table key) eqn:Hc; [exact Hd|].
  intros i j k1 k2 Hij H1 H2 [Hh He].
  apply lookup_lt_Some in H2 as Hj. rewrite length_app in Hj. simpl in Hj.
  destruct (decide (j < length table)%nat) as [Hlt|Hge].
  - rewrite lookup_app_l in H1, H2 by lia. apply (Hd i j k1 k2); auto.
  - assert (j = length table) as -> by lia.
    rewrite lookup_app_l in H1 by lia.
    rewrite list_lookup_middle in H2 by reflexivity. injection H2 as <-.
    assert (set_contains table key = true) as Hc'; [|congruence].
    apply set_contains_true. exists k1. split; [|auto].
    eapply list_elem_of_lookup_2, H1.
Qed.

Lemma fold_set_add_distinct l : forall table,
    distinct_keys table -> distinct_keys (fold_left set_add l table).
Proof.
  induction l as [|key l IH]; simpl; intros table Hd; [exact Hd|].
  apply IH, set_add_distinct, Hd.
Qed.

(** The keys of [frozenset(formulas)] are pairwise different. *)
Lemma frozenset_distinct l : distinct_keys (frozenset l).
Proof.
  apply fold_set_add_distinct. intros i j k1 k2 _ H1. discriminate.
Qed.

(** *** Sets of lawful keys *)

Lemma keys_in_refl v : Forall lawful v -> keys_in v v.
Proof.
  intros Hv key Hkey. apply set_contains_true. exists key.
  rewrite Forall_forall in Hv. split; [exact Hkey|]. split; [reflexivity|].
  apply lawful_refl, Hv, Hkey.
Qed.

(** The pairing of the keys of [v] with the keys of [w] that a successful
    comparison [v == w] finds, when the keys of one side are lawful. *)
Lemma keys_in_matching v w :
  Forall valid v -> Forall valid w ->
  Forall lawful v \/ Forall lawful w ->
  distinct_keys v -> keys_in v w ->
  exists w', w' ⊆+ w
             /\ Forall2 (fun key startkey =>
                           startkey ∈ w
                           /\ Formula_hash startkey = Formula_hash key
                           /\ Formula_eq startkey key = true) v w'.
Proof.
  intros Vv Vw Hlaw Hd Hin. rewrite !Forall_forall in Vv, Vw.
  apply matching.
  - intros key Hkey. apply Hin, set_contains_true in Hkey as (sk & Hsk & Hh & He).
    exists sk. auto.
  - intros i j k1 k2 sk Hij H1 H2 (Hsk & Hh1 & He1) (_ & Hh2 & He2).
    apply (Hd i j k1 k2 Hij H1 H2). split; [congruence|].
    pose proof (list_elem_of_lookup_2 _ _ _ H1) as Hk1.
    pose proof (list_elem_of_lookup_2 _ _ _ H2) as Hk2.
    destruct Hlaw as [Hlaw|Hlaw]; rewrite Forall_forall in Hlaw.
    + apply (lawful_trans_l _ (Hlaw k1 Hk1) sk k2); auto.
      apply (lawful_sym_r _ (Hlaw k1 Hk1) sk); auto.
    + apply (lawful_trans_m _ (Hlaw sk Hsk) k1 k2); auto.
      apply (lawful_sym _ (Hlaw sk Hsk) k1); auto.
Qed.

Lemma keys_in_length v w :
  Forall valid v -> Forall valid w ->
  Forall lawful v \/ Forall lawful w ->
  distinct_keys v -> keys_in v w ->
  (length v <= length w)%nat.
Proof.
  intros Vv Vw Hlaw Hd Hin.
  destruct (keys_in_matching v w Vv Vw Hlaw Hd Hin) as (w' & Hsub & Hall).
  apply Forall2_length in Hall. apply submseteq_length in Hsub. lia.
Qed.

(** Two sets of the same size, one within the other, hold the same keys:
    the other inclusion holds as well. *)
Lemma keys_in_sym v w :
  Forall valid v -> Forall valid w ->
  Forall lawful v \/ Forall lawful w ->
  distinct_keys v -> length v = length w -> keys_in v w ->
  keys_in w v.
Proof.
  intros Vv Vw Hlaw Hd Hlen Hin.
  destruct (keys_in_matching v w Vv Vw Hlaw Hd Hin) as (w' & Hsub & Hall).
  assert (w' ≡ₚ w) as Hperm.
  { apply submseteq_length_Permutation; [exact Hsub|].
    apply Forall2_length in Hall. lia. }
  intros key' Hkey'. rewrite <- Hperm in Hkey'.
  destruct (Forall2_onto _ _ _ _ Hall Hkey') as (k & Hk & Hkw & Hh & He).
  apply set_contains_true. exists k. split; [exact Hk|]. split; [congruence|].
  rewrite !Forall_forall in Vv, Vw.
  destruct Hlaw as [Hlaw|Hlaw]; rewrite Forall_forall in Hlaw.
  - apply (lawful_sym_r _ (Hlaw k Hk)); auto.
  - apply (lawful_sym _ (Hlaw key' Hkw)); auto.
Qed.

(** and the hashes of their keys are the same, up to the order. *)
Lemma keys_in_hash v w :
  Forall valid v -> Forall valid w ->
  Forall lawful v \/ Forall lawful w ->
  distinct_keys v -> length v = length w -> keys_in v w ->
  map Formula_hash v ≡ₚ map Formula_hash w.
Proof.
  intros Vv Vw Hlaw Hd Hlen Hin.
  destruct (keys_in_matching v w Vv Vw Hlaw Hd Hin) as (w' & Hsub & Hall).
  assert (w' ≡ₚ w) as Hperm.
  { apply submseteq_length_Permutation; [exact Hsub|].
    apply Forall2_length in Hall. lia. }
  rewrite <- Hperm.
  assert (map Formula_hash v = map Formula_hash w') as ->; [|reflexivity].
  clear -Hall. induction Hall as [|x y l l' (_ & Hh & _) _ IH]; simpl; [reflexivity|].
  rewrite Hh, IH. reflexivity.
Qed.

Lemma keys_in_trans v w u :
  Forall valid v -> Forall valid w -> Forall valid u ->
  Forall lawful v \/ Forall lawful w \/ Forall lawful u ->
  keys_in v w -> keys_in w u -> keys_in v u.
Proof.
  intros Vv Vw Vu Hlaw Hvw Hwu key Hkey.
  rewrite !Forall_forall in Vv, Vw, Vu.
  pose proof (Hvw key Hkey) as (k' & Hk' & Hh' & He')%set_contains_true.
  pose proof (Hwu k' Hk') as (k'' & Hk'' & Hh'' & He'')%set_contains_true.
  apply set_contains_true. exists k''. split; [exact Hk''|]. split; [congruence|].
  destruct Hlaw as [Hlaw|[Hlaw|Hlaw]]; rewrite Forall_forall in Hlaw.
  - apply (lawful_trans_r _ (Hlaw key Hkey) k'' k'); auto.
  - apply (lawful_trans_m _ (Hlaw k' Hk') k'' key); auto.
  - apply (lawful_trans_l _ (Hlaw k'' Hk'') k' key); auto.
Qed.

(** *** Tuples of lawful items *)

Lemma items_refl l :
  Forall lawful l -> Forall2 (fun x y => Formula_eq x y = true) l l.
Proof.
  induction 1 as [|x l Hx _ IH]; constructor; [apply lawful_refl, Hx | exact IH].
Qed.

Lemma items_sym l l' :
  Forall valid l -> Forall valid l' ->
  Forall lawful l \/ Forall lawful l' ->
  Forall2 (fun x y => Formula_eq x y = true) l l' ->
  Forall2 (fun x y => Formula_eq x y = true) l' l.
Proof.
  intros Vl Vl' Hlaw H. revert Vl Vl' Hlaw.
  induction H as [|x y l l' Hxy _ IH]; intros Vl Vl' Hlaw; [constructor|].
  apply Forall_cons in Vl as [Vx Vl], Vl' as [Vy Vl']. constructor.
  - destruct Hlaw as [[Lx _]%Forall_cons|[Ly _]%Forall_cons].
    + apply (lawful_sym _ Lx); auto.
    + apply (lawful_sym_r _ Ly); auto.
  - apply IH; auto.
    destruct Hlaw as [[_ Hl]%Forall_cons|[_ Hl]%Forall_cons]; auto.
Qed.

Lemma items_trans l l' l'' :
  Forall valid l -> Forall valid l' -> Forall valid l'' ->
  Forall lawful l \/ Forall lawful l' \/ Forall lawful l'' ->
  Forall2 (fun x y => Formula_eq x y = true) l l' ->
  Forall2 (fun x y => Formula_eq x y = true) l' l'' ->
  Forall2 (fun x y => Formula_eq x y = true) l l''.
Proof.
  intros Vl Vl' Vl'' Hlaw H. revert l'' Vl Vl' Vl'' Hlaw.
  induction H as [|x y l l' Hxy _ IH]; intros l'' Vl Vl' Vl'' Hlaw H';
    inversion H' as [|y' z l0 l0'' Hyz H'' E1 E2]; subst; [constructor|].
  apply Forall_cons in Vl as [Vx Vl], Vl' as [Vy Vl'], Vl'' as [Vz Vl''].
  constructor.
  - destruct Hlaw as [[L _]%Forall_cons|[[L _]%Forall_cons|[L _]%Forall_cons]].
    + apply (lawful_trans_l _ L y z); auto.
    + apply (lawful_trans_m _ L x z); auto.
    + apply (lawful_trans_r _ L x y); auto.
  - apply (IH l0''); auto.
    destruct Hlaw as [[_ L]%Forall_cons|[[_ L]%Forall_cons|[_ L]%Forall_cons]]; auto.
Qed.

Lemma items_hash l l' :
  Forall (fun x => forall y, valid y -> Formula_eq x y = true ->
                             Formula_hash x = Formula_hash y) l ->
  Forall valid l' ->
  Forall2 (fun x y => Formula_eq x y = true) l l' ->
  map Formula_hash l = map Formula_hash l'.
Proof.
  intros Hl Vl' H. revert Hl Vl'.
  induction H as [|x y l l' Hxy _ IH]; intros Hl Vl'; [reflexivity|].
  apply Forall_cons in Hl as [Lx Hl], Vl' as [Vy Vl']. simpl.
  rewrite (Lx y Vy Hxy), IH by assumption. reflexivity.
Qed.

(** *** Valid formulas are lawful keys *)

Lemma valid_unary_inv cls f : valid (UnaryOperator cls f) -> valid f.
Proof. inversion 1; assumption. Qed.

Lemma valid_binary_inv cls l s :
  valid (BinaryOperator cls l s) ->
  Forall valid l /\ Forall valid s /\ (commutative cls = true -> distinct_keys s).
Proof. inversion 1; auto. Qed.

Lemma Forall_modus {A} (P Q : A -> Prop) (l : list A) :
  Forall (fun x => P x -> Q x) l -> Forall P l -> Forall Q l.
Proof.
  induction 1 as [|x l Hx _ IH]; intros H; [constructor|].
  apply Forall_cons in H as [Px H]. constructor; auto.
Qed.

Lemma atomic_eq a b :
  isinstance_LTLfAtomic a = true -> Formula_eq a b = true -> b = a.
Proof.
  destruct a, b; simpl; try discriminate; try reflexivity.
  intros _ H%bool_decide_eq_true. congruence.
Qed.

Lemma atomic_eq_r a b :
  isinstance_LTLfAtomic a = true -> Formula_eq b a = true -> b = a.
Proof.
  destruct a, b; simpl; try discriminate; try reflexivity.
  intros _ H%bool_decide_eq_true. congruence.
Qed.

Lemma atomic_lawful a : isinstance_LTLfAtomic a = true -> lawful a.
Proof.
  intros Ha.
  assert (Formula_eq a a = true) as Hrefl.
  { destruct a; try discriminate; simpl; try reflexivity.
    apply bool_decide_eq_true. reflexivity. }
  constructor.
  - exact Hrefl.
  - intros b _ ->%atomic_eq; assumption.
  - intros b _ ->%atomic_eq_r; assumption.
  - intros b c _ _ ->%atomic_eq; auto.
  - intros b c _ _ ->%atomic_eq_r; auto.
  - intros b c _ _ H ->%atomic_eq_r; assumption.
Qed.

Lemma valid_lawful a : valid a -> lawful a.
Proof.
  induction a as [x| | |cls f IHf|cls l s IHl IHs] using LTLfFormula_nested_ind;
    intros Va.
  - by apply atomic_lawful.
  - by apply atomic_lawful.
  - by apply atomic_lawful.
  - apply valid_unary_inv in Va as Vf. pose proof (IHf Vf) as Lf.
    constructor.
    + apply Formula_eq_unary_true. split; [reflexivity | apply lawful_refl, Lf].
    + intros [| | |c' f'|] Vb; try discriminate.
      apply valid_unary_inv in Vb.
      rewrite !Formula_eq_unary_true. intros [-> H]. split; [reflexivity|].
      apply (lawful_sym _ Lf); auto.
    + intros [| | |c' f'|] Vb; try discriminate.
      apply valid_unary_inv in Vb.
      rewrite !Formula_eq_unary_true. intros [-> H]. split; [reflexivity|].
      apply (lawful_sym_r _ Lf); auto.
    + intros [| | |c' f'|] c0 Vb Vc; try discriminate.
      destruct c0 as [| | |c'' f''|]; try discriminate.
      apply valid_unary_inv in Vb, Vc.
      rewrite !Formula_eq_unary_true. intros [-> H] [-> H'].
      split; [reflexivity|]. apply (lawful_trans_l _ Lf f' f''); auto.
    + intros [| | |c' f'|] c0 Vb Vc; try discriminate.
      destruct c0 as [| | |c'' f''|]; try discriminate.
      apply valid_unary_inv in Vb, Vc.
      rewrite !Formula_eq_unary_true. intros [-> H] [-> H'].
      split; [reflexivity|]. apply (lawful_trans_m _ Lf f' f''); auto.
    + intros [| | |c' f'|] c0 Vb Vc; try discriminate;
        destruct c0 as [| | |c'' f''|]; try discriminate.
      apply valid_unary_inv in Vb, Vc.
      rewrite !Formula_eq_unary_true. intros [-> H] [-> H'].
      split; [reflexivity|]. apply (lawful_trans_r _ Lf f' f''); auto.
  - apply valid_binary_inv in Va as (Vl & Vs & Hd).
    pose proof (Forall_modus _ _ _ IHl Vl) as Ll.
    pose proof (Forall_modus _ _ _ IHs Vs) as Ls.
    clear IHl IHs. constructor.
    + apply Formula_eq_binary_true. split; [reflexivity|].
      destruct (commutative cls).
      * split; [reflexivity | apply keys_in_refl, Ls].
      * apply items_refl, Ll.
    + intros [| | | |c' l' s'] Vb; try discriminate.
      apply valid_binary_inv in Vb as (Vl' & Vs' & Hd').
      rewrite !Formula_eq_binary_true. intros [-> H]. split; [reflexivity|].
      destruct (commutative cls).
      * destruct H as [Hlen Hin]. split; [congruence|].
        apply keys_in_sym; auto.
      * apply items_sym; auto.
    + intros [| | | |c' l' s'] Vb; try discriminate.
      apply valid_binary_inv in Vb as (Vl' & Vs' & Hd').
      rewrite !Formula_eq_binary_true. intros [-> H]. split; [reflexivity|].
      destruct (commutative c').
      * destruct H as [Hlen Hin]. split; [congruence|].
        apply keys_in_sym; auto.
      * apply items_sym; auto.
    + intros [| | | |c' l' s'] c0 Vb Vc; try discriminate.
      destruct c0 as [| | | |c'' l'' s'']; try discriminate.
      apply valid_binary_inv in Vb as (Vl' & Vs' & Hd').
      apply valid_binary_inv in Vc as (Vl'' & Vs'' & Hd'').
      rewrite !Formula_eq_binary_true. intros [-> H] [-> H'].
      split; [reflexivity|]. destruct (commutative cls).
      * destruct H as [Hlen Hin], H' as [Hlen' Hin']. split; [congruence|].
        apply (keys_in_trans s s' s''); auto.
      * apply (items_trans l l' l''); auto.
    + intros [| | | |c' l' s'] c0 Vb Vc; try discriminate.
      destruct c0 as [| | | |c'' l'' s'']; try discriminate.
      apply valid_binary_inv in Vb as (Vl' & Vs' & Hd').
      apply valid_binary_inv in Vc as (Vl'' & Vs'' & Hd'').
      rewrite !Formula_eq_binary_true. intros [-> H] [-> H'].
      split; [reflexivity|]. destruct (commutative c').
      * destruct H as [Hlen Hin], H' as [Hlen' Hin']. split; [congruence|].
        apply (keys_in_trans s' s s''); auto.
      * apply (items_trans l' l l''); auto.
    + intros [| | | |c' l' s'] c0 Vb Vc; try discriminate;
        destruct c0 as [| | | |c'' l'' s'']; try discriminate.
      apply valid_binary_inv in Vb as (Vl' & Vs' & Hd').
      apply valid_binary_inv in Vc as (Vl'' & Vs'' & Hd'').
      rewrite !Formula_eq_binary_true. intros [-> H] [-> H'].
      split; [reflexivity|]. destruct (commutative c').
      * destruct H as [Hlen Hin], H' as [Hlen' Hin']. split; [congruence|].
        apply (keys_in_trans s' s'' s); auto.
      * apply (items_trans l' l'' l); auto.
Qed.

(** *** Equal formulas have the same hash *)

Lemma valid_eq_hash a :
  valid a ->
  forall b, valid b -> Formula_eq a b = true -> Formula_hash a = Formula_hash b.
Proof.
  induction a as [x| | |cls f IHf|cls l s IHl _] using LTLfFormula_nested_ind;
    intros Va b Vb Hab.
  - by rewrite (atomic_eq (LTLfAtomic x) b eq_refl Hab).
  - by rewrite (atomic_eq LTLfTrue b eq_refl Hab).
  - by rewrite (atomic_eq LTLfFalse b eq_refl Hab).
  - destruct b as [| | |c' f'|]; try discriminate.
    apply Formula_eq_unary_true in Hab as [-> Hab].
    apply valid_unary_inv in Va, Vb. cbn [Formula_hash].
    rewrite (IHf Va f' Vb Hab). reflexivity.
  - destruct b as [| | | |c' l' s']; try discriminate.
    apply Formula_eq_binary_true in Hab as [-> Hab].
    apply valid_binary_inv in Va as (Vl & Vs & Hd).
    apply valid_binary_inv in Vb as (Vl' & Vs' & Hd').
    cbn [Formula_hash]. destruct (commutative cls).
    + destruct Hab as [Hlen Hin].
      rewrite (hash_frozenset_perm (map Formula_hash s) (map Formula_hash s'));
        [reflexivity|].
      apply keys_in_hash; auto.
      left. eapply Forall_impl; [exact Vs|]. apply valid_lawful.
    + rewrite (items_hash l l'); auto.
      apply (Forall_modus _ _ _ IHl Vl).
Qed.

(** *** The constructors build valid formulas *)

Lemma constructed_valid :
  forall self, constructed self -> valid self.
Proof.
  fix IH 2. intros self H. destruct H as [a| | |cls f Hf|cls formulas self Hl Hnew].
  - constructor.
  - constructor.
  - constructor.
  - constructor. apply IH, Hf.
  - assert (Forall (fun x => valid x /\ binary_arity x = true) formulas) as Hl'.
    { clear Hnew. induction Hl as [|x l Hx _ IHl]; [constructor|].
      constructor; [|exact IHl].
      split; [apply IH, Hx | apply constructed_binary_arity, Hx]. }
    apply new_inv in Hnew as [Hlen ->].
    destruct (popup_closed (fun x => valid x /\ binary_arity x = true)) with
      (self := BinaryOperator cls formulas []) (cls := cls) (l := formulas)
      (s := @nil LTLfFormula) as [H1 _]; [|reflexivity|exact Hl'|].
    { intros c l s [Vx Ax]. apply valid_binary_inv in Vx as (Vl & _ & _).
      apply binary_arity_binary in Ax as [Hlen' Al]. split; [exact Hlen'|].
      rewrite Forall_forall in Vl, Al |- *. auto. }
    assert (Forall valid (_popup (BinaryOperator cls formulas []))) as Vp.
    { eapply Forall_impl; [exact H1|]. intros x [Vx _]. exact Vx. }
    constructor; [exact Vp | |].
    + destruct (commutative cls); [|constructor].
      rewrite Forall_forall in Vp |- *. intros x Hx%frozenset_elem. auto.
    + intros ->. apply frozenset_distinct.
Qed.

(** C10: on constructed formulas, [phi == psi] gives
    [hash(phi) == hash(psi)]: equality and hash read the same members, the
    set of operands on the commutative classes, and every constructor
    keeps the keys of that set pairwise different. *)
Theorem Formula_eq_hash phi psi :
  constructed phi -> constructed psi ->
  Formula_eq phi psi = true -> Formula_hash phi = Formula_hash psi.
Proof.
  intros Hphi%constructed_valid Hpsi%constructed_valid.
  apply valid_eq_hash; assumption.
Qed.

(** *** Flattening *)

Lemma popup_app cls l l' s :
  _popup (BinaryOperator cls (l ++ l') s)
  = _popup (BinaryOperator cls l s) ++ _popup (BinaryOperator cls l' s).
Proof. simpl. apply flat_map_app. Qed.

(** No operand of a popped-up tuple is of the class of the node. *)
Lemma popup_flat self cls l s :
  self = BinaryOperator cls l s ->
  Forall (fun x => type_of x <> T_Binary cls) (_popup self).
Proof.
  revert cls l s.
  induction self as [a| | |c f _|c formulas fs IH _] using LTLfFormula_nested_ind;
    intros cls l s E; try discriminate.
  injection E as -> -> ->. simpl.
  induction IH as [|x l Hx _ IHl]; simpl; [constructor|].
  apply Forall_app. split; [|exact IHl].
  case_bool_decide as Ht; [|by constructor].
  destruct x as [| | | |c' l' s']; try discriminate.
  injection Ht as ->. apply (Hx cls l' s' eq_refl).
Qed.

(** A tuple with no operand of the class of the node is left as it is. *)
Lemma popup_fixed cls l s :
  Forall (fun x => type_of x <> T_Binary cls) l ->
  _popup (BinaryOperator cls l s) = l.
Proof.
  simpl. induction 1 as [|x l Hx _ IH]; simpl; [reflexivity|].
  rewrite bool_decide_false by exact Hx. rewrite IH. reflexivity.
Qed.

(** [cls([cls([a, b]), c])] has the operands of [cls([a, b, c])]. *)
Lemma popup_nested cls a b c s s' s'' :
  _popup (BinaryOperator cls
            [BinaryOperator cls (_popup (BinaryOperator cls [a; b] s)) s'; c] s'')
  = _popup (BinaryOperator cls [a; b; c] s'').
Proof.
  change [BinaryOperator cls (_popup (BinaryOperator cls [a; b] s)) s'; c]
    with ([BinaryOperator cls (_popup (BinaryOperator cls [a; b] s)) s'] ++ [c]).
  change [a; b; c] with ([a; b] ++ [c]).
  rewrite !popup_app. f_equal.
  cbn [_popup flat_map type_of]. rewrite bool_decide_true by reflexivity.
  rewrite app_nil_r.
  change (_popup (BinaryOperator cls (_popup (BinaryOperator cls [a; b] s)) s')
          = _popup (BinaryOperator cls [a; b] s)).
  apply popup_fixed. eapply popup_flat. reflexivity.
Qed.

(** *** The set of a commutative node *)

Lemma set_contains_app table table' x :
  set_contains (table ++ table') x
  = set_contains table x || set_contains table' x.
Proof. unfold set_contains, set_lookup. apply existsb_app. Qed.

Lemma set_add_contains_mono table key x :
  set_contains table x = true -> set_contains (set_add table key) x = true.
Proof.
  intros H. unfold set_add. destruct (set_contains table key); [exact H|].
  rewrite set_contains_app, H. reflexivity.
Qed.

Lemma set_add_contains table key :
  lawful key -> set_contains (set_add table key) key = true.
Proof.
  intros L. unfold set_add. destruct (set_contains table key) eqn:Hc; [exact Hc|].
  apply set_contains_true. exists key. rewrite elem_of_app, list_elem_of_singleton.
  split; [by right|]. split; [reflexivity | apply lawful_refl, L].
Qed.

Lemma fold_set_add_contains l : forall table x,
    Forall lawful l ->
    set_contains table x = true \/ x ∈ l ->
    set_contains (fold_left set_add l table) x = true.
Proof.
  induction l as [|key l IH]; simpl; intros table x Hl H.
  - destruct H as [H|H]; [exact H | by apply elem_of_nil in H].
  - apply Forall_cons in Hl as [Lkey Hl]. apply IH; [exact Hl|].
    destruct H as [H|[->|H]%elem_of_cons].
    + left. apply set_add_contains_mono, H.
    + left. apply set_add_contains, Lkey.
    + by right.
Qed.

(** Every operand is in the set of its node. *)
Lemma frozenset_contains l x :
  Forall lawful l -> x ∈ l -> set_contains (frozenset l) x = true.
Proof. intros Hl Hx. apply fold_set_add_contains; auto. Qed.

Lemma frozenset_valid l : Forall valid l -> Forall valid (frozenset l).
Proof.
  rewrite !Forall_forall. intros Hl x Hx%frozenset_elem. auto.
Qed.

Lemma valid_lawful_Forall l : Forall valid l -> Forall lawful l.
Proof. intros H. eapply Forall_impl; [exact H|]. apply valid_lawful. Qed.

(** Tuples with the same operands, in any order and number, give equal
    sets. *)
Lemma frozenset_same_elements l l' :
  Forall valid l -> Forall valid l' ->
  (forall x, x ∈ l <-> x ∈ l') ->
  length (frozenset l) = length (frozenset l')
  /\ keys_in (frozenset l) (frozenset l').
Proof.
  intros Vl Vl' Hsame.
  assert (forall k k', Forall valid k -> Forall valid k' ->
                       (forall x, x ∈ k -> x ∈ k') ->
                       keys_in (frozenset k) (frozenset k')) as Hin.
  { intros k k' Vk Vk' Hsub key Hkey%frozenset_elem.
    apply frozenset_contains; [apply valid_lawful_Forall, Vk' | auto]. }
  assert (forall k k', Forall valid k -> Forall valid k' ->
                       (forall x, x ∈ k -> x ∈ k') ->
                       (length (frozenset k) <= length (frozenset k'))%nat) as Hle.
  { intros k k' Vk Vk' Hsub. apply keys_in_length.
    - apply frozenset_valid, Vk.
    - apply frozenset_valid, Vk'.
    - left. apply valid_lawful_Forall, frozenset_valid, Vk.
    - apply frozenset_distinct.
    - apply Hin; auto. }
  split.
  - apply Nat.le_antisymm; apply Hle; auto; intros x; apply Hsame.
  - apply Hin; auto. intros x; apply Hsame.
Qed.

Lemma valid_formulas cls l s : valid (BinaryOperator cls l s) -> Forall valid l.
Proof. intros (H & _ & _)%valid_binary_inv. exact H. Qed.

(** C9: the constructor of a binary class flattens the operands of its
    own class, so that [cls([cls([a, b]), c])] has the operands of
    [cls([a, b, c])], is equal to it, and has the operands [(a, b, c)] when
    none of them is of the class; on a commutative class
    [cls([a, b]) == cls([b, a])] and [cls([a, a, b]) == cls([a, b])]. *)
Theorem binary_operator_flattens_and_commutes cls a b c :
  constructed a -> constructed b -> constructed c ->
  exists ab abc flat,
    new cls [a; b] = Ok ab
    /\ new cls [ab; c] = Ok abc
    /\ new cls [a; b; c] = Ok flat
    /\ formulas_of abc = formulas_of flat
    /\ Formula_eq abc flat = true
    /\ (type_of a <> T_Binary cls -> type_of b <> T_Binary cls ->
        type_of c <> T_Binary cls -> formulas_of abc = [a; b; c])
    /\ (commutative cls = true ->
        exists ba aab,
          new cls [b; a] = Ok ba
          /\ Formula_eq ab ba = true
          /\ new cls [a; a; b] = Ok aab
          /\ Formula_eq aab ab = true).
Proof.
  intros Ca Cb Cc.
  assert (forall l, Forall constructed l -> (2 <= length l)%nat ->
                    exists x, new cls l = Ok x /\ constructed x
                              /\ formulas_of x = _popup (BinaryOperator cls l []))
    as Hnew.
  { intros l Hl Hlen. eexists. split; [apply new_Ok, Hlen|]. split; [|reflexivity].
    eapply constructed_binary; [exact Hl | apply new_Ok, Hlen]. }
  destruct (Hnew [a; b]) as (ab & Hab & Cab & Fab);
    [repeat constructor; assumption | simpl; lia |].
  destruct (Hnew [a; b; c]) as (flat & Hflat & Cflat & Fflat);
    [repeat constructor; assumption | simpl; lia |].
  destruct (Hnew [ab; c]) as (abc & Habc & Cabc & Fabc);
    [repeat constructor; assumption | simpl; lia |].
  exists ab, abc, flat. split; [exact Hab|]. split; [exact Habc|].
  split; [exact Hflat|].
  assert (abc = flat) as Heq.
  { pose proof (new_inv _ _ _ Habc) as [_ Eabc].
    pose proof (new_inv _ _ _ Hflat) as [_ Eflat].
    pose proof (new_inv _ _ _ Hab) as [_ Eab].
    rewrite Eabc, Eflat, Eab, popup_nested. reflexivity. }
  split; [by rewrite Heq|]. split.
  { rewrite Heq. apply lawful_refl, valid_lawful, constructed_valid, Cflat. }
  split.
  { intros Ta Tb Tc. rewrite Heq, Fflat. apply popup_fixed.
    repeat constructor; assumption. }
  intros Hcomm.
  destruct (Hnew [b; a]) as (ba & Hba & Cba & Fba);
    [repeat constructor; assumption | simpl; lia |].
  destruct (Hnew [a; a; b]) as (aab & Haab & Caab & Faab);
    [repeat constructor; assumption | simpl; lia |].
  exists ba, aab. split; [exact Hba|].
  assert (forall l l' x y,
             new cls l = Ok x -> constructed x ->
             new cls l' = Ok y -> constructed y ->
             (forall z, z ∈ _popup (BinaryOperator cls l [])
                        <-> z ∈ _popup (BinaryOperator cls l' [])) ->
             Formula_eq x y = true) as Hsame.
  { intros l l' x y Hx Cx Hy Cy Hel.
    apply new_inv in Hx as [_ ->], Hy as [_ ->]. rewrite Hcomm in Cx, Cy |- *.
    apply constructed_valid, valid_formulas in Cx, Cy.
    apply Formula_eq_binary_true. split; [reflexivity|]. rewrite Hcomm.
    apply frozenset_same_elements; assumption. }
  split; [|split; [exact Haab|]].
  - apply (Hsame [a; b] [b; a]); auto.
    intros z. change [a; b] with ([a] ++ [b]). change [b; a] with ([b] ++ [a]).
    rewrite !popup_app, !elem_of_app. split; intros [H|H]; auto.
  - apply (Hsame [a; a; b] [a; b]); auto.
    intros z. change [a; a; b] with ([a] ++ [a] ++ [b]).
    change [a; b] with ([a] ++ [b]).
    rewrite !popup_app, !elem_of_app.
    split; [intros [H|[H|H]] | intros [H|H]]; auto.
Qed.

(** * Further properties of the code *)

(** ** The nodes the constructors build *)

(** A constructed node of a binary class popped up again is unchanged. *)
Lemma constructed_popup cls l s :
  constructed (BinaryOperator cls l s) ->
  (2 <= length l)%nat
  /\ Forall (fun x => type_of x <> T_Binary cls) l
  /\ s = (if commutative cls then frozenset l else []).
Proof.
  intros H.
  pose proof (constructed_binary_arity _ H) as [Hlen _]%binary_arity_binary.
  split; [exact Hlen|].
  remember (BinaryOperator cls l s) as self eqn:E.
  destruct H as [a| | |c f Hf|c l0 self Hl0 Hnew]; try discriminate.
  apply new_inv in Hnew as [_ Hself]. rewrite Hself in E.
  assert (l = _popup (BinaryOperator c l0 [])
          /\ cls = c
          /\ s = (if commutative c
                  then frozenset (_popup (BinaryOperator c l0 []))
                  else [])) as (-> & -> & ->).
  { repeat split; congruence. }
  split; [eapply popup_flat; reflexivity | reflexivity].
Qed.

Lemma constructed_formulas_of :
  forall self, constructed self -> Forall constructed (formulas_of self).
Proof.
  fix IH 2. intros self H. destruct H as [a| | |cls f Hf|cls l0 self Hl0 Hnew].
  - constructor.
  - constructor.
  - constructor.
  - constructor.
  - apply new_inv in Hnew as [_ ->]. cbn [formulas_of _popup].
    clear -IH Hl0. induction Hl0 as [|x l Hx _ IHl]; [constructor|].
    cbn [flat_map]. apply Forall_app. split; [|exact IHl].
    case_bool_decide as Ht; [|by constructor].
    destruct x as [| | | |c' l' s']; try discriminate. injection Ht as ->.
    pose proof (constructed_popup _ _ _ Hx) as (_ & Hflat & _).
    rewrite (popup_fixed _ _ _ Hflat). exact (IH _ Hx).
Qed.

(** X1: a constructed node of a binary class has two operands or more,
    each of them constructed and none of the class of the node, and on a
    commutative class its set is the [frozenset] of its operands. *)
Theorem constructed_operands cls formulas formulas_set :
  constructed (BinaryOperator cls formulas formulas_set) ->
  (2 <= length formulas)%nat
  /\ Forall (fun x => constructed x /\ type_of x <> T_Binary cls) formulas
  /\ formulas_set = (if commutative cls then frozenset formulas else []).
Proof.
  intros H. pose proof (constructed_popup _ _ _ H) as (Hlen & Hflat & Hset).
  pose proof (constructed_formulas_of _ H) as Hc. cbn [formulas_of] in Hc.
  split; [exact Hlen|]. split; [|exact Hset].
  rewrite Forall_forall in Hflat, Hc |- *. auto.
Qed.

(** X2: building a node from the operands of a constructed node of the
    same class, or from the operands after the first [n] when two or more
    remain, leaves these operands as they are: nothing is left to pop
    up. *)
Theorem new_from_operands cls formulas formulas_set (n : nat) :
  constructed (BinaryOperator cls formulas formulas_set) ->
  (2 <= length (slice_from n formulas))%nat ->
  new cls (slice_from n formulas)
  = Ok (BinaryOperator cls (slice_from n formulas)
          (if commutative cls then frozenset (slice_from n formulas) else [])).
Proof.
  intros (_ & Hflat & _)%constructed_popup Hlen.
  rewrite new_Ok by exact Hlen. rewrite popup_fixed; [reflexivity|].
  unfold slice_from. rewrite Forall_forall in Hflat |- *.
  intros x Hx. apply Hflat. eapply subseteq_drop, Hx.
Qed.

Lemma popup_nested_r cls a b c s s' s'' :
  _popup (BinaryOperator cls
            [a; BinaryOperator cls (_popup (BinaryOperator cls [b; c] s)) s'] s'')
  = _popup (BinaryOperator cls [a; b; c] s'').
Proof.
  change [a; BinaryOperator cls (_popup (BinaryOperator cls [b; c] s)) s']
    with ([a] ++ [BinaryOperator cls (_popup (BinaryOperator cls [b; c] s)) s']).
  change [a; b; c] with ([a] ++ [b; c]).
  rewrite !popup_app. f_equal.
  cbn [_popup flat_map type_of]. rewrite bool_decide_true by reflexivity.
  rewrite app_nil_r.
  change (_popup (BinaryOperator cls (_popup (BinaryOperator cls [b; c] s)) s')
          = _popup (BinaryOperator cls [b; c] s)).
  apply popup_fixed. eapply popup_flat. reflexivity.
Qed.

(** X3: the constructor of every binary class is associative: nesting a
    node of the class on the left or on the right gives the node built
    from the three operands, also on the classes [LTLfUntil],
    [LTLfRelease] and [LTLfImplies]. *)
Theorem new_associative cls a b c :
  (ab ← new cls [a; b]; new cls [ab; c]) = new cls [a; b; c]
  /\ (bc ← new cls [b; c]; new cls [a; bc]) = new cls [a; b; c].
Proof.
  split.
  - rewrite (new_Ok cls [a; b]) by (simpl; lia). rewrite bind_Ok.
    rewrite !new_Ok by (simpl; lia). rewrite popup_nested. reflexivity.
  - rewrite (new_Ok cls [b; c]) by (simpl; lia). rewrite bind_Ok.
    rewrite !new_Ok by (simpl; lia). rewrite popup_nested_r. reflexivity.
Qed.

Lemma fold_set_add_length l : forall table,
    (length table <= length (fold_left set_add l table) <= length table + length l)%nat.
Proof.
  induction l as [|key l IH]; simpl; intros table; [lia|].
  specialize (IH (set_add table key)).
  assert (length table <= length (set_add table key) <= length table + 1)%nat.
  { unfold set_add. destruct (set_contains table key); [lia|].
    rewrite length_app. simpl. lia. }
  lia.
Qed.

Lemma frozenset_nonempty x l : (1 <= length (frozenset (x :: l)))%nat.
Proof.
  unfold frozenset. cbn [fold_left].
  change (set_add [] x) with [x].
  pose proof (fold_set_add_length l [x]) as H. simpl in H. lia.
Qed.

(** X4: the set of a constructed commutative node holds pairwise
    different keys, all of them operands of the node; every operand is
    found in it; and it has at least one key and no more keys than the
    node has operands. *)
Theorem formulas_set_invariant cls formulas formulas_set :
  constructed (BinaryOperator cls formulas formulas_set) ->
  commutative cls = true ->
  distinct_keys formulas_set
  /\ (forall key, key ∈ formulas_set -> key ∈ formulas)
  /\ (forall x, x ∈ formulas -> set_contains formulas_set x = true)
  /\ (1 <= length formulas_set <= length formulas)%nat.
Proof.
  intros H Hcomm.
  pose proof (constructed_valid _ H) as (Vl & _ & _)%valid_binary_inv.
  apply constructed_popup in H as (Hlen & _ & ->). rewrite Hcomm.
  split; [apply frozenset_distinct|]. split; [apply frozenset_elem|].
  split.
  - intros x Hx. apply frozenset_contains; [|exact Hx].
    apply valid_lawful_Forall, Vl.
  - destruct formulas as [|x l]; [simpl in Hlen; lia|].
    split; [apply frozenset_nonempty|].
    pose proof (fold_set_add_length (x :: l) []) as Hl. simpl in Hl.
    unfold frozenset. simpl. lia.
Qed.

Lemma Formula_eq_type a b : Formula_eq a b = true -> type_of a = type_of b.
Proof.
  destruct a as [| | |c f|c l s], b as [| | |c' f'|c' l' s'];
    try discriminate; try reflexivity.
  - intros [-> _]%Formula_eq_unary_true. reflexivity.
  - intros [-> _]%Formula_eq_binary_true. reflexivity.
Qed.

(** X5: on constructed formulas [==] is an equivalence relation, and equal
    formulas are of the same class. *)
Theorem Formula_eq_equivalence a b c :
  constructed a -> constructed b -> constructed c ->
  Formula_eq a a = true
  /\ (Formula_eq a b = true -> Formula_eq b a = true)
  /\ (Formula_eq a b = true -> Formula_eq b c = true -> Formula_eq a c = true)
  /\ (Formula_eq a b = true -> type_of a = type_of b).
Proof.
  intros Va%constructed_valid Vb%constructed_valid Vc%constructed_valid.
  pose proof (valid_lawful a Va) as La.
  split; [apply lawful_refl, La|].
  split; [apply (lawful_sym _ La b Vb)|].
  split; [apply (lawful_trans_l _ La b c Vb Vc) | apply Formula_eq_type].
Qed.

(** X6: on constructed operands the one-level [_popup] of [formulas.py]
    returns the tuple that the recursive [_popup] of [Formula.py]
    returns: the operands of a constructed node are popped up already. *)
Theorem popup_one_level_agrees cls formulas formulas_set :
  Forall constructed formulas ->
  _popup_one_level (BinaryOperator cls formulas formulas_set)
  = _popup (BinaryOperator cls formulas formulas_set).
Proof.
  intros H. cbn [_popup_one_level _popup].
  induction H as [|x l Hx _ IH]; [reflexivity|].
  cbn [flat_map]. rewrite IH. f_equal.
  case_bool_decide as Ht; [|reflexivity].
  destruct x as [| | | |c' l' s']; try discriminate. injection Ht as ->.
  pose proof (constructed_popup _ _ _ Hx) as (_ & Hflat & _).
  rewrite (popup_fixed _ _ _ Hflat). reflexivity.
Qed.

(** ** The last step of [_delta] *)

Lemma bind_Ok_inv {A B} (m : outcome A) (k : A -> outcome B) (b : B) :
  (m ≫= k) = Ok b -> exists a, m = Ok a /\ k a = Ok b.
Proof. destruct m as [a| |]; try discriminate. intros H. exists a. auto. Qed.

Lemma comprehension_inv {A B} (g : A -> outcome B) (l : list A) (ys : list B) :
  comprehension g l = Ok ys -> Forall2 (fun x y => g x = Ok y) l ys.
Proof.
  revert ys. induction l as [|x l IH]; simpl; intros ys H.
  - injection H as <-. constructor.
  - destruct (g x) as [y| |] eqn:Hx; try discriminate.
    destruct (comprehension g l) as [ys'| |]; try discriminate.
    injection H as <-. constructor; [exact Hx | apply IH; reflexivity].
Qed.

Lemma comprehension_Forall {A B} (g : A -> outcome B) (P : B -> Prop)
      (l : list A) (ys : list B) :
  comprehension g l = Ok ys ->
  (forall x y, x ∈ l -> g x = Ok y -> P y) ->
  Forall P ys.
Proof.
  intros Hys%comprehension_inv HP.
  induction Hys as [|x y l ys Hxy Hys IH]; constructor.
  - eapply HP; [left | exact Hxy].
  - apply IH. intros x' y' Hx'. apply HP. right. exact Hx'.
Qed.

Lemma PLBinaryOperator_init_inv cls l d :
  PLBinaryOperator_init cls l = Ok d ->
  d = PLBinaryOperator cls (PL_popup (PLBinaryOperator cls l)).
Proof.
  unfold PLBinaryOperator_init. case_bool_decide as Hlen; [|discriminate].
  intros Hd. injection Hd as <-. reflexivity.
Qed.

Lemma PLBinaryOperator_init_constants_inv cls l d :
  PLBinaryOperator_init cls l = Ok d ->
  Forall (fun x => constants_only x = true) l ->
  constants_only d = true.
Proof.
  intros ->%PLBinaryOperator_init_inv Hl. cbn [constants_only].
  apply forallb_true_Forall. eapply PL_popup_constants; [reflexivity | exact Hl].
Qed.

(** X8: at the end of the trace ([epsilon] set) and on a letter that holds
    [LAST], whatever [_delta] returns is built from [PLTrue] and [PLFalse]
    alone: no formula is left to hold at a next position, and the result
    has one truth value in every interpretation. *)
Theorem delta_last_step_constants self i epsilon d :
  epsilon = true \/ contains i LAST = true ->
  _delta self i epsilon = Ok d ->
  constants_only d = true /\ exists b, PL_value d b.
Proof.
  intros Hlast Hd.
  assert (constants_only d = true) as Hc;
    [|split; [exact Hc | apply PL_truth_constants, Hc]].
  remember (weight self) as n eqn:Hn.
  revert self d Hn Hd. induction n as [n IH] using lt_wf_ind.
  intros self d -> Hd.
  assert (forall g dg, (weight g < weight self)%nat ->
                       _delta g i epsilon = Ok dg -> constants_only dg = true)
    as Hlt.
  { intros g dg Hg Hdg. eapply IH; [exact Hg | reflexivity | exact Hdg]. }
  assert (forall g dn, _delta (LTLfNext g) i epsilon = Ok dn ->
                       constants_only dn = true) as Hnext.
  { intros g dn. rewrite delta_unfold. cbn [_delta_body].
    destruct Hlast as [-> | ->]; [|destruct epsilon];
      intros H; injection H as <-; reflexivity. }
  assert (forall g dn, _delta (LTLfWeakNext g) i epsilon = Ok dn ->
                       constants_only dn = true) as Hweak.
  { intros g dn. rewrite delta_unfold. cbn [_delta_body].
    destruct Hlast as [-> | ->]; [|destruct epsilon];
      intros H; injection H as <-; reflexivity. }
  rewrite delta_unfold in Hd.
  destruct self as [a| | |cls f|cls l s].
  - injection Hd as <-. unfold LTLfAtomic_delta.
    destruct epsilon; [|destruct (PLAtomic_truth a i)]; reflexivity.
  - injection Hd as <-. unfold LTLfAtomic_delta. destruct epsilon; reflexivity.
  - injection Hd as <-. unfold LTLfAtomic_delta. destruct epsilon; reflexivity.
  - destruct cls; cbn [_delta_body] in Hd.
    + destruct (isinstance_LTLfAtomic f); [|discriminate].
      apply bind_Ok_inv in Hd as (d0 & _ & Hd). injection Hd as <-.
      destruct (eq_PLFalse d0); reflexivity.
    + eapply Hnext. rewrite delta_unfold. exact Hd.
    + eapply Hweak. rewrite delta_unfold. exact Hd.
    + apply bind_Ok_inv in Hd as (d0 & H0 & Hd).
      apply bind_Ok_inv in Hd as (dn & Hn & Hd).
      eapply PLBinaryOperator_init_constants_inv; [exact Hd|].
      repeat constructor; [eapply Hlt; [|exact H0]; simpl; lia | eapply Hnext, Hn].
    + apply bind_Ok_inv in Hd as (d0 & H0 & Hd).
      apply bind_Ok_inv in Hd as (dn & Hn & Hd).
      eapply PLBinaryOperator_init_constants_inv; [exact Hd|].
      repeat constructor; [eapply Hlt; [|exact H0]; simpl; lia | eapply Hweak, Hn].
  - assert (forall ds, comprehension (fun f => _delta f i epsilon) l = Ok ds ->
                       Forall (fun x => constants_only x = true) ds) as Hl.
    { intros ds Hds. eapply comprehension_Forall; [exact Hds|].
      intros x y Hx Hxy. eapply Hlt; [|exact Hxy]. apply weight_operand, Hx. }
    destruct cls; cbn [_delta_body] in Hd.
    + apply bind_Ok_inv in Hd as (ds & Hds & Hd).
      eapply PLBinaryOperator_init_constants_inv; [exact Hd | apply Hl, Hds].
    + apply bind_Ok_inv in Hd as (ds & Hds & Hd).
      eapply PLBinaryOperator_init_constants_inv; [exact Hd | apply Hl, Hds].
    + apply bind_Ok_inv in Hd as (c & Hc & Hd).
      eapply Hlt; [eapply convert_weight, Hc | exact Hd].
    + apply bind_Ok_inv in Hd as (c & Hc & Hd).
      eapply Hlt; [eapply convert_weight, Hc | exact Hd].
    + apply bind_Ok_inv in Hd as (f1 & H1 & Hd).
      apply bind_Ok_inv in Hd as (f2 & H2 & Hd).
      apply bind_Ok_inv in Hd as (d2 & Hd2 & Hd).
      apply bind_Ok_inv in Hd as (d1 & Hd1 & Hd).
      apply bind_Ok_inv in Hd as (dn & Hdn & Hd).
      apply bind_Ok_inv in Hd as (a & Ha & Hd).
      eapply PLBinaryOperator_init_constants_inv; [exact Hd|].
      repeat constructor.
      * eapply Hlt; [eapply second_operand_weight, H2 | exact Hd2].
      * eapply PLBinaryOperator_init_constants_inv; [exact Ha|].
        repeat constructor; [|eapply Hnext, Hdn].
        eapply Hlt; [eapply getitem_weight, H1 | exact Hd1].
    + apply bind_Ok_inv in Hd as (f1 & H1 & Hd).
      apply bind_Ok_inv in Hd as (f2 & H2 & Hd).
      apply bind_Ok_inv in Hd as (d2 & Hd2 & Hd).
      apply bind_Ok_inv in Hd as (d1 & Hd1 & Hd).
      apply bind_Ok_inv in Hd as (dn & Hdn & Hd).
      apply bind_Ok_inv in Hd as (a & Ha & Hd).
      eapply PLBinaryOperator_init_constants_inv; [exact Hd|].
      repeat constructor.
      * eapply Hlt; [eapply second_operand_weight, H2 | exact Hd2].
      * eapply PLBinaryOperator_init_constants_inv; [exact Ha|].
        repeat constructor; [|eapply Hnext, Hdn].
        eapply Hlt; [eapply getitem_weight, H1 | exact Hd1].
Qed.

(** ** [_delta] and [truth] at the last position of a trace *)

Lemma range_single p : range p (p + 1) = [p].
Proof.
  unfold range. replace (p + 1 - p) with 1 by lia. simpl. f_equal. lia.
Qed.

Lemma range_empty p : range p p = [].
Proof. unfold range. rewrite Z.sub_diag. reflexivity. Qed.

Lemma py_all_cons {A} (g : A -> outcome bool) x l :
  py_all g (x :: l) = match g x with Ok true => py_all g l | r => r end.
Proof. reflexivity. Qed.

Lemma py_any_cons {A} (g : A -> outcome bool) x l :
  py_any g (x :: l) = match g x with Ok false => py_any g l | r => r end.
Proof. reflexivity. Qed.

Lemma py_all_single {A} (g : A -> outcome bool) x : py_all g [x] = g x.
Proof. rewrite py_all_cons. destruct (g x) as [[]| |]; reflexivity. Qed.

Lemma py_any_single {A} (g : A -> outcome bool) x : py_any g [x] = g x.
Proof. rewrite py_any_cons. destruct (g x) as [[]| |]; reflexivity. Qed.

Lemma py_all_app {A} (g : A -> outcome bool) l1 l2 :
  py_all g (l1 ++ l2) = match py_all g l1 with Ok true => py_all g l2 | r => r end.
Proof.
  induction l1 as [|x l1 IH]; [reflexivity|].
  rewrite <- app_comm_cons, !py_all_cons.
  destruct (g x) as [[]| |]; [exact IH | reflexivity..].
Qed.

Lemma py_any_app {A} (g : A -> outcome bool) l1 l2 :
  py_any g (l1 ++ l2) = match py_any g l1 with Ok false => py_any g l2 | r => r end.
Proof.
  induction l1 as [|x l1 IH]; [reflexivity|].
  rewrite <- app_comm_cons, !py_any_cons.
  destruct (g x) as [[]| |]; [reflexivity | exact IH | reflexivity..].
Qed.

Lemma py_all_values {A} (g : A -> outcome bool) l bs :
  Forall2 (fun x b => g x = Ok b) l bs -> py_all g l = Ok (forallb id bs).
Proof.
  induction 1 as [|x b l bs Hx _ IH]; [reflexivity|].
  rewrite py_all_cons, Hx. destruct b; [exact IH | reflexivity].
Qed.

Lemma py_any_values {A} (g : A -> outcome bool) l bs :
  Forall2 (fun x b => g x = Ok b) l bs -> py_any g l = Ok (existsb id bs).
Proof.
  induction 1 as [|x b l bs Hx _ IH]; [reflexivity|].
  rewrite py_any_cons, Hx. destruct b; [reflexivity | exact IH].
Qed.

Lemma PL_truth_And l j :
  PL_truth (PLAnd l) j = py_all (fun f => PL_truth f j) l.
Proof. reflexivity. Qed.

Lemma PL_truth_Or l j :
  PL_truth (PLOr l) j = py_any (fun f => PL_truth f j) l.
Proof. reflexivity. Qed.

(** Flattening nested [PLAnd]s and [PLOr]s keeps the truth value. *)
Lemma PL_popup_truth d :
  forall cls l j,
    d = PLBinaryOperator cls l ->
    PL_truth (PLBinaryOperator cls (PL_popup d)) j = PL_truth d j.
Proof.
  induction d as [a|f _|c formulas IH|f] using PLFormula_nested_ind;
    intros cls l j E; try discriminate.
  injection E as -> ->. cbn [PL_popup].
  destruct cls.
  - rewrite !PL_truth_And.
    induction IH as [|x l Hx _ IHl]; [reflexivity|].
    cbn [flat_map]. rewrite py_all_app, py_all_cons, IHl.
    replace (py_all (fun f => PL_truth f j)
               (if PL_is_class C_PLAnd x then PL_popup x else [x]))
      with (PL_truth x j); [reflexivity|].
    destruct (PL_is_class C_PLAnd x) eqn:Hc; [|symmetry; apply (py_all_single (fun f => PL_truth f j))].
    destruct x as [| |c' l'|]; try discriminate.
    simpl in Hc. apply bool_decide_eq_true in Hc as ->.
    rewrite <- PL_truth_And. symmetry. eapply Hx. reflexivity.
  - rewrite !PL_truth_Or.
    induction IH as [|x l Hx _ IHl]; [reflexivity|].
    cbn [flat_map]. rewrite py_any_app, py_any_cons, IHl.
    replace (py_any (fun f => PL_truth f j)
               (if PL_is_class C_PLOr x then PL_popup x else [x]))
      with (PL_truth x j); [reflexivity|].
    destruct (PL_is_class C_PLOr x) eqn:Hc; [|symmetry; apply (py_any_single (fun f => PL_truth f j))].
    destruct x as [| |c' l'|]; try discriminate.
    simpl in Hc. apply bool_decide_eq_true in Hc as ->.
    rewrite <- PL_truth_Or. symmetry. eapply Hx. reflexivity.
Qed.

Lemma PLBinaryOperator_init_value cls ds bs :
  (2 <= length ds)%nat ->
  Forall2 PL_value ds bs ->
  exists d, PLBinaryOperator_init cls ds = Ok d /\
            PL_value d (match cls with
                        | C_PLAnd => forallb id bs
                        | C_PLOr => existsb id bs
                        end).
Proof.
  intros Hlen Hv. unfold PLBinaryOperator_init.
  rewrite bool_decide_true by exact Hlen. eexists. split; [reflexivity|].
  intros j. rewrite (PL_popup_truth _ cls ds j eq_refl).
  destruct cls.
  - rewrite PL_truth_And. apply py_all_values.
    eapply Forall2_impl; [exact Hv|]. intros x b Hx. apply Hx.
  - rewrite PL_truth_Or. apply py_any_values.
    eapply Forall2_impl; [exact Hv|]. intros x b Hx. apply Hx.
Qed.

Lemma Until_fragment_binary c l s :
  Until_fragment (BinaryOperator c l s) ->
  (2 <= length l)%nat /\ Forall Until_fragment l.
Proof.
  intros [Hn Hr]. apply is_nnf_binary in Hn as [Hlen Hn]. split; [exact Hlen|].
  simpl in Hr. apply andb_prop in Hr as [_ Hr%forallb_true_Forall].
  apply Forall_forall. intros x Hx. split.
  - eapply (proj1 (Forall_forall _ _) Hn), Hx.
  - eapply (proj1 (Forall_forall _ _) Hr), Hx.
Qed.

Lemma Until_fragment_new cls l :
  cls = C_And \/ cls = C_Or \/ cls = C_Until ->
  (2 <= length l)%nat -> Forall Until_fragment l ->
  exists g, new cls l = Ok g /\ Until_fragment g.
Proof.
  intros Hcls Hlen Hl. rewrite new_Ok by exact Hlen. eexists. split; [reflexivity|].
  destruct (popup_closed Until_fragment Until_fragment_binary
              (BinaryOperator cls l []) cls l [] eq_refl Hl) as [Hp Hlen'].
  assert (Forall (fun x => is_nnf x = true) (_popup (BinaryOperator cls l []))) as Hn.
  { eapply Forall_impl; [exact Hp|]. intros x Hx. apply Hx. }
  assert (Forall (fun x => Release_free x = true) (_popup (BinaryOperator cls l [])))
    as Hr.
  { eapply Forall_impl; [exact Hp|]. intros x Hx. apply Hx. }
  apply forallb_true_Forall in Hn, Hr.
  split.
  - destruct Hcls as [-> | [-> | ->]]; cbn [is_nnf];
      (rewrite bool_decide_true by lia); exact Hn.
  - cbn [Release_free]. rewrite Hr.
    destruct Hcls as [-> | [-> | ->]]; reflexivity.
Qed.

Section LastPosition.

Variable i : FiniteTrace.
Variable I : PLInterpretation.
Hypothesis Hget : FiniteTrace_get i (FiniteTrace_last i) = Ok I.
Hypothesis Hlast : contains I LAST = true.

Lemma atom_agree_at_last a f :
  f = LTLfAtomic a \/ (f = LTLfTrue /\ a = PLTrue) \/ (f = LTLfFalse /\ a = PLFalse) ->
  truth f i (FiniteTrace_last i) = Ok (PLAtomic_truth a I) /\
  _delta f I false = Ok (LTLfAtomic_delta a I false).
Proof.
  intros [-> | [[-> ->] | [-> ->]]];
    rewrite truth_unfold, delta_unfold; cbn [truth_body _delta_body];
    rewrite Hget; split; reflexivity.
Qed.

Lemma isinstance_LTLfAtomic_inv f :
  isinstance_LTLfAtomic f = true ->
  exists a, f = LTLfAtomic a \/ (f = LTLfTrue /\ a = PLTrue) \/
            (f = LTLfFalse /\ a = PLFalse).
Proof.
  destruct f as [a| | | |]; try discriminate; intros _;
    [exists a | exists PLTrue | exists PLFalse]; auto.
Qed.

Lemma Next_at_last f :
  truth (LTLfNext f) i (FiniteTrace_last i) = Ok false /\
  _delta (LTLfNext f) I false = Ok (PLAtom PLFalse).
Proof.
  rewrite truth_unfold, delta_unfold. cbn [truth_body _delta_body].
  rewrite Hlast, bool_decide_false by lia. split; reflexivity.
Qed.

Lemma agree_lists l :
  Forall (agree_at_last i I) l ->
  exists bs ds,
    Forall2 (fun x b => truth x i (FiniteTrace_last i) = Ok b) l bs /\
    comprehension (fun f => _delta f I false) l = Ok ds /\
    Forall2 PL_value ds bs /\ length ds = length l.
Proof.
  induction 1 as [|x l (b & d & Ht & Hd & Hv) _ (bs & ds & Hts & Hds & Hvs & Hlen)].
  - exists [], []. repeat split; constructor.
  - exists (b :: bs), (d :: ds). repeat split.
    + constructor; assumption.
    + cbn [comprehension]. rewrite Hd.
      change ((fix go (l0 : list LTLfFormula) : outcome (list PLFormula) :=
                 match l0 with
                 | [] => Ok []
                 | x0 :: l' =>
                     match _delta x0 I false with
                     | Ok y =>
                         match go l' with
                         | Ok ys => Ok (y :: ys)
                         | Raise e => Raise e
                         | OutOfFuel => OutOfFuel
                         end
                     | Raise e => Raise e
                     | OutOfFuel => OutOfFuel
                     end
                 end) l)
        with (comprehension (fun f => _delta f I false) l).
      rewrite Hds. reflexivity.
    + constructor; assumption.
    + simpl. rewrite Hlen. reflexivity.
Qed.

Lemma agree_at_last_fragment self :
  Until_fragment self -> agree_at_last i I self.
Proof.
  remember (weight self) as n eqn:Hn.
  revert self Hn. induction n as [n IH] using lt_wf_ind.
  intros self -> Hself.
  assert (forall g, (weight g < weight self)%nat -> Until_fragment g ->
                    agree_at_last i I g) as Hlt.
  { intros g Hg. eapply IH; [exact Hg | reflexivity]. }
  clear IH.
  destruct self as [a| | |cls f|cls l s].
  - destruct (atom_agree_at_last a (LTLfAtomic a)) as [Ht Hd]; [auto|].
    exists (PLAtomic_truth a I), (LTLfAtomic_delta a I false).
    split; [exact Ht|]. split; [exact Hd|].
    intros j. unfold LTLfAtomic_delta. destruct (PLAtomic_truth a I); reflexivity.
  - destruct (atom_agree_at_last PLTrue LTLfTrue) as [Ht Hd]; [auto|].
    exists true, (PLAtom PLTrue). split; [exact Ht|]. split; [exact Hd|].
    intros j. reflexivity.
  - destruct (atom_agree_at_last PLFalse LTLfFalse) as [Ht Hd]; [auto|].
    exists false, (PLAtom PLFalse). split; [exact Ht|]. split; [exact Hd|].
    intros j. reflexivity.
  - destruct Hself as [Hn Hr]. destruct cls; try discriminate.
    + cbn [is_nnf] in Hn.
      destruct (isinstance_LTLfAtomic_inv f Hn) as [a Ha].
      destruct (atom_agree_at_last a f Ha) as [Ht Hd].
      exists (negb (PLAtomic_truth a I)),
        (if PLAtomic_truth a I then PLAtom PLFalse else PLAtom PLTrue).
      rewrite truth_unfold, delta_unfold. cbn [truth_body _delta_body].
      rewrite Hn, Ht, Hd. unfold LTLfAtomic_delta.
      destruct (PLAtomic_truth a I);
        (split; [reflexivity|]; split; [reflexivity|]; intros j; reflexivity).
    + destruct (Next_at_last f) as [Ht Hd].
      exists false, (PLAtom PLFalse). split; [exact Ht|]. split; [exact Hd|].
      intros j. reflexivity.
    + exists true, (PLAtom PLTrue).
      rewrite truth_unfold, delta_unfold. cbn [truth_body _delta_body _convert].
      rewrite Hlast, bind_Ok, truth_unfold. cbn [truth_body].
      rewrite (proj1 (Next_at_last (LTLfNot f))).
      split; [reflexivity|]. split; [reflexivity|]. intros j. reflexivity.
  - pose proof (Until_fragment_binary _ _ _ Hself) as [Hlen Hl].
    assert (Forall (agree_at_last i I) l) as Hag.
    { apply Forall_forall. intros x Hx. apply Hlt.
      - apply weight_operand, Hx.
      - eapply (proj1 (Forall_forall _ _) Hl), Hx. }
    destruct (agree_lists l Hag) as (bs & ds & Hts & Hds & Hvs & Hlen').
    destruct Hself as [Hn Hr]. destruct cls; try discriminate.
    + destruct (PLBinaryOperator_init_value C_PLAnd ds bs) as (d & Hd & Hv);
        [lia | exact Hvs |].
      exists (forallb id bs), d.
      rewrite truth_unfold, delta_unfold. cbn [truth_body _delta_body].
      rewrite Hds, bind_Ok. split; [apply py_all_values, Hts|]. split; assumption.
    + destruct (PLBinaryOperator_init_value C_PLOr ds bs) as (d & Hd & Hv);
        [lia | exact Hvs |].
      exists (existsb id bs), d.
      rewrite truth_unfold, delta_unfold. cbn [truth_body _delta_body].
      rewrite Hds, bind_Ok. split; [apply py_any_values, Hts|]. split; assumption.
    + destruct l as [|f1 l']; [simpl in Hlen; lia|].
      assert (exists g2, second_operand C_Until (f1 :: l') = Ok g2 /\
                         Until_fragment g2) as (g2 & Hg2 & Hfrag).
      { unfold second_operand. case_bool_decide as Hlong.
        - apply Until_fragment_new; [auto | |].
          + unfold slice_from. rewrite length_drop. lia.
          + unfold slice_from. apply Forall_drop, Hl.
        - destruct l' as [|f2 l'']; [simpl in Hlen; lia|].
          exists f2. split; [reflexivity|].
          apply Forall_cons in Hl as [_ Hl]. apply Forall_cons in Hl as [H2 _].
          exact H2. }
      destruct (Hlt g2) as (b2 & d2 & Ht2 & Hd2 & Hv2);
        [eapply second_operand_weight, Hg2 | exact Hfrag |].
      destruct (Hlt f1) as (b1 & d1 & Ht1 & Hd1 & Hv1);
        [apply weight_operand; left
        | apply Forall_cons in Hl as [H1 _]; exact H1 |].
      destruct (PLBinaryOperator_init_value C_PLAnd [d1; PLAtom PLFalse] [b1; false])
        as (a & Ha & Hva); [simpl; lia | |].
      { constructor; [exact Hv1|]. constructor; [intros j; reflexivity|].
        constructor. }
      destruct (PLBinaryOperator_init_value C_PLOr [d2; a]
                  [b2; forallb id [b1; false]])
        as (d & Hd & Hv); [simpl; lia | |].
      { constructor; [exact Hv2|]. constructor; [exact Hva|]. constructor. }
      exists b2, d.
      rewrite truth_unfold, delta_unfold. cbn [truth_body _delta_body].
      rewrite Hg2. unfold getitem. cbn [lookup list_lookup].
      rewrite !bind_Ok, Hd2, bind_Ok, Hd1, bind_Ok.
      rewrite (proj2 (Next_at_last _)), bind_Ok, Ha, bind_Ok.
      rewrite range_single, py_any_single, Ht2, range_empty.
      split; [destruct b2; reflexivity|]. split; [exact Hd|].
      assert (existsb id [b2; forallb id [b1; false]] = b2) as E
        by (destruct b1, b2; reflexivity).
      rewrite E in Hv. exact Hv.
Qed.

End LastPosition.

(** X9: on a formula in negative normal form without a [Release], [_delta]
    on the last letter of a trace (a letter that holds [LAST]) returns a
    propositional formula whose truth value, the same in every
    interpretation, is the one [truth] gives the formula at the last
    position of the trace. *)
Theorem delta_agrees_with_truth_at_last self i I :
  is_nnf self = true -> Release_free self = true ->
  FiniteTrace_get i (FiniteTrace_last i) = Ok I ->
  contains I LAST = true ->
  exists (b : bool) (d : PLFormula),
    truth self i (FiniteTrace_last i) = Ok b /\
    _delta self I false = Ok d /\
    PL_value d b.
Proof.
  intros Hn Hr Hget Hlast.
  apply (agree_at_last_fragment i I Hget Hlast self). split; assumption.
Qed.

(** X10: at the last position of a trace, [truth] of [Release [f1; f2]]
    (through [_convert]) is the truth of [f2] alone, while [_delta] on the
    last letter, which steps through [LTLfNext(self)], returns a formula
    that is true only when both [f1] and [f2] are true there. *)
Theorem Release_at_last f1 f2 i I :
  is_nnf f1 = true -> Release_free f1 = true ->
  is_nnf f2 = true -> Release_free f2 = true ->
  FiniteTrace_get i (FiniteTrace_last i) = Ok I ->
  contains I LAST = true ->
  exists (b1 b2 : bool) (d : PLFormula),
    truth f1 i (FiniteTrace_last i) = Ok b1 /\
    truth f2 i (FiniteTrace_last i) = Ok b2 /\
    truth (LTLfRelease [f1; f2] []) i (FiniteTrace_last i) = Ok b2 /\
    _delta (LTLfRelease [f1; f2] []) I false = Ok d /\
    PL_value d (b2 && b1).
Proof.
  intros Hn1 Hr1 Hn2 Hr2 Hget Hlast.
  destruct (agree_at_last_fragment i I Hget Hlast f1 (conj Hn1 Hr1))
    as (b1 & d1 & Ht1 & Hd1 & Hv1).
  destruct (agree_at_last_fragment i I Hget Hlast f2 (conj Hn2 Hr2))
    as (b2 & d2 & Ht2 & Hd2 & Hv2).
  destruct (PLBinaryOperator_init_value C_PLOr [d1; PLAtom PLFalse] [b1; false])
    as (o & Ho & Hvo); [simpl; lia | |].
  { constructor; [exact Hv1|]. constructor; [intros j; reflexivity|].
    constructor. }
  destruct (PLBinaryOperator_init_value C_PLAnd [d2; o]
              [b2; existsb id [b1; false]])
    as (d & Hd & Hv); [simpl; lia | |].
  { constructor; [exact Hv2|]. constructor; [exact Hvo|]. constructor. }
  assert (truth (LTLfNot f2) i (FiniteTrace_last i) = Ok (negb b2)) as Hnot2.
  { rewrite truth_unfold. cbn [truth_body]. rewrite Ht2. reflexivity. }
  assert (truth (LTLfUntil [LTLfNot f1; LTLfNot f2] []) i (FiniteTrace_last i)
          = Ok (negb b2)) as Hu.
  { rewrite truth_unfold. cbn [truth_body]. unfold second_operand, getitem.
    rewrite bool_decide_false by (simpl; lia). cbn [lookup list_lookup].
    rewrite !bind_Ok, range_single, py_any_single, Hnot2, range_empty.
    destruct b2; reflexivity. }
  assert (new C_Until [LTLfNot f1; LTLfNot f2]
          = Ok (LTLfUntil [LTLfNot f1; LTLfNot f2] [])) as Hnew.
  { rewrite new_Ok by (simpl; lia). cbn [_popup flat_map type_of commutative].
    rewrite !bool_decide_false by discriminate. reflexivity. }
  exists b1, b2, d. split; [exact Ht1|]. split; [exact Ht2|]. split.
  - rewrite truth_unfold. cbn [truth_body _convert map].
    rewrite Hnew, !bind_Ok, truth_unfold. cbn [truth_body].
    rewrite Hu, bind_Ok, negb_involutive. reflexivity.
  - split.
    + rewrite delta_unfold. cbn [_delta_body]. unfold second_operand, getitem.
      rewrite bool_decide_false by (simpl; lia). cbn [lookup list_lookup].
      rewrite !bind_Ok, Hd2, bind_Ok, Hd1, bind_Ok.
      rewrite (proj2 (Next_at_last i I Hlast _)), bind_Ok, Ho, bind_Ok.
      exact Hd.
    + assert (forallb id [b2; existsb id [b1; false]] = b2 && b1) as E
        by (destruct b1, b2; reflexivity).
      rewrite E in Hv. exact Hv.
Qed.

(** ** [truth] of the operators defined by [_convert] *)

Lemma elem_of_range a b k : k ∈ range a b <-> a <= k < b.
Proof.
  unfold range. rewrite list_elem_of_In, in_map_iff. split.
  - intros (n & <- & Hn%in_seq). lia.
  - intros Hk. exists (Z.to_nat (k - a)). split; [lia|]. apply in_seq. lia.
Qed.

Lemma py_all_true {A} (g : A -> outcome bool) l :
  (forall x, x ∈ l -> g x = Ok true) -> py_all g l = Ok true.
Proof.
  induction l as [|x l IH]; intros Hl; [reflexivity|].
  rewrite py_all_cons, (Hl x) by left. apply IH. intros y Hy. apply Hl. by right.
Qed.

Lemma py_any_ext_in {A} (g h : A -> outcome bool) l :
  (forall x, x ∈ l -> g x = h x) -> py_any g l = py_any h l.
Proof.
  induction l as [|x l IH]; intros Hl; [reflexivity|].
  rewrite !py_any_cons, (Hl x), IH; [reflexivity | | left].
  intros y Hy. apply Hl. by right.
Qed.

Lemma negb_py_any {A} (g : A -> outcome bool) l :
  outcome_negb (py_any (fun x => outcome_negb (g x)) l) = py_all g l.
Proof.
  induction l as [|x l IH]; [reflexivity|].
  rewrite py_any_cons, py_all_cons.
  destruct (g x) as [[]| |]; [exact IH | reflexivity..].
Qed.

Lemma truth_True_in i k :
  0 <= k < Z.of_nat (length i) -> truth LTLfTrue i k = Ok true.
Proof.
  intros Hk. rewrite truth_unfold. cbn [truth_body]. unfold FiniteTrace_get.
  rewrite bool_decide_true by lia. unfold getitem.
  destruct (i !! Z.to_nat k) as [l|] eqn:Hl; [reflexivity|].
  apply lookup_ge_None in Hl. lia.
Qed.

Lemma truth_Until_True f i pos s :
  0 <= pos ->
  truth (LTLfUntil [LTLfTrue; f] s) i pos
  = py_any (fun j => truth f i j) (range pos (FiniteTrace_last i + 1)).
Proof.
  intros Hpos. rewrite truth_unfold. cbn [truth_body].
  unfold second_operand, getitem. rewrite bool_decide_false by (simpl; lia).
  cbn [lookup list_lookup]. rewrite !bind_Ok.
  apply py_any_ext_in. intros j [Hj1 Hj2]%elem_of_range.
  destruct (truth f i j) as [[]| |]; try reflexivity.
  apply py_all_true. intros k [Hk1 Hk2]%elem_of_range.
  apply truth_True_in. unfold FiniteTrace_last in Hj2. lia.
Qed.

(** X11: from position [pos >= 0], [Eventually f] (with [f] not itself an
    [Until], which the constructor would merge) is true when [f] is true
    at some position from [pos] to the last, looked at from left to right:
    the first position where [f] raises or is true decides. *)
Theorem truth_Eventually f i pos :
  0 <= pos -> type_of f <> T_Binary C_Until ->
  truth (LTLfEventually f) i pos
  = py_any (fun j => truth f i j) (range pos (FiniteTrace_last i + 1)).
Proof.
  intros Hpos Hf. rewrite truth_unfold. cbn [truth_body _convert].
  rewrite new_Ok by (simpl; lia). cbn [_popup flat_map type_of commutative].
  rewrite bool_decide_false by discriminate.
  rewrite bool_decide_false by exact Hf.
  rewrite bind_Ok. apply truth_Until_True, Hpos.
Qed.

(** X12: from position [pos >= 0], [Always f] is true when [f] is true at
    every position from [pos] to the last, looked at from left to right:
    the first position where [f] raises or is false decides. *)
Theorem truth_Always f i pos :
  0 <= pos ->
  truth (LTLfAlways f) i pos
  = py_all (fun j => truth f i j) (range pos (FiniteTrace_last i + 1)).
Proof.
  intros Hpos. rewrite truth_unfold. cbn [truth_body _convert].
  rewrite bind_Ok, truth_unfold. cbn [truth_body].
  rewrite truth_unfold. cbn [truth_body _convert].
  rewrite new_Ok by (simpl; lia). cbn [_popup flat_map type_of commutative].
  rewrite !bool_decide_false by discriminate. cbn [app].
  rewrite bind_Ok, truth_Until_True by exact Hpos.
  rewrite <- negb_py_any. reflexivity.
Qed.

(** ** [simplify] *)





(** ** [negate] *)

Lemma py_all_ext_in {A} (g h : A -> outcome bool) l :
  (forall x, x ∈ l -> g x = h x) -> py_all g l = py_all h l.
Proof.
  induction l as [|x l IH]; intros Hl; [reflexivity|].
  rewrite !py_all_cons, (Hl x), IH; [reflexivity | | left].
  intros y Hy. apply Hl. by right.
Qed.

Lemma truth_Not f i pos :
  truth (LTLfNot f) i pos = outcome_negb (truth f i pos).
Proof. rewrite truth_unfold. reflexivity. Qed.

Lemma truth_Not_Not f i pos :
  truth (LTLfNot (LTLfNot f)) i pos = truth f i pos.
Proof.
  rewrite !truth_Not. destruct (truth f i pos) as [b| |]; [|reflexivity..].
  simpl. rewrite negb_involutive. reflexivity.
Qed.

Lemma popup_Not cls l s :
  _popup (BinaryOperator cls (map (fun f => LTLfNot f) l) s)
  = map (fun f => LTLfNot f) l.
Proof.
  apply popup_fixed. induction l as [|x l IH]; constructor; [discriminate | exact IH].
Qed.

Lemma new_Not cls l :
  (2 <= length l)%nat ->
  new cls (map (fun f => LTLfNot f) l)
  = Ok (BinaryOperator cls (map (fun f => LTLfNot f) l)
          (if commutative cls then frozenset (map (fun f => LTLfNot f) l) else [])).
Proof.
  intros Hlen. rewrite new_Ok by (rewrite length_map; exact Hlen).
  rewrite popup_Not. reflexivity.
Qed.

(** Doubly negated operands do not change the truth of an [Until]. *)
Lemma truth_Until_Not_Not l :
  Forall (fun x => type_of x <> T_Binary C_Until) l ->
  forall s s' i pos,
    truth (LTLfUntil (map (fun f => LTLfNot (LTLfNot f)) l) s) i pos
    = truth (LTLfUntil l s') i pos.
Proof.
  induction l as [|x l IH]; intros Hflat s s' i pos;
    rewrite (truth_unfold (LTLfUntil (map _ _) s)), (truth_unfold (LTLfUntil _ s'));
    cbn [truth_body]; [reflexivity|].
  apply Forall_cons in Hflat as [_ Hflat].
  unfold getitem at 1 2. cbn [map lookup list_lookup]. rewrite !bind_Ok.
  unfold second_operand. cbn [length]. rewrite length_map.
  case_bool_decide as Hlong.
  - unfold slice_from. cbn [drop]. rewrite !drop_0.
    rewrite <- (map_map (fun f => LTLfNot f) (fun f => LTLfNot f) l).
    rewrite new_Not by (rewrite length_map; lia).
    rewrite new_Ok by lia. rewrite (popup_fixed _ l []) by exact Hflat.
    cbn [commutative]. rewrite !bind_Ok.
    rewrite (map_map (fun f => LTLfNot f) (fun f => LTLfNot f) l).
    apply py_any_ext_in. intros j _. rewrite (IH Hflat [] [] i j).
    destruct (truth (LTLfUntil l []) i j) as [[]| |]; try reflexivity.
    apply py_all_ext_in. intros k _. apply truth_Not_Not.
  - destruct l as [|y l]; [reflexivity|].
    unfold getitem. cbn [map lookup list_lookup]. rewrite !bind_Ok.
    apply py_any_ext_in. intros j _. rewrite truth_Not_Not.
    destruct (truth y i j) as [[]| |]; try reflexivity.
    apply py_all_ext_in. intros k _. apply truth_Not_Not.
Qed.

(** X14: [negate] is the negation of [truth].  On an atom it returns a
    formula that is true where the atom is false; on a constructed
    [Until] it does not raise, and the [Release] it returns is true at a
    position of a trace where the [Until] is false, and raises where the
    [Until] raises. *)
Theorem negate_truth a l s i pos :
  constructed (LTLfUntil l s) ->
  truth (LTLfAtomic_negate a) i pos = outcome_negb (truth (LTLfAtomic a) i pos)
  /\ exists g,
       LTLfUntil_negate l = Ok g /\
       type_of g = T_Binary C_Release /\
       truth g i pos = outcome_negb (truth (LTLfUntil l s) i pos).
Proof.
  intros (Hlen & Hflat & _)%constructed_popup.
  split; [apply truth_Not|].
  unfold LTLfUntil_negate. rewrite new_Not by exact Hlen. cbn [commutative].
  eexists. split; [reflexivity|]. split; [reflexivity|].
  rewrite truth_unfold. cbn [truth_body _convert].
  rewrite (new_Not C_Until (map (fun f => LTLfNot f) l))
    by (rewrite length_map; exact Hlen).
  cbn [commutative]. rewrite !bind_Ok, truth_Not.
  rewrite (map_map (fun f => LTLfNot f) (fun f => LTLfNot f) l).
  rewrite (truth_Until_Not_Not l Hflat [] s i pos). reflexivity.
Qed.

(** ** Where [_delta] does not raise *)

Lemma delta_defined_binary c l s :
  delta_defined (BinaryOperator c l s) = true ->
  (2 <= length l)%nat /\ Forall (fun x => delta_defined x = true) l.
Proof.
  destruct c; simpl; try discriminate;
    intros [Hlen Hl%forallb_true_Forall]%andb_prop;
    apply bool_decide_eq_true in Hlen; split; assumption.
Qed.

Lemma delta_defined_new cls l :
  cls = C_Until \/ cls = C_Release ->
  (2 <= length l)%nat -> Forall (fun x => delta_defined x = true) l ->
  exists g, new cls l = Ok g /\ delta_defined g = true.
Proof.
  intros Hcls Hlen Hl. rewrite new_Ok by exact Hlen. eexists. split; [reflexivity|].
  destruct (popup_closed (fun x => delta_defined x = true) delta_defined_binary
              (BinaryOperator cls l []) cls l [] eq_refl Hl) as [Hp Hlen'].
  apply forallb_true_Forall in Hp.
  destruct Hcls as [-> | ->]; cbn [delta_defined];
    (rewrite bool_decide_true by lia); exact Hp.
Qed.

Lemma PLBinaryOperator_init_Ok cls l :
  (2 <= length l)%nat -> exists d, PLBinaryOperator_init cls l = Ok d.
Proof.
  intros Hlen. unfold PLBinaryOperator_init.
  rewrite bool_decide_true by exact Hlen. eexists. reflexivity.
Qed.

Lemma delta_Ok_defined self i epsilon :
  delta_defined self = true ->
  exists d, _delta self i epsilon = Ok d.
Proof.
  remember (weight self) as n eqn:Hn.
  revert self Hn. induction n as [n IH] using lt_wf_ind.
  intros self -> Hself.
  assert (forall g, (weight g < weight self)%nat -> delta_defined g = true ->
                    exists d, _delta g i epsilon = Ok d) as Hlt.
  { intros g Hg. eapply IH; [exact Hg | reflexivity]. }
  clear IH.
  assert (forall g, exists dn, _delta (LTLfNext g) i epsilon = Ok dn) as Hnext.
  { intros g. rewrite delta_unfold. cbn [_delta_body].
    destruct epsilon; eexists; reflexivity. }
  assert (forall g, exists dn, _delta (LTLfWeakNext g) i epsilon = Ok dn) as Hweak.
  { intros g. rewrite delta_unfold. cbn [_delta_body].
    destruct epsilon; eexists; reflexivity. }
  destruct self as [a| | |cls f|cls l s].
  - rewrite delta_unfold. eexists. reflexivity.
  - rewrite delta_unfold. eexists. reflexivity.
  - rewrite delta_unfold. eexists. reflexivity.
  - destruct cls.
    + cbn [delta_defined] in Hself. rewrite delta_unfold. cbn [_delta_body].
      rewrite Hself.
      assert (exists d, _delta f i epsilon = Ok d) as [d ->].
      { rewrite delta_unfold. destruct f; try discriminate; eexists; reflexivity. }
      eexists. reflexivity.
    + apply Hnext.
    + apply Hweak.
    + cbn [delta_defined] in Hself.
      destruct (Hlt f) as [d Hd]; [simpl; lia | exact Hself |].
      destruct (Hnext (LTLfEventually f)) as [dn Hdn].
      rewrite delta_unfold. cbn [_delta_body].
      rewrite Hd, bind_Ok, Hdn, bind_Ok.
      apply PLBinaryOperator_init_Ok. simpl. lia.
    + cbn [delta_defined] in Hself.
      destruct (Hlt f) as [d Hd]; [simpl; lia | exact Hself |].
      destruct (Hweak (LTLfAlways f)) as [dn Hdn].
      rewrite delta_unfold. cbn [_delta_body].
      rewrite Hd, bind_Ok, Hdn, bind_Ok.
      apply PLBinaryOperator_init_Ok. simpl. lia.
  - pose proof (delta_defined_binary _ _ _ Hself) as [Hlen Hl].
    assert (exists ds, comprehension (fun f => _delta f i epsilon) l = Ok ds
                       /\ Forall (fun _ => True) ds
                       /\ length ds = length l) as (ds & Hds & _ & Lds).
    { apply comprehension_Ok. apply Forall_forall. intros x Hx.
      destruct (Hlt x) as [d Hd];
        [apply weight_operand, Hx
        | eapply (proj1 (Forall_forall _ _) Hl), Hx |].
      exists d. split; [exact Hd | exact Logic.I]. }
    assert (forall c, c = C_Until \/ c = C_Release ->
               exists f1 f2,
                 getitem l 0 = Ok f1 /\ second_operand c l = Ok f2
                 /\ delta_defined f1 = true /\ delta_defined f2 = true) as Hops.
    { intros c Hc. destruct l as [|f1 [|f2 l]]; try (simpl in Hlen; lia).
      exists f1. apply Forall_cons in Hl as [N1 Hl].
      unfold second_operand, getitem, slice_from. case_bool_decide as H2.
      - destruct (delta_defined_new c (f2 :: l) Hc ltac:(simpl in *; lia) Hl)
          as (g & Hg & Ng).
        exists g. simpl. auto.
      - exists f2. apply Forall_cons in Hl as [N2 _]. simpl. auto. }
    destruct (Hnext (BinaryOperator cls l s)) as [dn Hdn].
    rewrite delta_unfold.
    destruct cls; try discriminate; cbn [_delta_body].
    + rewrite Hds, bind_Ok. apply PLBinaryOperator_init_Ok. lia.
    + rewrite Hds, bind_Ok. apply PLBinaryOperator_init_Ok. lia.
    + destruct (Hops C_Until) as (f1 & f2 & H1 & H2 & N1 & N2); [auto|].
      destruct (Hlt f2 (second_operand_weight _ _ s _ H2) N2) as (d2 & Hd2).
      destruct (Hlt f1 (getitem_weight C_Until _ s _ _ H1) N1) as (d1 & Hd1).
      rewrite H1, bind_Ok, H2, bind_Ok, Hd2, bind_Ok, Hd1, bind_Ok, Hdn, bind_Ok.
      destruct (PLBinaryOperator_init_Ok C_PLAnd [d1; dn]) as [a Ha];
        [simpl; lia|].
      rewrite Ha, bind_Ok. apply PLBinaryOperator_init_Ok. simpl. lia.
    + destruct (Hops C_Release) as (f1 & f2 & H1 & H2 & N1 & N2); [auto|].
      destruct (Hlt f2 (second_operand_weight _ _ s _ H2) N2) as (d2 & Hd2).
      destruct (Hlt f1 (getitem_weight C_Release _ s _ _ H1) N1) as (d1 & Hd1).
      rewrite H1, bind_Ok, H2, bind_Ok, Hd2, bind_Ok, Hd1, bind_Ok, Hdn, bind_Ok.
      destruct (PLBinaryOperator_init_Ok C_PLOr [d1; dn]) as [a Ha];
        [simpl; lia|].
      rewrite Ha, bind_Ok. apply PLBinaryOperator_init_Ok. simpl. lia.
Qed.

(** X15: [_delta] does not raise, whatever the interpretation and
    [epsilon], on a formula where every [LTLfNot] is on an atom and every
    binary node is an [And], [Or], [Until] or [Release] of two operands or
    more; what stands under a [Next] or a [WeakNext] is not looked at. *)
Theorem delta_does_not_raise self i epsilon :
  delta_defined self = true ->
  exists d, _delta self i epsilon = Ok d.
Proof. apply delta_Ok_defined. Qed.

Lemma PLBinaryOperator_init_two cls x y :
  PLBinaryOperator_init cls [x; y]
  = Ok (PLBinaryOperator cls (PL_popup (PLBinaryOperator cls [x; y]))).
Proof.
  unfold PLBinaryOperator_init. rewrite bool_decide_true by (simpl; lia).
  reflexivity.
Qed.

(** C6: on an [Until] node with operands [f1, f2, ...] [_delta] is
    [PLOr([_delta(g2), PLAnd([_delta(f1), _delta(Next(self))])])], and on a
    [Release] node [PLAnd([_delta(g2), PLOr([_delta(f1),
    _delta(Next(self))])])], where [g2] is the node of the same class
    built from the operands after the first when more than one remains,
    and the one remaining operand otherwise; an error of one of the calls
    is the error of [_delta].  On operands on which [_delta] is defined
    the calls return and so does [_delta], with the formula built from
    their results.  The [Release] node steps through [LTLfNext(self)] as
    the [Until] node does, so that on a letter that holds [LAST] its
    formula is true only when both [_delta(g2)] and [_delta(f1)] are. *)
Theorem delta_Until_Release f1 f2 rest formulas_set i epsilon :
  let remaining cls :=
    match rest with
    | [] => Ok f2
    | _ :: _ => new cls (f2 :: rest)
    end in
  let until := LTLfUntil (f1 :: f2 :: rest) formulas_set in
  let release := LTLfRelease (f1 :: f2 :: rest) formulas_set in
  let next self :=
    if epsilon || contains i LAST then PLAtom PLFalse else PLofLTLf self in
  _delta until i epsilon
  = (g2 ← remaining C_Until;
     d2 ← _delta g2 i epsilon;
     d1 ← _delta f1 i epsilon;
     dn ← _delta (LTLfNext until) i epsilon;
     a ← PLAnd_init [d1; dn];
     PLOr_init [d2; a])
  /\ _delta release i epsilon
     = (g2 ← remaining C_Release;
        d2 ← _delta g2 i epsilon;
        d1 ← _delta f1 i epsilon;
        dn ← _delta (LTLfNext release) i epsilon;
        o ← PLOr_init [d1; dn];
        PLAnd_init [d2; o])
  /\ (forallb delta_defined (f1 :: f2 :: rest) = true ->
      exists g2 d2 d1 g2' d2',
        remaining C_Until = Ok g2
        /\ _delta g2 i epsilon = Ok d2
        /\ _delta f1 i epsilon = Ok d1
        /\ _delta until i epsilon
           = Ok (PLOr (PL_popup
                         (PLOr [d2; PLAnd (PL_popup (PLAnd [d1; next until]))])))
        /\ remaining C_Release = Ok g2'
        /\ _delta g2' i epsilon = Ok d2'
        /\ _delta release i epsilon
           = Ok (PLAnd (PL_popup
                          (PLAnd [d2'; PLOr (PL_popup (PLOr [d1; next release]))])))
        /\ (epsilon = false -> contains i LAST = true ->
            forall b1 b2 d,
              PL_value d1 b1 -> PL_value d2' b2 ->
              _delta release i epsilon = Ok d ->
              PL_value d (b2 && b1))).
Proof.
  intros remaining until release next.
  assert (_delta until i epsilon
          = (g2 ← remaining C_Until;
             d2 ← _delta g2 i epsilon;
             d1 ← _delta f1 i epsilon;
             dn ← _delta (LTLfNext until) i epsilon;
             a ← PLAnd_init [d1; dn];
             PLOr_init [d2; a])) as EU.
  { unfold until. rewrite delta_unfold at 1. cbn [_delta_body].
    unfold second_operand, getitem, slice_from, remaining.
    destruct rest; reflexivity. }
  assert (_delta release i epsilon
          = (g2 ← remaining C_Release;
             d2 ← _delta g2 i epsilon;
             d1 ← _delta f1 i epsilon;
             dn ← _delta (LTLfNext release) i epsilon;
             o ← PLOr_init [d1; dn];
             PLAnd_init [d2; o])) as ER.
  { unfold release. rewrite delta_unfold at 1. cbn [_delta_body].
    unfold second_operand, getitem, slice_from, remaining.
    destruct rest; reflexivity. }
  split; [exact EU|]. split; [exact ER|].
  intros Hdef. apply forallb_true_Forall in Hdef.
  apply Forall_cons in Hdef as [D1 Hdef].
  assert (forall cls, cls = C_Until \/ cls = C_Release ->
                      exists g, remaining cls = Ok g /\ delta_defined g = true)
    as Hrem.
  { intros cls Hcls. unfold remaining. destruct rest as [|f3 rest'].
    - exists f2. apply Forall_cons in Hdef as [D2 _]. split; [reflexivity | exact D2].
    - apply delta_defined_new; [exact Hcls | simpl; lia | exact Hdef]. }
  destruct (Hrem C_Until) as (g2 & Hg2 & Dg2); [auto|].
  destruct (Hrem C_Release) as (g2' & Hg2' & Dg2'); [auto|].
  destruct (delta_Ok_defined g2 i epsilon Dg2) as [d2 Hd2].
  destruct (delta_Ok_defined g2' i epsilon Dg2') as [d2' Hd2'].
  destruct (delta_Ok_defined f1 i epsilon D1) as [d1 Hd1].
  assert (forall x, _delta (LTLfNext x) i epsilon = Ok (next x)) as Hnext.
  { intros x. rewrite delta_unfold. cbn [_delta_body]. unfold next.
    destruct epsilon; [reflexivity|]. destruct (contains i LAST); reflexivity. }
  assert (_delta release i epsilon
          = Ok (PLAnd (PL_popup
                         (PLAnd [d2'; PLOr (PL_popup (PLOr [d1; next release]))]))))
    as HR.
  { rewrite ER, Hg2', bind_Ok, Hd2', bind_Ok, Hd1, bind_Ok, Hnext, bind_Ok.
    rewrite PLBinaryOperator_init_two, bind_Ok. apply PLBinaryOperator_init_two. }
  exists g2, d2, d1, g2', d2'.
  split; [exact Hg2|]. split; [exact Hd2|]. split; [exact Hd1|]. split.
  { rewrite EU, Hg2, bind_Ok, Hd2, bind_Ok, Hd1, bind_Ok, Hnext, bind_Ok.
    rewrite PLBinaryOperator_init_two, bind_Ok. apply PLBinaryOperator_init_two. }
  split; [exact Hg2'|]. split; [exact Hd2'|]. split; [exact HR|].
  intros -> Hlast b1 b2 d Hv1 Hv2 Hd.
  rewrite HR in Hd. injection Hd as <-.
  assert (next release = PLAtom PLFalse) as -> by (unfold next; rewrite Hlast; reflexivity).
  destruct (PLBinaryOperator_init_value C_PLOr [d1; PLAtom PLFalse] [b1; false])
    as (o & Ho & Hvo); [simpl; lia | |].
  { constructor; [exact Hv1|]. constructor; [intros j; reflexivity|].
    constructor. }
  rewrite PLBinaryOperator_init_two in Ho. injection Ho as <-.
  destruct (PLBinaryOperator_init_value C_PLAnd
              [d2'; PLOr (PL_popup (PLOr [d1; PLAtom PLFalse]))]
              [b2; existsb id [b1; false]])
    as (d & Hd & Hv); [simpl; lia | |].
  { constructor; [exact Hv2|]. constructor; [exact Hvo|]. constructor. }
  rewrite PLBinaryOperator_init_two in Hd. injection Hd as <-.
  assert (forallb id [b2; existsb id [b1; false]] = b2 && b1) as E
    by (destruct b1, b2; reflexivity).
  rewrite E in Hv. exact Hv.
Qed.

(** ** Where [truth] does not raise *)

Lemma binary_arity_new cls l :
  (2 <= length l)%nat -> Forall (fun x => binary_arity x = true) l ->
  exists g, new cls l = Ok g /\ binary_arity g = true.
Proof.
  intros Hlen Hl. rewrite new_Ok by exact Hlen. eexists. split; [reflexivity|].
  destruct (popup_closed (fun x => binary_arity x = true) binary_arity_binary
              (BinaryOperator cls l []) cls l [] eq_refl Hl) as [Hp Hlen'].
  apply forallb_true_Forall in Hp. cbn [binary_arity].
  rewrite bool_decide_true by lia. exact Hp.
Qed.

Lemma binary_arity_Not l :
  Forall (fun x => binary_arity x = true) l ->
  Forall (fun x => binary_arity x = true) (map (fun f => LTLfNot f) l).
Proof. induction 1; constructor; assumption. Qed.

Lemma py_all_Ok {A} (g : A -> outcome bool) l :
  Forall (fun x => exists b, g x = Ok b) l -> exists b, py_all g l = Ok b.
Proof.
  induction 1 as [|x l [b Hb] _ IH]; [eexists; reflexivity|].
  rewrite py_all_cons, Hb. destruct b; [exact IH | eexists; reflexivity].
Qed.

Lemma py_any_Ok {A} (g : A -> outcome bool) l :
  Forall (fun x => exists b, g x = Ok b) l -> exists b, py_any g l = Ok b.
Proof.
  induction 1 as [|x l [b Hb] _ IH]; [eexists; reflexivity|].
  rewrite py_any_cons, Hb. destruct b; [eexists; reflexivity | exact IH].
Qed.

Lemma FiniteTrace_get_in_range i pos :
  0 <= pos < Z.of_nat (length i) -> exists l, FiniteTrace_get i pos = Ok l.
Proof.
  intros Hpos. unfold FiniteTrace_get. rewrite bool_decide_true by lia.
  unfold getitem. destruct (i !! Z.to_nat pos) as [l|] eqn:Hl.
  - exists l. reflexivity.
  - apply lookup_ge_None in Hl. lia.
Qed.

(** The formula that [_convert] returns on a node of binary arity. *)
Lemma convert_binary_arity self :
  binary_arity self = true ->
  match self with
  | LTLfWeakNext _ | LTLfEventually _ | LTLfAlways _ | LTLfRelease _ _
  | LTLfImplies _ _ | LTLfEquivalence _ _ => True
  | _ => False
  end ->
  exists c, _convert self = Ok c /\ binary_arity c = true.
Proof.
  intros Hself Hcls. destruct self as [a| | |cls f|cls l s]; try contradiction.
  - destruct cls; try contradiction; cbn [_convert].
    + eexists. split; [reflexivity | exact Hself].
    + apply binary_arity_new; [simpl; lia|].
      constructor; [reflexivity|]. constructor; [exact Hself | constructor].
    + eexists. split; [reflexivity | exact Hself].
  - apply binary_arity_binary in Hself as [Hlen Hl].
    destruct cls; try contradiction; cbn [_convert].
    + unfold Implies_convert. apply binary_arity_new.
      * unfold slice_to, slice_from.
        rewrite length_app, length_map, length_take, length_drop. lia.
      * apply Forall_app. split.
        -- apply binary_arity_Not, Forall_take, Hl.
        -- apply Forall_drop, Hl.
    + unfold Equivalence_convert.
      destruct (binary_arity_new C_And l Hlen Hl) as (p & Hp & Ap).
      destruct (binary_arity_new C_And (map (fun f => LTLfNot f) l))
        as (n & Hn & An);
        [rewrite length_map; exact Hlen | apply binary_arity_Not, Hl |].
      rewrite Hp, bind_Ok, Hn, bind_Ok.
      apply binary_arity_new; [simpl; lia|].
      constructor; [exact Ap|]. constructor; [exact An | constructor].
    + destruct (binary_arity_new C_Until (map (fun f => LTLfNot f) l))
        as (u & Hu & Au);
        [rewrite length_map; exact Hlen | apply binary_arity_Not, Hl |].
      rewrite Hu, bind_Ok. eexists. split; [reflexivity | exact Au].
Qed.

Lemma truth_Ok_in_range self i pos :
  binary_arity self = true ->
  0 <= pos < Z.of_nat (length i) ->
  exists b, truth self i pos = Ok b.
Proof.
  remember (weight self) as n eqn:Hn.
  revert self Hn pos. induction n as [n IH] using lt_wf_ind.
  intros self -> pos Hself Hpos.
  assert (forall g pos', (weight g < weight self)%nat ->
                         binary_arity g = true ->
                         0 <= pos' < Z.of_nat (length i) ->
                         exists b, truth g i pos' = Ok b) as Hlt.
  { intros g pos' Hg. eapply IH; [exact Hg | reflexivity]. }
  clear IH.
  assert (match self with
          | LTLfWeakNext _ | LTLfEventually _ | LTLfAlways _ | LTLfRelease _ _
          | LTLfImplies _ _ | LTLfEquivalence _ _ => True
          | _ => False
          end ->
          exists b, (c ← _convert self; truth c i pos) = Ok b) as Hconv.
  { intros Hcls. destruct (convert_binary_arity self Hself Hcls) as (c & Hc & Ac).
    rewrite Hc, bind_Ok. apply Hlt; [eapply convert_weight, Hc | exact Ac | exact Hpos]. }
  destruct (FiniteTrace_get_in_range i pos Hpos) as [letter Hget].
  rewrite truth_unfold.
  destruct self as [a| | |cls f|cls l s].
  - cbn [truth_body]. rewrite Hget. eexists. reflexivity.
  - cbn [truth_body]. rewrite Hget. eexists. reflexivity.
  - cbn [truth_body]. rewrite Hget. eexists. reflexivity.
  - destruct cls; cbn [truth_body].
    + destruct (Hlt f pos) as [b Hb]; [simpl; lia | exact Hself | exact Hpos |].
      rewrite Hb. eexists. reflexivity.
    + case_bool_decide as Hnext; [|eexists; reflexivity].
      apply Hlt; [simpl; lia | exact Hself |].
      unfold FiniteTrace_last in Hnext. lia.
    + apply Hconv. exact Logic.I.
    + apply Hconv. exact Logic.I.
    + apply Hconv. exact Logic.I.
  - pose proof (binary_arity_binary _ _ _ Hself) as [Hlen Hl].
    destruct cls; cbn [truth_body]; try (apply Hconv; exact Logic.I).
    + apply py_all_Ok, Forall_forall. intros x Hx.
      apply Hlt; [apply weight_operand, Hx | | exact Hpos].
      eapply (proj1 (Forall_forall _ _) Hl), Hx.
    + apply py_any_Ok, Forall_forall. intros x Hx.
      apply Hlt; [apply weight_operand, Hx | | exact Hpos].
      eapply (proj1 (Forall_forall _ _) Hl), Hx.
    + assert (exists f1 f2,
                 getitem l 0 = Ok f1 /\ second_operand C_Until l = Ok f2
                 /\ binary_arity f1 = true /\ binary_arity f2 = true)
        as (f1 & f2 & H1 & H2 & A1 & A2).
      { destruct l as [|f1 [|f2 l]]; try (simpl in Hlen; lia).
        exists f1. apply Forall_cons in Hl as [N1 Hl].
        unfold second_operand, getitem, slice_from. case_bool_decide as Hlong.
        - destruct (binary_arity_new C_Until (f2 :: l) ltac:(simpl in *; lia) Hl)
            as (g & Hg & Ng).
          exists g. simpl. auto.
        - exists f2. apply Forall_cons in Hl as [N2 _]. simpl. auto. }
      rewrite H1, bind_Ok, H2, bind_Ok.
      apply py_any_Ok, Forall_forall. intros j [Hj1 Hj2]%elem_of_range.
      unfold FiniteTrace_last in Hj2.
      destruct (Hlt f2 j (second_operand_weight _ _ s _ H2) A2) as [b2 Hb2]; [lia|].
      rewrite Hb2. destruct b2; [|eexists; reflexivity].
      apply py_all_Ok, Forall_forall. intros k [Hk1 Hk2]%elem_of_range.
      apply (Hlt f1 k (getitem_weight C_Until _ s _ _ H1) A1). lia.
Qed.

(** X16: at a position of the trace, [truth] does not raise on a formula
    whose binary nodes have two operands or more: the positions it looks
    at are positions of the trace, and the formulas it builds on the way
    are built from two operands or more. *)
Theorem truth_in_range self i pos :
  binary_arity self = true ->
  0 <= pos < Z.of_nat (length i) ->
  exists b, truth self i pos = Ok b.
Proof. apply truth_Ok_in_range. Qed.

(** ** Commutative nodes with the same operands *)

(** X17: two nodes of a commutative class built from constructed operand
    lists with the same elements, in any order and with any repetition,
    are equal ([==]). *)
Theorem new_same_operands cls l l' :
  commutative cls = true ->
  Forall constructed l -> Forall constructed l' ->
  (2 <= length l)%nat -> (2 <= length l')%nat ->
  (forall z, z ∈ l <-> z ∈ l') ->
  exists x y,
    new cls l = Ok x /\ new cls l' = Ok y /\ Formula_eq x y = true.
Proof.
  intros Hcomm Hl Hl' Hlen Hlen' Hel.
  pose proof (new_Ok cls l Hlen) as Hx. pose proof (new_Ok cls l' Hlen') as Hy.
  pose proof (constructed_binary cls l _ Hl Hx) as Cx.
  pose proof (constructed_binary cls l' _ Hl' Hy) as Cy.
  eexists. eexists. split; [exact Hx|]. split; [exact Hy|].
  rewrite Hcomm in Cx, Cy |- *.
  apply constructed_valid, valid_formulas in Cx, Cy.
  apply Formula_eq_binary_true. split; [reflexivity|]. rewrite Hcomm.
  apply frozenset_same_elements; [exact Cx | exact Cy |].
  intros z. cbn [_popup]. rewrite !list_elem_of_In, !in_flat_map.
  split; intros (y & Hy' & Hz); exists y;
    (split; [apply list_elem_of_In, Hel, list_elem_of_In, Hy' | exact Hz]).
Qed.

(** ** [_delta] before the last position: the expansion of [truth] *)

Lemma PL_truth_next_And next l j :
  PL_truth_next next (PLAnd l) j = py_all (fun f => PL_truth_next next f j) l.
Proof. reflexivity. Qed.

Lemma PL_truth_next_Or next l j :
  PL_truth_next next (PLOr l) j = py_any (fun f => PL_truth_next next f j) l.
Proof. reflexivity. Qed.

Lemma PL_popup_truth_next next d :
  forall cls l j,
    d = PLBinaryOperator cls l ->
    PL_truth_next next (PLBinaryOperator cls (PL_popup d)) j
    = PL_truth_next next d j.
Proof.
  induction d as [a|f _|c formulas IH|f] using PLFormula_nested_ind;
    intros cls l j E; try discriminate.
  injection E as -> ->. cbn [PL_popup].
  destruct cls.
  - rewrite !PL_truth_next_And.
    induction IH as [|x l Hx _ IHl]; [reflexivity|].
    cbn [flat_map]. rewrite py_all_app, py_all_cons, IHl.
    replace (py_all (fun f => PL_truth_next next f j)
               (if PL_is_class C_PLAnd x then PL_popup x else [x]))
      with (PL_truth_next next x j); [reflexivity|].
    destruct (PL_is_class C_PLAnd x) eqn:Hc;
      [|symmetry; apply (py_all_single (fun f => PL_truth_next next f j))].
    destruct x as [| |c' l'|]; try discriminate.
    simpl in Hc. apply bool_decide_eq_true in Hc as ->.
    rewrite <- PL_truth_next_And. symmetry. eapply Hx. reflexivity.
  - rewrite !PL_truth_next_Or.
    induction IH as [|x l Hx _ IHl]; [reflexivity|].
    cbn [flat_map]. rewrite py_any_app, py_any_cons, IHl.
    replace (py_any (fun f => PL_truth_next next f j)
               (if PL_is_class C_PLOr x then PL_popup x else [x]))
      with (PL_truth_next next x j); [reflexivity|].
    destruct (PL_is_class C_PLOr x) eqn:Hc;
      [|symmetry; apply (py_any_single (fun f => PL_truth_next next f j))].
    destruct x as [| |c' l'|]; try discriminate.
    simpl in Hc. apply bool_decide_eq_true in Hc as ->.
    rewrite <- PL_truth_next_Or. symmetry. eapply Hx. reflexivity.
Qed.

Lemma PLBinaryOperator_init_value_next next cls ds bs :
  (2 <= length ds)%nat ->
  Forall2 (PL_value_next next) ds bs ->
  exists d, PLBinaryOperator_init cls ds = Ok d /\
            PL_value_next next d (match cls with
                                  | C_PLAnd => forallb id bs
                                  | C_PLOr => existsb id bs
                                  end).
Proof.
  intros Hlen Hv. unfold PLBinaryOperator_init.
  rewrite bool_decide_true by exact Hlen. eexists. split; [reflexivity|].
  intros j. rewrite (PL_popup_truth_next next _ cls ds j eq_refl).
  destruct cls.
  - rewrite PL_truth_next_And. apply py_all_values.
    eapply Forall2_impl; [exact Hv|]. intros x b Hx. apply Hx.
  - rewrite PL_truth_next_Or. apply py_any_values.
    eapply Forall2_impl; [exact Hv|]. intros x b Hx. apply Hx.
Qed.

Lemma range_cons a b : a < b -> range a b = a :: range (a + 1) b.
Proof.
  intros Hab. unfold range.
  replace (Z.to_nat (b - a)) with (S (Z.to_nat (b - (a + 1)))) by lia.
  cbn [seq map]. f_equal; [lia|].
  rewrite <- seq_shift, map_map. apply map_ext. intros k. lia.
Qed.

Lemma py_any_false {A} (g : A -> outcome bool) l :
  (forall x, x ∈ l -> g x = Ok false) -> py_any g l = Ok false.
Proof.
  induction l as [|x l IH]; intros Hl; [reflexivity|].
  rewrite py_any_cons, (Hl x) by left. apply IH. intros y Hy. apply Hl. by right.
Qed.

Lemma comprehension_cons {A B} (g : A -> outcome B) x l :
  comprehension g (x :: l)
  = (y ← g x; ys ← comprehension g l; Ok (y :: ys)).
Proof.
  cbn [comprehension]. destruct (g x) as [y| |]; [|reflexivity..].
  rewrite bind_Ok.
  change ((fix go (l0 : list A) : outcome (list B) :=
             match l0 with
             | [] => Ok []
             | x0 :: l' =>
                 match g x0 with
                 | Ok y0 =>
                     match go l' with
                     | Ok ys => Ok (y0 :: ys)
                     | Raise e => Raise e
                     | OutOfFuel => OutOfFuel
                     end
                 | Raise e => Raise e
                 | OutOfFuel => OutOfFuel
                 end
             end) l)
    with (comprehension g l).
  destruct (comprehension g l); reflexivity.
Qed.

(** One step of [LTLfUntil.truth]: before the last position, the [Until]
    is true when its second operand is, or when its first operand is and
    the [Until] is true at the next position. *)
Lemma truth_Until_step l s i pos f1 g2 b1 b2 bn :
  pos < FiniteTrace_last i + 1 ->
  getitem l 0 = Ok f1 -> second_operand C_Until l = Ok g2 ->
  (forall j, pos <= j <= FiniteTrace_last i -> exists b, truth g2 i j = Ok b) ->
  truth f1 i pos = Ok b1 -> truth g2 i pos = Ok b2 ->
  truth (LTLfUntil l s) i (pos + 1) = Ok bn ->
  truth (LTLfUntil l s) i pos = Ok (b2 || (b1 && bn)).
Proof.
  intros Hpos H1 H2 Htot Hb1 Hb2 Hn.
  rewrite truth_unfold in Hn |- *. cbn [truth_body] in Hn |- *.
  rewrite H1, H2, !bind_Ok in Hn. rewrite H1, H2, !bind_Ok.
  rewrite (range_cons pos) by exact Hpos.
  rewrite py_any_cons, Hb2, range_empty.
  destruct b2; [reflexivity|].
  destruct b1; cbn [orb andb].
  - rewrite <- Hn. apply py_any_ext_in. intros j [Hj1 Hj2]%elem_of_range.
    destruct (truth g2 i j) as [[]| |]; try reflexivity.
    rewrite (range_cons pos j) by lia. rewrite py_all_cons, Hb1. reflexivity.
  - apply py_any_false. intros j [Hj1 Hj2]%elem_of_range.
    destruct (Htot j) as [b Hb]; [lia|]. rewrite Hb.
    destruct b; [|reflexivity].
    rewrite (range_cons pos j) by lia. rewrite py_all_cons, Hb1. reflexivity.
Qed.

Lemma truth_Release l s i pos :
  (2 <= length l)%nat ->
  truth (LTLfRelease l s) i pos
  = outcome_negb (truth (LTLfUntil (map (fun f => LTLfNot f) l) []) i pos).
Proof.
  intros Hlen. rewrite truth_unfold. cbn [truth_body _convert].
  rewrite new_Not by exact Hlen. cbn [commutative].
  rewrite !bind_Ok. apply truth_Not.
Qed.

(** The first and the second operand of a constructed [Until] or
    [Release] in normal form. *)
Lemma operands_constructed cls l s :
  cls = C_Until \/ cls = C_Release ->
  constructed (BinaryOperator cls l s) ->
  is_nnf (BinaryOperator cls l s) = true ->
  exists f1 l',
    l = f1 :: l' /\ constructed f1 /\ is_nnf f1 = true /\
    exists g2,
      second_operand cls l = Ok g2 /\ constructed g2 /\ is_nnf g2 = true /\
      (((2 <= length l')%nat /\ g2 = BinaryOperator cls l' []) \/ l' = [g2]).
Proof.
  intros Hcls Hc Hn.
  pose proof (constructed_popup _ _ _ Hc) as (Hlen & Hflat & _).
  pose proof (constructed_formulas_of _ Hc) as Hcs. cbn [formulas_of] in Hcs.
  pose proof (is_nnf_binary _ _ _ Hn) as [_ Hns].
  destruct l as [|f1 l']; [simpl in Hlen; lia|].
  apply Forall_cons in Hflat as [_ Hflat].
  apply Forall_cons in Hcs as [C1 Hcs].
  apply Forall_cons in Hns as [N1 Hns].
  exists f1, l'. split; [reflexivity|]. split; [exact C1|]. split; [exact N1|].
  unfold second_operand, slice_from. cbn [length drop]. rewrite drop_0.
  case_bool_decide as Hlong.
  - assert (new cls l' = Ok (BinaryOperator cls l' [])) as Hnew.
    { rewrite new_Ok by lia. rewrite (popup_fixed _ _ _ Hflat).
      destruct Hcls as [-> | ->]; reflexivity. }
    exists (BinaryOperator cls l' []). split; [exact Hnew|].
    split; [eapply constructed_binary; [exact Hcs | exact Hnew]|].
    split; [|left; split; [lia | reflexivity]].
    apply forallb_true_Forall in Hns.
    destruct Hcls as [-> | ->]; cbn [is_nnf];
      (rewrite bool_decide_true by lia); exact Hns.
  - destruct l' as [|f2 [|f3 l'']]; try (simpl in Hlen, Hlong; lia).
    exists f2. apply Forall_cons in Hcs as [C2 _].
    apply Forall_cons in Hns as [N2 _].
    split; [reflexivity|]. split; [exact C2|]. split; [exact N2|].
    right. reflexivity.
Qed.

(** The second operand of the [Until] that a [Release] converts to is the
    negation of the second operand of the [Release]. *)
Lemma Release_second_operand f1 l' g2 :
  binary_arity g2 = true ->
  ((2 <= length l')%nat /\ g2 = LTLfRelease l' []) \/ l' = [g2] ->
  exists g2',
    second_operand C_Until (map (fun f => LTLfNot f) (f1 :: l')) = Ok g2' /\
    binary_arity g2' = true /\
    forall i j b', truth g2' i j = Ok b' -> truth g2 i j = Ok (negb b').
Proof.
  intros A2 [[Hlen ->] | ->].
  - apply binary_arity_binary in A2 as [_ Al].
    destruct (binary_arity_new C_Until (map (fun f => LTLfNot f) l'))
      as (u & Hu & Au);
      [rewrite length_map; exact Hlen | apply binary_arity_Not, Al |].
    exists u. unfold second_operand, slice_from. cbn [map length drop].
    rewrite drop_0, length_map, bool_decide_true by lia.
    split; [exact Hu|]. split; [exact Au|].
    intros i j b' Hb'. rewrite truth_Release by exact Hlen.
    rewrite new_Not in Hu by exact Hlen. injection Hu as <-.
    cbn [commutative] in Hb'. rewrite Hb'. reflexivity.
  - exists (LTLfNot g2). split; [reflexivity|]. split; [exact A2|].
    intros i j b'. rewrite truth_Not.
    destruct (truth g2 i j) as [b| |]; try discriminate.
    intros Hb'. injection Hb' as <-. rewrite negb_involutive. reflexivity.
Qed.

Section Expansion.

Variable i : FiniteTrace.
Variable pos : Z.
Variable I : PLInterpretation.
Hypothesis Hpos : 0 <= pos < FiniteTrace_last i.
Hypothesis Hget : FiniteTrace_get i pos = Ok I.
Hypothesis Hlast : contains I LAST = false.

Lemma truth_next_Ok f :
  binary_arity f = true -> exists b, truth f i (pos + 1) = Ok b.
Proof.
  intros Af. apply truth_Ok_in_range; [exact Af|].
  unfold FiniteTrace_last in Hpos. lia.
Qed.

Lemma delta_Next_self g : _delta (LTLfNext g) I false = Ok (PLofLTLf g).
Proof. rewrite delta_unfold. cbn [_delta_body]. rewrite Hlast. reflexivity. Qed.

Lemma atom_expands a f :
  f = LTLfAtomic a \/ (f = LTLfTrue /\ a = PLTrue) \/ (f = LTLfFalse /\ a = PLFalse) ->
  truth f i pos = Ok (PLAtomic_truth a I) /\
  _delta f I false = Ok (LTLfAtomic_delta a I false).
Proof.
  intros [-> | [[-> ->] | [-> ->]]];
    rewrite truth_unfold, delta_unfold; cbn [truth_body _delta_body];
    rewrite Hget; split; reflexivity.
Qed.

Lemma expands_lists l :
  Forall (expands_at i pos I) l ->
  exists bs ds,
    Forall2 (fun x b => truth x i pos = Ok b) l bs /\
    comprehension (fun f => _delta f I false) l = Ok ds /\
    Forall2 (PL_value_next (fun g => truth g i (pos + 1))) ds bs /\
    length ds = length l.
Proof.
  induction 1 as [|x l (b & d & Ht & Hd & Hv) _ (bs & ds & Hts & Hds & Hvs & Hlen)].
  - exists [], []. split; [constructor|]. split; [reflexivity|].
    split; [constructor | reflexivity].
  - exists (b :: bs), (d :: ds). split; [constructor; assumption|].
    split; [rewrite comprehension_cons, Hd, bind_Ok, Hds; reflexivity|].
    split; [constructor; assumption|]. simpl. rewrite Hlen. reflexivity.
Qed.

Lemma expands_constructed self :
  constructed self -> is_nnf self = true -> expands_at i pos I self.
Proof.
  remember (weight self) as n eqn:Hn.
  revert self Hn. induction n as [n IH] using lt_wf_ind.
  intros self -> Cself Nself.
  assert (forall g, (weight g < weight self)%nat -> constructed g ->
                    is_nnf g = true -> expands_at i pos I g) as Hlt.
  { intros g Hg. eapply IH; [exact Hg | reflexivity]. }
  clear IH.
  pose proof (constructed_binary_arity _ Cself) as Aself.
  assert (forall j, pos <= j <= FiniteTrace_last i ->
                    0 <= j < Z.of_nat (length i)) as Hrange.
  { intros j Hj. unfold FiniteTrace_last in Hj. lia. }
  destruct self as [a| | |cls f|cls l s].
  - destruct (atom_expands a (LTLfAtomic a)) as [Ht Hd]; [auto|].
    exists (PLAtomic_truth a I), (LTLfAtomic_delta a I false).
    split; [exact Ht|]. split; [exact Hd|].
    intros j. unfold LTLfAtomic_delta. destruct (PLAtomic_truth a I); reflexivity.
  - destruct (atom_expands PLTrue LTLfTrue) as [Ht Hd]; [auto|].
    exists true, (PLAtom PLTrue). split; [exact Ht|]. split; [exact Hd|].
    intros j. reflexivity.
  - destruct (atom_expands PLFalse LTLfFalse) as [Ht Hd]; [auto|].
    exists false, (PLAtom PLFalse). split; [exact Ht|]. split; [exact Hd|].
    intros j. reflexivity.
  - cbn [binary_arity] in Aself. destruct cls; try discriminate.
    + cbn [is_nnf] in Nself.
      destruct (isinstance_LTLfAtomic_inv f Nself) as [a Ha].
      destruct (atom_expands a f Ha) as [Ht Hd].
      exists (negb (PLAtomic_truth a I)),
        (if PLAtomic_truth a I then PLAtom PLFalse else PLAtom PLTrue).
      rewrite truth_unfold, delta_unfold. cbn [truth_body _delta_body].
      rewrite Nself, Ht, Hd. unfold LTLfAtomic_delta.
      destruct (PLAtomic_truth a I);
        (split; [reflexivity|]; split; [reflexivity|]; intros j; reflexivity).
    + destruct (truth_next_Ok f Aself) as [b Hb].
      exists b, (PLofLTLf f). split; [|split; [apply delta_Next_self|]].
      * rewrite truth_unfold. cbn [truth_body].
        rewrite bool_decide_true by lia. exact Hb.
      * intros j. exact Hb.
    + destruct (truth_next_Ok f Aself) as [b Hb].
      exists b, (PLofLTLf f). split; [|split].
      * rewrite truth_unfold. cbn [truth_body _convert].
        rewrite bind_Ok, truth_Not, truth_unfold. cbn [truth_body].
        rewrite bool_decide_true by lia. rewrite truth_Not, Hb.
        simpl. rewrite negb_involutive. reflexivity.
      * rewrite delta_unfold. cbn [_delta_body]. rewrite Hlast. reflexivity.
      * intros j. exact Hb.
  - pose proof (constructed_formulas_of _ Cself) as Cl. cbn [formulas_of] in Cl.
    pose proof (is_nnf_binary _ _ _ Nself) as [Hlen Nl].
    assert (Forall (expands_at i pos I) l) as Hex.
    { apply Forall_forall. intros x Hx. apply Hlt.
      - apply weight_operand, Hx.
      - eapply (proj1 (Forall_forall _ _) Cl), Hx.
      - eapply (proj1 (Forall_forall _ _) Nl), Hx. }
    destruct (expands_lists l Hex) as (bs & ds & Hts & Hds & Hvs & Hlen').
    destruct (truth_next_Ok _ Aself) as [bn Hbn].
    destruct cls; try discriminate.
    + destruct (PLBinaryOperator_init_value_next
                  (fun g => truth g i (pos + 1)) C_PLAnd ds bs) as (d & Hd & Hv);
        [lia | exact Hvs |].
      exists (forallb id bs), d.
      rewrite truth_unfold, delta_unfold. cbn [truth_body _delta_body].
      rewrite Hds, bind_Ok. split; [apply py_all_values, Hts|]. split; assumption.
    + destruct (PLBinaryOperator_init_value_next
                  (fun g => truth g i (pos + 1)) C_PLOr ds bs) as (d & Hd & Hv);
        [lia | exact Hvs |].
      exists (existsb id bs), d.
      rewrite truth_unfold, delta_unfold. cbn [truth_body _delta_body].
      rewrite Hds, bind_Ok. split; [apply py_any_values, Hts|]. split; assumption.
    + destruct (operands_constructed C_Until l s) as
        (f1 & l' & -> & C1 & N1 & g2 & Hg2 & C2 & N2 & _);
        [auto | exact Cself | exact Nself |].
      destruct (Hlt g2) as (b2 & d2 & Ht2 & Hd2 & Hv2);
        [eapply second_operand_weight, Hg2 | exact C2 | exact N2 |].
      destruct (Hlt f1) as (b1 & d1 & Ht1 & Hd1 & Hv1);
        [apply weight_operand; left | exact C1 | exact N1 |].
      destruct (PLBinaryOperator_init_value_next
                  (fun g => truth g i (pos + 1)) C_PLAnd
                  [d1; PLofLTLf (LTLfUntil (f1 :: l') s)] [b1; bn])
        as (a & Ha & Hva); [simpl; lia | |].
      { constructor; [exact Hv1|]. constructor; [intros j; exact Hbn|].
        constructor. }
      destruct (PLBinaryOperator_init_value_next
                  (fun g => truth g i (pos + 1)) C_PLOr
                  [d2; a] [b2; forallb id [b1; bn]])
        as (d & Hd & Hv); [simpl; lia | |].
      { constructor; [exact Hv2|]. constructor; [exact Hva|]. constructor. }
      exists (b2 || (b1 && bn)), d. split; [|split].
      * apply (truth_Until_step (f1 :: l') s i pos f1 g2 b1 b2 bn);
          [lia | reflexivity | exact Hg2 | | exact Ht1 | exact Ht2 | exact Hbn].
        intros j Hj. apply truth_Ok_in_range;
          [apply constructed_binary_arity, C2 | apply Hrange, Hj].
      * rewrite delta_unfold. cbn [_delta_body]. rewrite Hg2.
        unfold getitem. cbn [lookup list_lookup].
        rewrite !bind_Ok, Hd2, bind_Ok, Hd1, bind_Ok.
        rewrite delta_Next_self, bind_Ok, Ha, bind_Ok. exact Hd.
      * assert (existsb id [b2; forallb id [b1; bn]] = b2 || (b1 && bn)) as E
          by (destruct b1, b2, bn; reflexivity).
        rewrite E in Hv. exact Hv.
    + destruct (operands_constructed C_Release l s) as
        (f1 & l' & -> & C1 & N1 & g2 & Hg2 & C2 & N2 & Hshape);
        [auto | exact Cself | exact Nself |].
      pose proof (constructed_binary_arity _ C2) as A2.
      destruct (Release_second_operand f1 l' g2 A2 Hshape)
        as (g2' & Hg2' & A2' & Hneg).
      destruct (binary_arity_new C_Until (map (fun f => LTLfNot f) (f1 :: l')))
        as (u & Hu & Au);
        [rewrite length_map; exact Hlen
        | apply binary_arity_binary in Aself as [_ Al];
          apply binary_arity_Not, Al |].
      rewrite new_Not in Hu by exact Hlen. injection Hu as <-.
      cbn [commutative] in Au.
      destruct (Hlt g2) as (b2 & d2 & Ht2 & Hd2 & Hv2);
        [eapply second_operand_weight, Hg2 | exact C2 | exact N2 |].
      destruct (Hlt f1) as (b1 & d1 & Ht1 & Hd1 & Hv1);
        [apply weight_operand; left | exact C1 | exact N1 |].
      destruct (truth_Ok_in_range g2' i pos A2') as [b2' Ht2'];
        [apply Hrange; lia|].
      pose proof (Hneg i pos b2' Ht2') as Ht2n. rewrite Ht2 in Ht2n.
      injection Ht2n as ->.
      destruct (truth_next_Ok _ Au) as [bn' Hbn'].
      assert (truth (LTLfRelease (f1 :: l') s) i (pos + 1) = Ok (negb bn')) as Hrn.
      { rewrite truth_Release by exact Hlen. cbn [map]. rewrite Hbn'.
        reflexivity. }
      assert (truth (LTLfUntil (map (fun f => LTLfNot f) (f1 :: l')) []) i pos
              = Ok (b2' || (negb b1 && bn'))) as Hu.
      { apply (truth_Until_step _ [] i pos (LTLfNot f1) g2' (negb b1) b2' bn');
          [lia | reflexivity | exact Hg2' | | | exact Ht2' | exact Hbn'].
        - intros j Hj. apply truth_Ok_in_range; [exact A2' | apply Hrange, Hj].
        - rewrite truth_Not, Ht1. reflexivity. }
      destruct (PLBinaryOperator_init_value_next
                  (fun g => truth g i (pos + 1)) C_PLOr
                  [d1; PLofLTLf (LTLfRelease (f1 :: l') s)] [b1; negb bn'])
        as (o & Ho & Hvo); [simpl; lia | |].
      { constructor; [exact Hv1|]. constructor; [intros j; exact Hrn|].
        constructor. }
      destruct (PLBinaryOperator_init_value_next
                  (fun g => truth g i (pos + 1)) C_PLAnd
                  [d2; o] [negb b2'; existsb id [b1; negb bn']])
        as (d & Hd & Hv); [simpl; lia | |].
      { constructor; [exact Hv2|]. constructor; [exact Hvo|]. constructor. }
      exists (negb (b2' || (negb b1 && bn'))), d. split; [|split].
      * rewrite truth_Release by exact Hlen. rewrite Hu. reflexivity.
      * rewrite delta_unfold. cbn [_delta_body]. rewrite Hg2.
        unfold getitem. cbn [lookup list_lookup].
        rewrite !bind_Ok, Hd2, bind_Ok, Hd1, bind_Ok.
        rewrite delta_Next_self, bind_Ok, Ho, bind_Ok. exact Hd.
      * assert (forallb id [negb b2'; existsb id [b1; negb bn']]
                = negb (b2' || (negb b1 && bn'))) as E
          by (destruct b1, b2', bn'; reflexivity).
        rewrite E in Hv. exact Hv.
Qed.

End Expansion.

(** X18: before the last position of a trace, on a letter [I] that does
    not hold [LAST], [_delta] is the one-step expansion of [truth]: on a
    constructed formula in negative normal form, [truth] at [pos] returns
    a Boolean, [_delta(I, epsilon=False)] returns a formula, and that
    formula, with the LTLf formulas it holds read at [pos + 1], has this
    Boolean as its truth value.  [Release] is included. *)
Theorem delta_expands_truth self i pos I :
  constructed self -> is_nnf self = true ->
  0 <= pos < FiniteTrace_last i ->
  FiniteTrace_get i pos = Ok I ->
  contains I LAST = false ->
  exists (b : bool) (d : PLFormula),
    truth self i pos = Ok b /\
    _delta self I false = Ok d /\
    PL_value_next (fun g => truth g i (pos + 1)) d b.
Proof.
  intros Cself Nself Hpos Hget Hlast.
  apply (expands_constructed i pos I Hpos Hget Hlast self Cself Nself).
Qed.

End Flloat.

(** * The claims at concrete inputs *)

Lemma sample_hash_frozenset_perm (hs hs' : list Z) :
  hs ≡ₚ hs' -> sample_hash_frozenset hs = sample_hash_frozenset hs'.
Proof.
  unfold sample_hash_frozenset.
  induction 1 as [|x l l' _ IH|x y l|l l' l'' _ IH1 _ IH2]; simpl.
  - reflexivity.
  - rewrite IH. reflexivity.
  - rewrite <- !Z.lxor_assoc, (Z.lxor_comm y x). reflexivity.
  - rewrite IH1. exact IH2.
Qed.

(** C2, the claim as stated fails: on the empty interpretation, [delta] of
    [LTLfTrue] with [epsilon=True] is [PLFalse], which is not [PLTrue]. *)
Lemma delta_LTLfTrue_epsilon_is_not_PLTrue :
  delta sample_Symbols_value sample_hash_str sample_hash_type
    sample_hash_PLAtomic sample_hash_tuple sample_hash_frozenset
    LTLfTrue (PLInterp ∅) true = Ok (PLAtom PLFalse)
  /\ Ok (PLAtom PLFalse) <> Ok (PLAtom PLTrue).
Proof. split; [reflexivity | discriminate]. Qed.

(** C3 at the atom [a] and the empty interpretation: [delta] of
    [Not(Atomic a)] with [epsilon=True] is [PLTrue], which is not the
    [PLFalse] of the claim. *)
Lemma delta_Not_Atomic_epsilon_is_not_PLFalse :
  delta sample_Symbols_value sample_hash_str sample_hash_type
    sample_hash_PLAtomic sample_hash_tuple sample_hash_frozenset
    (LTLfNot (LTLfAtomic (PLAtomic "a"))) (PLInterp ∅) true = Ok (PLAtom PLTrue)
  /\ Ok (PLAtom PLTrue) <> Ok (PLAtom PLFalse).
Proof. split; [reflexivity | discriminate]. Qed.

(** C4 at [And([a, Eventually(b)])] and the interpretation [{a}]. *)
Lemma delta_epsilon_collapses_witness :
  let self :=
    LTLfAnd [LTLfAtomic (PLAtomic "a"); LTLfEventually (LTLfAtomic (PLAtomic "b"))]
            [LTLfAtomic (PLAtomic "a"); LTLfEventually (LTLfAtomic (PLAtomic "b"))] in
  let delta :=
    delta sample_Symbols_value sample_hash_str sample_hash_type
      sample_hash_PLAtomic sample_hash_tuple sample_hash_frozenset in
  let _delta :=
    _delta sample_Symbols_value sample_hash_str sample_hash_type
      sample_hash_PLAtomic sample_hash_tuple sample_hash_frozenset in
  let to_nnf :=
    to_nnf sample_Symbols_value sample_hash_str sample_hash_type
      sample_hash_PLAtomic sample_hash_tuple sample_hash_frozenset in
  constructed sample_Symbols_value sample_hash_str sample_hash_type
    sample_hash_PLAtomic sample_hash_tuple sample_hash_frozenset self
  /\ exists b : bool,
      delta self (PLInterp {[ "a" ]}) true
      = Ok (if b then PLAtom PLTrue else PLAtom PLFalse)
      /\ exists f d,
           to_nnf self = Ok f
           /\ _delta f (PLInterp {[ "a" ]}) true = Ok d
           /\ forall j, PL_truth d j = Ok b.
Proof.
  assert (constructed sample_Symbols_value sample_hash_str sample_hash_type
            sample_hash_PLAtomic sample_hash_tuple sample_hash_frozenset
            (LTLfAnd [LTLfAtomic (PLAtomic "a");
                      LTLfEventually (LTLfAtomic (PLAtomic "b"))]
                     [LTLfAtomic (PLAtomic "a");
                      LTLfEventually (LTLfAtomic (PLAtomic "b"))])) as H.
  { eapply (constructed_binary _ _ _ _ _ _ C_And
              [LTLfAtomic (PLAtomic "a");
               LTLfEventually (LTLfAtomic (PLAtomic "b"))]).
    - repeat constructor.
    - reflexivity. }
  split; [exact H|].
  exact (delta_epsilon_collapses _ _ _ _ _ _ _ (PLInterp {[ "a" ]}) H).
Defined.

(** C6 at the atoms [a] and [b], the letter [{b, last}] and
    [epsilon=False]: [_delta] returns on [Until([a, b])] and on
    [Release([a, b])], and the formula of the [Release] is true only when
    both [_delta(b)] and [_delta(a)] are. *)
Lemma delta_Until_Release_witness :
  let a := LTLfAtomic (PLAtomic "a") in
  let b := LTLfAtomic (PLAtomic "b") in
  let until := LTLfUntil [a; b] [] in
  let release := LTLfRelease [a; b] [] in
  let I := PLInterp {[ LAST sample_Symbols_value; "b" ]} in
  let _delta :=
    _delta sample_Symbols_value sample_hash_str sample_hash_type
      sample_hash_PLAtomic sample_hash_tuple sample_hash_frozenset in
  forallb delta_defined [a; b] = true
  /\ contains I (LAST sample_Symbols_value) = true
  /\ exists g2 d2 d1 g2' d2',
       Ok b = Ok g2
       /\ _delta g2 I false = Ok d2
       /\ _delta a I false = Ok d1
       /\ _delta until I false
          = Ok (PLOr (PL_popup
                        (PLOr [d2; PLAnd (PL_popup (PLAnd [d1; PLAtom PLFalse]))])))
       /\ Ok b = Ok g2'
       /\ _delta g2' I false = Ok d2'
       /\ _delta release I false
          = Ok (PLAnd (PL_popup
                         (PLAnd [d2'; PLOr (PL_popup (PLOr [d1; PLAtom PLFalse]))])))
       /\ (forall b1 b2 d,
             PL_value d1 b1 -> PL_value d2' b2 ->
             _delta release I false = Ok d ->
             PL_value d (b2 && b1)).
Proof.
  intros a b until release I _delta'.
  assert (contains I (LAST sample_Symbols_value) = true) as Hlast.
  { apply bool_decide_eq_true_2. set_solver. }
  split; [reflexivity|]. split; [exact Hlast|].
  destruct (proj2 (proj2 (delta_Until_Release
                            sample_Symbols_value sample_hash_str sample_hash_type
                            sample_hash_PLAtomic sample_hash_tuple
                            sample_hash_frozenset a b [] [] I false)) eq_refl)
    as (g2 & d2 & d1 & g2' & d2' & Hg2 & Hd2 & Hd1 & HU & Hg2' & Hd2' & HR & Hv).
  exists g2, d2, d1, g2', d2'.
  split; [exact Hg2|]. split; [exact Hd2|]. split; [exact Hd1|].
  split; [rewrite Hlast in HU; exact HU|].
  split; [exact Hg2'|]. split; [exact Hd2'|].
  split; [rewrite Hlast in HR; exact HR|].
  exact (Hv eq_refl Hlast).
Defined.

(** C9 at the class [LTLfAnd] and the atoms [a], [b] and [c]. *)
Lemma binary_operator_flattens_and_commutes_witness :
  let a := LTLfAtomic (PLAtomic "a") in
  let b := LTLfAtomic (PLAtomic "b") in
  let c := LTLfAtomic (PLAtomic "c") in
  let constructed :=
    constructed sample_Symbols_value sample_hash_str sample_hash_type
      sample_hash_PLAtomic sample_hash_tuple sample_hash_frozenset in
  let new :=
    new sample_Symbols_value sample_hash_str sample_hash_type
      sample_hash_PLAtomic sample_hash_tuple sample_hash_frozenset in
  let Formula_eq :=
    Formula_eq sample_Symbols_value sample_hash_str sample_hash_type
      sample_hash_PLAtomic sample_hash_tuple sample_hash_frozenset in
  constructed a /\ constructed b /\ constructed c
  /\ exists ab abc flat,
      new C_And [a; b] = Ok ab
      /\ new C_And [ab; c] = Ok abc
      /\ new C_And [a; b; c] = Ok flat
      /\ formulas_of abc = formulas_of flat
      /\ Formula_eq abc flat = true
      /\ (type_of a <> T_Binary C_And -> type_of b <> T_Binary C_And ->
          type_of c <> T_Binary C_And -> formulas_of abc = [a; b; c])
      /\ (commutative C_And = true ->
          exists ba aab,
            new C_And [b; a] = Ok ba
            /\ Formula_eq ab ba = true
            /\ new C_And [a; a; b] = Ok aab
            /\ Formula_eq aab ab = true).
Proof.
  intros a b c constructed' new' Formula_eq'.
  assert (constructed' a) as Ca by constructor.
  assert (constructed' b) as Cb by constructor.
  assert (constructed' c) as Cc by constructor.
  split; [exact Ca|]. split; [exact Cb|]. split; [exact Cc|].
  exact (binary_operator_flattens_and_commutes
           sample_Symbols_value sample_hash_str sample_hash_type
           sample_hash_PLAtomic sample_hash_tuple sample_hash_frozenset
           C_And a b c Ca Cb Cc).
Defined.

(** C10 at [And([a, b])] and [And([b, a])], whose keys [a] and [b] have
    the same hash in the sample instance. *)
Lemma Formula_eq_hash_witness :
  let a := LTLfAtomic (PLAtomic "a") in
  let b := LTLfAtomic (PLAtomic "b") in
  let phi := LTLfAnd [a; b] [a; b] in
  let psi := LTLfAnd [b; a] [b; a] in
  let constructed :=
    constructed sample_Symbols_value sample_hash_str sample_hash_type
      sample_hash_PLAtomic sample_hash_tuple sample_hash_frozenset in
  let Formula_eq :=
    Formula_eq sample_Symbols_value sample_hash_str sample_hash_type
      sample_hash_PLAtomic sample_hash_tuple sample_hash_frozenset in
  let Formula_hash :=
    Formula_hash sample_Symbols_value sample_hash_str sample_hash_type
      sample_hash_PLAtomic sample_hash_tuple sample_hash_frozenset in
  constructed phi /\ constructed psi
  /\ Formula_eq phi psi = true
  /\ Formula_hash phi = Formula_hash psi.
Proof.
  intros a b phi psi constructed' Formula_eq' Formula_hash'.
  assert (constructed' phi) as Cphi.
  { eapply (constructed_binary _ _ _ _ _ _ C_And [a; b]);
      [repeat constructor | reflexivity]. }
  assert (constructed' psi) as Cpsi.
  { eapply (constructed_binary _ _ _ _ _ _ C_And [b; a]);
      [repeat constructor | reflexivity]. }
  assert (Formula_eq' phi psi = true) as Heq by reflexivity.
  split; [exact Cphi|]. split; [exact Cpsi|]. split; [exact Heq|].
  exact (Formula_eq_hash
           sample_Symbols_value sample_hash_str sample_hash_type
           sample_hash_PLAtomic sample_hash_tuple sample_hash_frozenset
           sample_hash_frozenset_perm phi psi Cphi Cpsi Heq).
Defined.

(** * The further properties at concrete inputs *)

(** X1 at [And([a, b])]. *)
Lemma constructed_operands_witness :
  let a := LTLfAtomic (PLAtomic "a") in
  let b := LTLfAtomic (PLAtomic "b") in
  let constructed :=
    constructed sample_Symbols_value sample_hash_str sample_hash_type
      sample_hash_PLAtomic sample_hash_tuple sample_hash_frozenset in
  let frozenset :=
    frozenset sample_Symbols_value sample_hash_str sample_hash_type
      sample_hash_PLAtomic sample_hash_tuple sample_hash_frozenset in
  constructed (LTLfAnd [a; b] [a; b])
  /\ (2 <= length [a; b])%nat
  /\ Forall (fun x => constructed x /\ type_of x <> T_Binary C_And) [a; b]
  /\ [a; b] = (if commutative C_And then frozenset [a; b] else []).
Proof.
  intros a b constructed' frozenset'.
  assert (constructed' (LTLfAnd [a; b] [a; b])) as H.
  { eapply (constructed_binary _ _ _ _ _ _ C_And [a; b]);
      [repeat constructor | reflexivity]. }
  split; [exact H|].
  exact (constructed_operands
           sample_Symbols_value sample_hash_str sample_hash_type
           sample_hash_PLAtomic sample_hash_tuple sample_hash_frozenset
           C_And [a; b] [a; b] H).
Defined.

(** X2 at [Until([a, b, c])] and the slice [formulas[1:]]. *)
Lemma new_from_operands_witness :
  let a := LTLfAtomic (PLAtomic "a") in
  let b := LTLfAtomic (PLAtomic "b") in
  let c := LTLfAtomic (PLAtomic "c") in
  let constructed :=
    constructed sample_Symbols_value sample_hash_str sample_hash_type
      sample_hash_PLAtomic sample_hash_tuple sample_hash_frozenset in
  let new :=
    new sample_Symbols_value sample_hash_str sample_hash_type
      sample_hash_PLAtomic sample_hash_tuple sample_hash_frozenset in
  let frozenset :=
    frozenset sample_Symbols_value sample_hash_str sample_hash_type
      sample_hash_PLAtomic sample_hash_tuple sample_hash_frozenset in
  constructed (LTLfUntil [a; b; c] [])
  /\ (2 <= length (slice_from 1 [a; b; c]))%nat
  /\ new C_Until (slice_from 1 [a; b; c])
     = Ok (BinaryOperator C_Until (slice_from 1 [a; b; c])
             (if commutative C_Until
              then frozenset (slice_from 1 [a; b; c]) else [])).
Proof.
  intros a b c constructed' new' frozenset'.
  assert (constructed' (LTLfUntil [a; b; c] [])) as H.
  { eapply (constructed_binary _ _ _ _ _ _ C_Until [a; b; c]);
      [repeat constructor | reflexivity]. }
  assert (2 <= length (slice_from 1 [a; b; c]))%nat as Hlen by (simpl; lia).
  split; [exact H|]. split; [exact Hlen|].
  exact (new_from_operands
           sample_Symbols_value sample_hash_str sample_hash_type
           sample_hash_PLAtomic sample_hash_tuple sample_hash_frozenset
           C_Until [a; b; c] [] 1%nat H Hlen).
Defined.

(** X4 at [And([a, b, a])], whose set has the keys [a] and [b]. *)
Lemma formulas_set_invariant_witness :
  let a := LTLfAtomic (PLAtomic "a") in
  let b := LTLfAtomic (PLAtomic "b") in
  let constructed :=
    constructed sample_Symbols_value sample_hash_str sample_hash_type
      sample_hash_PLAtomic sample_hash_tuple sample_hash_frozenset in
  let distinct_keys :=
    distinct_keys sample_Symbols_value sample_hash_str sample_hash_type
      sample_hash_PLAtomic sample_hash_tuple sample_hash_frozenset in
  let set_contains :=
    set_contains sample_Symbols_value sample_hash_str sample_hash_type
      sample_hash_PLAtomic sample_hash_tuple sample_hash_frozenset in
  constructed (LTLfAnd [a; b; a] [a; b])
  /\ commutative C_And = true
  /\ distinct_keys [a; b]
  /\ (forall key, key ∈ [a; b] -> key ∈ [a; b; a])
  /\ (forall x, x ∈ [a; b; a] -> set_contains [a; b] x = true)
  /\ (1 <= length [a; b] <= length [a; b; a])%nat.
Proof.
  intros a b constructed' distinct_keys' set_contains'.
  assert (constructed' (LTLfAnd [a; b; a] [a; b])) as H.
  { eapply (constructed_binary _ _ _ _ _ _ C_And [a; b; a]);
      [repeat constructor | reflexivity]. }
  split; [exact H|]. split; [reflexivity|].
  exact (formulas_set_invariant
           sample_Symbols_value sample_hash_str sample_hash_type
           sample_hash_PLAtomic sample_hash_tuple sample_hash_frozenset
           C_And [a; b; a] [a; b] H eq_refl).
Defined.

(** X5 at [And([a, b])], [And([b, a])] and [And([a, b, a])]. *)
Lemma Formula_eq_equivalence_witness :
  let a := LTLfAtomic (PLAtomic "a") in
  let b := LTLfAtomic (PLAtomic "b") in
  let phi := LTLfAnd [a; b] [a; b] in
  let psi := LTLfAnd [b; a] [b; a] in
  let chi := LTLfAnd [a; b; a] [a; b] in
  let constructed :=
    constructed sample_Symbols_value sample_hash_str sample_hash_type
      sample_hash_PLAtomic sample_hash_tuple sample_hash_frozenset in
  let Formula_eq :=
    Formula_eq sample_Symbols_value sample_hash_str sample_hash_type
      sample_hash_PLAtomic sample_hash_tuple sample_hash_frozenset in
  constructed phi /\ constructed psi /\ constructed chi
  /\ Formula_eq phi phi = true
  /\ (Formula_eq phi psi = true -> Formula_eq psi phi = true)
  /\ (Formula_eq phi psi = true -> Formula_eq psi chi = true ->
      Formula_eq phi chi = true)
  /\ (Formula_eq phi psi = true -> type_of phi = type_of psi).
Proof.
  intros a b phi psi chi constructed' Formula_eq'.
  assert (constructed' phi) as Cphi.
  { eapply (constructed_binary _ _ _ _ _ _ C_And [a; b]);
      [repeat constructor | reflexivity]. }
  assert (constructed' psi) as Cpsi.
  { eapply (constructed_binary _ _ _ _ _ _ C_And [b; a]);
      [repeat constructor | reflexivity]. }
  assert (constructed' chi) as Cchi.
  { eapply (constructed_binary _ _ _ _ _ _ C_And [a; b; a]);
      [repeat constructor | reflexivity]. }
  split; [exact Cphi|]. split; [exact Cpsi|]. split; [exact Cchi|].
  exact (Formula_eq_equivalence
           sample_Symbols_value sample_hash_str sample_hash_type
           sample_hash_PLAtomic sample_hash_tuple sample_hash_frozenset
           phi psi chi Cphi Cpsi Cchi).
Defined.

(** X6 at the operands [And([a, b])] and [c] of an [And]. *)
Lemma popup_one_level_agrees_witness :
  let a := LTLfAtomic (PLAtomic "a") in
  let b := LTLfAtomic (PLAtomic "b") in
  let c := LTLfAtomic (PLAtomic "c") in
  let ab := LTLfAnd [a; b] [a; b] in
  let constructed :=
    constructed sample_Symbols_value sample_hash_str sample_hash_type
      sample_hash_PLAtomic sample_hash_tuple sample_hash_frozenset in
  Forall constructed [ab; c]
  /\ _popup_one_level (BinaryOperator C_And [ab; c] [])
     = _popup (BinaryOperator C_And [ab; c] []).
Proof.
  intros a b c ab constructed'.
  assert (Forall constructed' [ab; c]) as H.
  { constructor; [|repeat constructor].
    eapply (constructed_binary _ _ _ _ _ _ C_And [a; b]);
      [repeat constructor | reflexivity]. }
  split; [exact H|].
  exact (popup_one_level_agrees
           sample_Symbols_value sample_hash_str sample_hash_type
           sample_hash_PLAtomic sample_hash_tuple sample_hash_frozenset
           C_And [ab; c] [] H).
Defined.

(** X8 at [Until([a, b])], the empty interpretation and [epsilon=True]. *)
Lemma delta_last_step_constants_witness :
  let a := LTLfAtomic (PLAtomic "a") in
  let b := LTLfAtomic (PLAtomic "b") in
  let _delta :=
    _delta sample_Symbols_value sample_hash_str sample_hash_type
      sample_hash_PLAtomic sample_hash_tuple sample_hash_frozenset in
  let d := PLOr [PLAtom PLFalse; PLAnd [PLAtom PLFalse; PLAtom PLFalse]] in
  (true = true \/ contains (PLInterp ∅) (LAST sample_Symbols_value) = true)
  /\ _delta (LTLfUntil [a; b] []) (PLInterp ∅) true = Ok d
  /\ constants_only d = true
  /\ exists v, PL_value d v.
Proof.
  intros a b _delta' d.
  assert (true = true
          \/ contains (PLInterp ∅) (LAST sample_Symbols_value) = true) as Hlast
    by (left; reflexivity).
  assert (_delta' (LTLfUntil [a; b] []) (PLInterp ∅) true = Ok d) as Hd
    by reflexivity.
  split; [exact Hlast|]. split; [exact Hd|].
  exact (delta_last_step_constants
           sample_Symbols_value sample_hash_str sample_hash_type
           sample_hash_PLAtomic sample_hash_tuple sample_hash_frozenset
           (LTLfUntil [a; b] []) (PLInterp ∅) true d Hlast Hd).
Defined.

(** X9 at [Until([a, b])] and the one-letter trace whose letter holds
    [LAST] alone. *)
Lemma delta_agrees_with_truth_at_last_witness :
  let a := LTLfAtomic (PLAtomic "a") in
  let b := LTLfAtomic (PLAtomic "b") in
  let self := LTLfUntil [a; b] [] in
  let I := PLInterp {[ LAST sample_Symbols_value ]} in
  let i := [I] in
  let truth :=
    truth sample_Symbols_value sample_hash_str sample_hash_type
      sample_hash_PLAtomic sample_hash_tuple sample_hash_frozenset in
  let _delta :=
    _delta sample_Symbols_value sample_hash_str sample_hash_type
      sample_hash_PLAtomic sample_hash_tuple sample_hash_frozenset in
  is_nnf self = true /\ Release_free self = true
  /\ FiniteTrace_get i (FiniteTrace_last i) = Ok I
  /\ contains I (LAST sample_Symbols_value) = true
  /\ exists (v : bool) (d : PLFormula),
       truth self i (FiniteTrace_last i) = Ok v
       /\ _delta self I false = Ok d
       /\ PL_value d v.
Proof.
  intros a b self I i truth' _delta'.
  assert (is_nnf self = true) as Hn by reflexivity.
  assert (Release_free self = true) as Hr by reflexivity.
  assert (FiniteTrace_get i (FiniteTrace_last i) = Ok I) as Hget by reflexivity.
  assert (contains I (LAST sample_Symbols_value) = true) as Hlast.
  { apply bool_decide_eq_true_2, elem_of_singleton. reflexivity. }
  split; [exact Hn|]. split; [exact Hr|]. split; [exact Hget|].
  split; [exact Hlast|].
  exact (delta_agrees_with_truth_at_last
           sample_Symbols_value sample_hash_str sample_hash_type
           sample_hash_PLAtomic sample_hash_tuple sample_hash_frozenset
           self i I Hn Hr Hget Hlast).
Defined.

(** X10 at the atoms [a] and [b] and the one-letter trace whose letter
    holds [LAST] and [b]: [Release([a, b])] is true there, and the formula
    [_delta] returns is false. *)
Lemma Release_at_last_witness :
  let a := LTLfAtomic (PLAtomic "a") in
  let b := LTLfAtomic (PLAtomic "b") in
  let I := PLInterp {[ LAST sample_Symbols_value; "b" ]} in
  let i := [I] in
  let truth :=
    truth sample_Symbols_value sample_hash_str sample_hash_type
      sample_hash_PLAtomic sample_hash_tuple sample_hash_frozenset in
  let _delta :=
    _delta sample_Symbols_value sample_hash_str sample_hash_type
      sample_hash_PLAtomic sample_hash_tuple sample_hash_frozenset in
  is_nnf a = true /\ Release_free a = true
  /\ is_nnf b = true /\ Release_free b = true
  /\ FiniteTrace_get i (FiniteTrace_last i) = Ok I
  /\ contains I (LAST sample_Symbols_value) = true
  /\ exists (b1 b2 : bool) (d : PLFormula),
       truth a i (FiniteTrace_last i) = Ok b1
       /\ truth b i (FiniteTrace_last i) = Ok b2
       /\ truth (LTLfRelease [a; b] []) i (FiniteTrace_last i) = Ok b2
       /\ _delta (LTLfRelease [a; b] []) I false = Ok d
       /\ PL_value d (b2 && b1).
Proof.
  intros a b I i truth' _delta'.
  assert (FiniteTrace_get i (FiniteTrace_last i) = Ok I) as Hget by reflexivity.
  assert (contains I (LAST sample_Symbols_value) = true) as Hlast.
  { apply bool_decide_eq_true_2. set_solver. }
  split; [reflexivity|]. split; [reflexivity|].
  split; [reflexivity|]. split; [reflexivity|].
  split; [exact Hget|]. split; [exact Hlast|].
  exact (Release_at_last
           sample_Symbols_value sample_hash_str sample_hash_type
           sample_hash_PLAtomic sample_hash_tuple sample_hash_frozenset
           a b i I eq_refl eq_refl eq_refl eq_refl Hget Hlast).
Defined.

(** X11 at the atom [a], a trace of two letters and position [0]. *)
Lemma truth_Eventually_witness :
  let a := LTLfAtomic (PLAtomic "a") in
  let i := [PLInterp ∅; PLInterp {[ "a" ]}] in
  let truth :=
    truth sample_Symbols_value sample_hash_str sample_hash_type
      sample_hash_PLAtomic sample_hash_tuple sample_hash_frozenset in
  0 <= 0
  /\ type_of a <> T_Binary C_Until
  /\ truth (LTLfEventually a) i 0
     = py_any (fun j => truth a i j) (range 0 (FiniteTrace_last i + 1)).
Proof.
  intros a i truth'.
  assert (0 <= 0) as Hpos by lia.
  assert (type_of a <> T_Binary C_Until) as Ha by discriminate.
  split; [exact Hpos|]. split; [exact Ha|].
  exact (truth_Eventually
           sample_Symbols_value sample_hash_str sample_hash_type
           sample_hash_PLAtomic sample_hash_tuple sample_hash_frozenset
           a i 0 Hpos Ha).
Defined.

(** X12 at the atom [a], a trace of two letters and position [0]. *)
Lemma truth_Always_witness :
  let a := LTLfAtomic (PLAtomic "a") in
  let i := [PLInterp {[ "a" ]}; PLInterp ∅] in
  let truth :=
    truth sample_Symbols_value sample_hash_str sample_hash_type
      sample_hash_PLAtomic sample_hash_tuple sample_hash_frozenset in
  0 <= 0
  /\ truth (LTLfAlways a) i 0
     = py_all (fun j => truth a i j) (range 0 (FiniteTrace_last i + 1)).
Proof.
  intros a i truth'.
  assert (0 <= 0) as Hpos by lia.
  split; [exact Hpos|].
  exact (truth_Always
           sample_Symbols_value sample_hash_str sample_hash_type
           sample_hash_PLAtomic sample_hash_tuple sample_hash_frozenset
           a i 0 Hpos).
Defined.


(** X14 at the atom [a], [Until([a, b])], a one-letter trace and
    position [0]. *)
Lemma negate_truth_witness :
  let a := LTLfAtomic (PLAtomic "a") in
  let b := LTLfAtomic (PLAtomic "b") in
  let i := [PLInterp {[ "b" ]}] in
  let constructed :=
    constructed sample_Symbols_value sample_hash_str sample_hash_type
      sample_hash_PLAtomic sample_hash_tuple sample_hash_frozenset in
  let truth :=
    truth sample_Symbols_value sample_hash_str sample_hash_type
      sample_hash_PLAtomic sample_hash_tuple sample_hash_frozenset in
  let LTLfUntil_negate :=
    LTLfUntil_negate sample_Symbols_value sample_hash_str sample_hash_type
      sample_hash_PLAtomic sample_hash_tuple sample_hash_frozenset in
  constructed (LTLfUntil [a; b] [])
  /\ truth (LTLfAtomic_negate (PLAtomic "a")) i 0
     = outcome_negb (truth (LTLfAtomic (PLAtomic "a")) i 0)
  /\ exists g,
       LTLfUntil_negate [a; b] = Ok g
       /\ type_of g = T_Binary C_Release
       /\ truth g i 0 = outcome_negb (truth (LTLfUntil [a; b] []) i 0).
Proof.
  intros a b i constructed' truth' LTLfUntil_negate'.
  assert (constructed' (LTLfUntil [a; b] [])) as H.
  { eapply (constructed_binary _ _ _ _ _ _ C_Until [a; b]);
      [repeat constructor | reflexivity]. }
  split; [exact H|].
  exact (negate_truth
           sample_Symbols_value sample_hash_str sample_hash_type
           sample_hash_PLAtomic sample_hash_tuple sample_hash_frozenset
           (PLAtomic "a") [a; b] [] i 0 H).
Defined.

(** X15 at [Always(Or([a, Not(b)]))], the empty interpretation and
    [epsilon=False]. *)
Lemma delta_does_not_raise_witness :
  let a := LTLfAtomic (PLAtomic "a") in
  let b := LTLfAtomic (PLAtomic "b") in
  let self := LTLfAlways (LTLfOr [a; LTLfNot b] [a; LTLfNot b]) in
  let _delta :=
    _delta sample_Symbols_value sample_hash_str sample_hash_type
      sample_hash_PLAtomic sample_hash_tuple sample_hash_frozenset in
  delta_defined self = true
  /\ exists d, _delta self (PLInterp ∅) false = Ok d.
Proof.
  intros a b self _delta'.
  assert (delta_defined self = true) as H by reflexivity.
  split; [exact H|].
  exact (delta_does_not_raise
           sample_Symbols_value sample_hash_str sample_hash_type
           sample_hash_PLAtomic sample_hash_tuple sample_hash_frozenset
           self (PLInterp ∅) false H).
Defined.

(** X16 at [Implies([a, Eventually(b)])], a trace of two letters and
    position [1]. *)
Lemma truth_in_range_witness :
  let a := LTLfAtomic (PLAtomic "a") in
  let b := LTLfAtomic (PLAtomic "b") in
  let self := LTLfImplies [a; LTLfEventually b] [] in
  let i := [PLInterp {[ "a" ]}; PLInterp ∅] in
  let truth :=
    truth sample_Symbols_value sample_hash_str sample_hash_type
      sample_hash_PLAtomic sample_hash_tuple sample_hash_frozenset in
  binary_arity self = true
  /\ 0 <= 1 < Z.of_nat (length i)
  /\ exists v, truth self i 1 = Ok v.
Proof.
  intros a b self i truth'.
  assert (binary_arity self = true) as H by reflexivity.
  assert (0 <= 1 < Z.of_nat (length i)) as Hpos by (simpl; lia).
  split; [exact H|]. split; [exact Hpos|].
  exact (truth_in_range
           sample_Symbols_value sample_hash_str sample_hash_type
           sample_hash_PLAtomic sample_hash_tuple sample_hash_frozenset
           self i 1 H Hpos).
Defined.

(** X17 at the class [LTLfOr] and the operand lists [[a, b, a]] and
    [[b, a]]. *)
Lemma new_same_operands_witness :
  let a := LTLfAtomic (PLAtomic "a") in
  let b := LTLfAtomic (PLAtomic "b") in
  let constructed :=
    constructed sample_Symbols_value sample_hash_str sample_hash_type
      sample_hash_PLAtomic sample_hash_tuple sample_hash_frozenset in
  let new :=
    new sample_Symbols_value sample_hash_str sample_hash_type
      sample_hash_PLAtomic sample_hash_tuple sample_hash_frozenset in
  let Formula_eq :=
    Formula_eq sample_Symbols_value sample_hash_str sample_hash_type
      sample_hash_PLAtomic sample_hash_tuple sample_hash_frozenset in
  commutative C_Or = true
  /\ Forall constructed [a; b; a] /\ Forall constructed [b; a]
  /\ (2 <= length [a; b; a])%nat /\ (2 <= length [b; a])%nat
  /\ (forall z, z ∈ [a; b; a] <-> z ∈ [b; a])
  /\ exists x y,
       new C_Or [a; b; a] = Ok x /\ new C_Or [b; a] = Ok y
       /\ Formula_eq x y = true.
Proof.
  intros a b constructed' new' Formula_eq'.
  assert (Forall constructed' [a; b; a]) as Hl by repeat constructor.
  assert (Forall constructed' [b; a]) as Hl' by repeat constructor.
  assert (2 <= length [a; b; a])%nat as Hlen by (simpl; lia).
  assert (2 <= length [b; a])%nat as Hlen' by (simpl; lia).
  assert (forall z, z ∈ [a; b; a] <-> z ∈ [b; a]) as Hel.
  { intros z. rewrite !elem_of_cons, elem_of_nil. split.
    - intros [H|[H|[H|H]]]; auto.
    - intros [H|[H|H]]; auto. }
  split; [reflexivity|]. split; [exact Hl|]. split; [exact Hl'|].
  split; [exact Hlen|]. split; [exact Hlen'|]. split; [exact Hel|].
  exact (new_same_operands
           sample_Symbols_value sample_hash_str sample_hash_type
           sample_hash_PLAtomic sample_hash_tuple sample_hash_frozenset
           C_Or [a; b; a] [b; a] eq_refl Hl Hl' Hlen Hlen' Hel).
Defined.

(** X18 at [Until([a, b])], the trace [{a}, {b, last}] and position [0]. *)
Lemma delta_expands_truth_witness :
  let a := LTLfAtomic (PLAtomic "a") in
  let b := LTLfAtomic (PLAtomic "b") in
  let self := LTLfUntil [a; b] [] in
  let I := PLInterp {[ "a" ]} in
  let i := [I; PLInterp {[ "b"; LAST sample_Symbols_value ]}] in
  let constructed :=
    constructed sample_Symbols_value sample_hash_str sample_hash_type
      sample_hash_PLAtomic sample_hash_tuple sample_hash_frozenset in
  let truth :=
    truth sample_Symbols_value sample_hash_str sample_hash_type
      sample_hash_PLAtomic sample_hash_tuple sample_hash_frozenset in
  let _delta :=
    _delta sample_Symbols_value sample_hash_str sample_hash_type
      sample_hash_PLAtomic sample_hash_tuple sample_hash_frozenset in
  constructed self /\ is_nnf self = true
  /\ 0 <= 0 < FiniteTrace_last i
  /\ FiniteTrace_get i 0 = Ok I
  /\ contains I (LAST sample_Symbols_value) = false
  /\ exists (v : bool) (d : PLFormula),
       truth self i 0 = Ok v
       /\ _delta self I false = Ok d
       /\ PL_value_next (fun g => truth g i (0 + 1)) d v.
Proof.
  intros a b self I i constructed' truth' _delta'.
  assert (constructed' self) as Cself.
  { eapply (constructed_binary _ _ _ _ _ _ C_Until [a; b]);
      [repeat constructor | reflexivity]. }
  assert (is_nnf self = true) as Nself by reflexivity.
  assert (0 <= 0 < FiniteTrace_last i) as Hpos
    by (unfold FiniteTrace_last; simpl; lia).
  assert (FiniteTrace_get i 0 = Ok I) as Hget by reflexivity.
  assert (contains I (LAST sample_Symbols_value) = false) as Hlast.
  { apply bool_decide_eq_false_2. intros H%elem_of_singleton. discriminate H. }
  split; [exact Cself|]. split; [exact Nself|]. split; [exact Hpos|].
  split; [exact Hget|]. split; [exact Hlast|].
  exact (delta_expands_truth
           sample_Symbols_value sample_hash_str sample_hash_type
           sample_hash_PLAtomic sample_hash_tuple sample_hash_frozenset
           self i 0 I Cself Nself Hpos Hget Hlast).
Defined.
